(** * Query Cache Flow: cache-key groups, key injection and batch invalidation

    A shallow embedding of the reference implementation of [src/queries/index.ts]
    (the code block of the installation guide): [resolveKey],
    [createQueryGroupCRUD], [invalidateQueriesForKeys], [cancelQueriesForKeys]
    and [inyectKeysToQueries].

    JavaScript objects live in a heap of cells addressed by location, because
    the injector assigns to properties of the objects it walks and the
    [normalize] closures of a group read their sibling operations through the
    captured bindings [list] and [detail].  Plain objects are finite maps from
    property names to values, arrays are lists, and the arrow functions of the
    source are the constructors of [closure] together with their captured
    variables. *)

From stdpp Require Import base option list gmap strings pretty.

Open Scope Z_scope.
Open Scope string_scope.
Open Scope list_scope.

(** ** Values, cells and heaps *)

Abbreviation loc := nat (only parsing).

(** The arrow functions written in the source, with what each one captures. *)
Inductive closure : Type :=
  | KeyFn (entityName method : string)
      (* (id: T) => ({ entity: entityName, method: '...', id }) *)
  | InvalidatesFn (entityName : string)
      (* (id: T) => [{ entity: entityName, id }, { entity: entityName, method: 'list' }] *)
  | DetailNormalize (list : loc)
  | CreateNormalize (list detail : loc)
  | UpdateNormalize (list detail : loc)
  | RemoveNormalize (list detail : loc)
  | InjectedFn (originalFn : closure) (extra : loc).
      (* (...args) => { const key = originalFn(...args); ... { ...key, ...extra } } *)

(** Numbers are integers here; NaN and fractions do not occur in cache keys. *)
Inductive value : Type :=
  | VUndefined
  | VNull
  | VBool (b : bool)
  | VNum (n : Z)
  | VStr (s : string)
  | VRef (l : loc)
  | VFun (f : closure).

Inductive cell : Type :=
  | Obj (props : gmap string value)
  | Arr (elems : list value).

Abbreviation heap := (list cell) (only parsing).

#[global] Instance closure_eq_dec : EqDecision closure.
Proof. solve_decision. Defined.
#[global] Instance value_eq_dec : EqDecision value.
Proof. solve_decision. Defined.
#[global] Instance cell_eq_dec : EqDecision cell.
Proof. solve_decision. Defined.

(** [Boolean(v)]. *)
Definition truthy (v : value) : bool :=
  match v with
  | VUndefined | VNull => false
  | VBool b => b
  | VNum n => negb (n =? 0)%Z
  | VStr s => negb (String.eqb s "")
  | VRef _ | VFun _ => true
  end.

(** [a === b]; two function values are the same function when they are the
    same closure. *)
Definition strictEq (a b : value) : bool := bool_decide (a = b).

(** A primitive: neither an object, an array nor a function. *)
Definition prim (v : value) : bool :=
  match v with
  | VRef _ | VFun _ => false
  | _ => true
  end.

(** ** A state-and-failure monad

    [None] stands for a run that raises (a [TypeError], exhausted recursion
    depth) or leaves the modelled fragment (a dangling location). *)

Definition M (S A : Type) : Type := S → option (A * S).

Definition ret {S A} (a : A) : M S A := λ s, Some (a, s).

Definition bind {S A B} (m : M S A) (k : A → M S B) : M S B :=
  λ s, match m s with
       | Some (a, s') => k a s'
       | None => None
       end.

Definition fail {S A} : M S A := λ _, None.

Notation "'let*' x := m 'in' k" := (bind m (λ x, k))
  (at level 10, x name, m at level 100, k at level 200).

(** [xs.map(f)]: runs [f] on every element, left to right. *)
Fixpoint arrayMap {S A B} (f : A → M S B) (xs : list A) : M S (list B) :=
  match xs with
  | [] => ret []
  | x :: xs' => let* y := f x in let* ys := arrayMap f xs' in ret (y :: ys)
  end.

(** [xs.filter(f)]: runs [f] on every element, left to right. *)
Fixpoint arrayFilter {S A} (f : A → M S bool) (xs : list A) : M S (list A) :=
  match xs with
  | [] => ret []
  | x :: xs' =>
      let* keep := f x in
      let* ys := arrayFilter f xs' in
      ret (if keep : bool then x :: ys else ys)
  end.

(** ** Heap primitives *)

(** A new cell at the next location. *)
Definition alloc (c : cell) : M heap loc :=
  λ h, Some (length h, h ++ [c]).

(** An object or array literal, as a value. *)
Definition new (c : cell) : M heap value :=
  let* l := alloc c in ret (VRef l).

(** The own enumerable properties of an array: its indices. *)
Definition indexProps (elems : list value) : gmap string value :=
  list_to_map (imap (λ i x, (pretty i, x)) elems).

(** The properties copied by [{ ...o }] for the object at [l]. *)
Definition spread (l : loc) : M heap (gmap string value) :=
  λ h, match h !! l with
       | Some (Obj props) => Some (props, h)
       | Some (Arr elems) => Some (indexProps elems, h)
       | None => None
       end.

(** [v.name]: [undefined] when the property is missing, a [TypeError] on
    [null] and [undefined]. *)
Definition getProp (name : string) (v : value) : M heap value :=
  λ h, match v with
       | VUndefined | VNull => None
       | VRef l =>
           match h !! l with
           | Some (Obj props) => Some (default VUndefined (props !! name), h)
           | Some (Arr _) => Some (VUndefined, h)
           | None => None
           end
       | _ => Some (VUndefined, h)
       end.

(** [obj[name] = v] on the plain object at [l]. *)
Definition setProp (l : loc) (name : string) (v : value) : M heap unit :=
  λ h, match h !! l with
       | Some (Obj props) => Some (tt, <[l := Obj (<[name := v]> props)]> h)
       | _ => None
       end.

(** ** The cache engine

    The engine ([queryClient], from the data-fetching library) is external to
    the repository.  The spec describes it as exposing [setEntry(key,
    updater)], [invalidate(key, options)] and [cancel(key)], keyed by the
    cache key: two keys name the same slot iff all their present fields are
    equal. *)

Abbreviation slot := (gmap string value) (only parsing).

(** Modelled from the spec: the engine's cache, missing from the repository.
    A slot is named by the field map of its key; an entry that is not set
    reads as [undefined]. *)
Definition cache := slot → value.

(** Modelled from the spec: the engine's cache with no entry set. *)
Definition emptyCache : cache := λ _, VUndefined.

(** Modelled from the spec: the engine's [setEntry], missing from the
    repository.  Setting an entry to [undefined] unsets it. *)
Definition setEntry (k : slot) (v : value) (c : cache) : cache :=
  λ k', if decide (k' = k) then v else c k'.

(** Modelled from the spec: how the engine names the slot of a query key
    [[key]], a one-element array holding a plain object; fields are compared
    as values. *)
Definition hashKey (h : heap) (queryKey : value) : option slot :=
  match queryKey with
  | VRef a =>
      match h !! a with
      | Some (Arr [VRef k]) =>
          match h !! k with
          | Some (Obj fields) => Some fields
          | _ => None
          end
      | _ => None
      end
  | _ => None
  end.

Definition store : Type := heap * cache.

Definition liftH {A} (m : M heap A) : M store A :=
  λ s, match m s.1 with
       | Some (a, h') => Some (a, (h', s.2))
       | None => None
       end.

(** Modelled from the spec: [queryClient.setQueryData(queryKey, updater)],
    missing from the repository.  The updater is run on the current entry and
    its result becomes the entry. *)
Definition setQueryData (queryKey : value) (updater : value → M heap value) : M store unit :=
  λ s, match hashKey s.1 queryKey with
       | Some k =>
           match updater (s.2 k) s.1 with
           | Some (v, h') => Some (tt, (h', setEntry k v s.2))
           | None => None
           end
       | None => None
       end.

(** Modelled from the spec: a call of [queryClient.invalidateQueries(filters)]
    or [queryClient.cancelQueries(filters)], recorded with the fields of the
    filter object it receives. *)
Inductive event : Type :=
  | InvalidateQueries (filters : gmap string value)
  | CancelQueries (filters : gmap string value).

(** ** [createQueryGroupCRUD]: the closures *)

(** [old.map((item) => (item.id === data.id ? data : item))] *)
Definition replaceById (data : value) (item : value) : M heap value :=
  let* itemId := getProp "id" item in
  let* dataId := getProp "id" data in
  ret (if strictEq itemId dataId then data else item).

(** [(item) => item.id !== data.id] *)
Definition otherId (data : value) (item : value) : M heap bool :=
  let* itemId := getProp "id" item in
  let* dataId := getProp "id" data in
  ret (negb (strictEq itemId dataId)).

(** The elements of an array value ([old.map], [old.filter], [...old]);
    anything else that is truthy has no such method or is not modelled. *)
Definition elemsOf (v : value) : M heap (list value) :=
  λ h, match v with
       | VRef l =>
           match h !! l with
           | Some (Arr elems) => Some (elems, h)
           | _ => None
           end
       | _ => None
       end.

(** [(old) => { if (!old) return old; return old.map(...) }] *)
Definition replaceUpdater (data : value) (old : value) : M heap value :=
  if negb (truthy old) then ret old
  else let* items := elemsOf old in
       let* items' := arrayMap (replaceById data) items in
       new (Arr items').

(** [(old) => { if (!old) return [data]; return [...old, data] }] *)
Definition appendUpdater (data : value) (old : value) : M heap value :=
  if negb (truthy old) then new (Arr [data])
  else let* items := elemsOf old in
       new (Arr (items ++ [data])).

(** [(old) => { if (!old) return old; return old.filter(...) }] *)
Definition filterUpdater (data : value) (old : value) : M heap value :=
  if negb (truthy old) then ret old
  else let* items := elemsOf old in
       let* items' := arrayFilter (otherId data) items in
       new (Arr items').

(** [resolveKey]: [typeof key === 'function' ? key(...args) : key], given
    how a function value is called. *)
Definition resolveKey (callFn : closure → list value → M store value)
    (key : value) (args : list value) : M store value :=
  match key with
  | VFun g => callFn g args
  | _ => ret key
  end.

(** Calling a function value.  [fuel] bounds the depth of nested calls: a
    [normalize] closure calls whatever function its sibling's [queryKey]
    holds at that moment. *)
Fixpoint call (fuel : nat) (f : closure) (args : list value) : M store value :=
  match fuel with
  | O => fail
  | S fuel' =>
      let resolveKey := resolveKey (call fuel') in
      let arg0 := default VUndefined (args !! 0%nat) in
      match f with
      | KeyFn entityName method =>
          liftH (new (Obj {[ "entity" := VStr entityName;
                               "method" := VStr method;
                               "id" := arg0 ]}))
      | InvalidatesFn entityName =>
          let* k1 := liftH (new (Obj {[ "entity" := VStr entityName; "id" := arg0 ]})) in
          let* k2 := liftH (new (Obj {[ "entity" := VStr entityName;
                                          "method" := VStr "list" ]})) in
          liftH (new (Arr [k1; k2]))
      | DetailNormalize list =>
          let* lk := liftH (getProp "queryKey" (VRef list)) in
          let* k := resolveKey lk [] in
          let* q := liftH (new (Arr [k])) in
          let* _ := setQueryData q (replaceUpdater arg0) in
          ret VUndefined
      | CreateNormalize list detail =>
          let* lk := liftH (getProp "queryKey" (VRef list)) in
          let* k := resolveKey lk [] in
          let* q := liftH (new (Arr [k])) in
          let* _ := setQueryData q (appendUpdater arg0) in
          let* dk := liftH (getProp "queryKey" (VRef detail)) in
          let* id := liftH (getProp "id" arg0) in
          let* k' := resolveKey dk [id] in
          let* q' := liftH (new (Arr [k'])) in
          let* _ := setQueryData q' (λ _, ret arg0) in
          ret VUndefined
      | UpdateNormalize list detail =>
          let* lk := liftH (getProp "queryKey" (VRef list)) in
          let* k := resolveKey lk [] in
          let* q := liftH (new (Arr [k])) in
          let* _ := setQueryData q (replaceUpdater arg0) in
          let* dk := liftH (getProp "queryKey" (VRef detail)) in
          let* id := liftH (getProp "id" arg0) in
          let* k' := resolveKey dk [id] in
          let* q' := liftH (new (Arr [k'])) in
          let* _ := setQueryData q' (λ _, ret arg0) in
          ret VUndefined
      | RemoveNormalize list detail =>
          let* lk := liftH (getProp "queryKey" (VRef list)) in
          let* k := resolveKey lk [] in
          let* q := liftH (new (Arr [k])) in
          let* _ := setQueryData q (filterUpdater arg0) in
          let* dk := liftH (getProp "queryKey" (VRef detail)) in
          let* id := liftH (getProp "id" arg0) in
          let* k' := resolveKey dk [id] in
          let* q' := liftH (new (Arr [k'])) in
          let* _ := setQueryData q' (λ _, ret VUndefined) in
          ret VUndefined
      | InjectedFn originalFn extra =>
          let* key := call fuel' originalFn args in
          (* key && typeof key === 'object' && !Array.isArray(key) *)
          match key with
          | VRef k =>
              λ s, match s.1 !! k with
                   | Some (Obj kp) =>
                       liftH (let* ep := spread extra in new (Obj (ep ∪ kp))) s
                   | Some (Arr _) => Some (key, s)
                   | None => None
                   end
          | _ => ret key
          end
      end
  end.

(** ** [createQueryGroupCRUD] *)

Definition createQueryGroupCRUD (entityName : string) : M heap value :=
  let* allKey := new (Obj {[ "entity" := VStr entityName ]}) in
  let* all := new (Obj {[ "queryKey" := allKey ]}) in
  let* listKey := new (Obj {[ "entity" := VStr entityName;
                              "method" := VStr "list" ]}) in
  let* list := alloc (Obj {[ "queryKey" := listKey; "type" := VStr "query" ]}) in
  let* detail := alloc (Obj {[ "queryKey" := VFun (KeyFn entityName "detail");
                               "type" := VStr "query";
                               "normalize" := VFun (DetailNormalize list) ]}) in
  let* createKey := new (Obj {[ "entity" := VStr entityName;
                                "method" := VStr "create" ]}) in
  let* createInvalidates := new (Obj {[ "entity" := VStr entityName;
                                        "method" := VStr "list" ]}) in
  let* create := new (Obj {[ "queryKey" := createKey;
                             "invalidates" := createInvalidates;
                             "type" := VStr "mutation";
                             "normalize" := VFun (CreateNormalize list detail) ]}) in
  let* update := new (Obj {[ "queryKey" := VFun (KeyFn entityName "update");
                             "invalidates" := VFun (InvalidatesFn entityName);
                             "type" := VStr "mutation";
                             "normalize" := VFun (UpdateNormalize list detail) ]}) in
  let* remove := new (Obj {[ "queryKey" := VFun (KeyFn entityName "remove");
                             "invalidates" := VFun (InvalidatesFn entityName);
                             "type" := VStr "mutation";
                             "normalize" := VFun (RemoveNormalize list detail) ]}) in
  new (Obj {[ "all" := all; "list" := VRef list; "detail" := VRef detail;
              "create" := create; "update" := update; "remove" := remove ]}).

(** ** [invalidateQueriesForKeys] and [cancelQueriesForKeys] *)

Definition engineLog : Type := heap * list event.

Definition emit (e : event) : M engineLog unit :=
  λ s, Some (tt, (s.1, s.2 ++ [e])).

Definition liftL {A} (m : M heap A) : M engineLog A :=
  λ s, match m s.1 with
       | Some (a, h') => Some (a, (h', s.2))
       | None => None
       end.

(** [xs.forEach(body)] *)
Fixpoint forEach {S A} (body : A → M S unit) (xs : list A) : M S unit :=
  match xs with
  | [] => ret tt
  | x :: xs' => let* _ := body x in forEach body xs'
  end.

(** [...invalidateOptions] for an optional options object. *)
Definition spreadOptions (invalidateOptions : option loc) : M heap (gmap string value) :=
  match invalidateOptions with
  | Some o => spread o
  | None => ret ∅
  end.

Definition invalidateQueriesForKeys (keys : list value) (invalidateOptions : option loc)
    : M engineLog unit :=
  forEach (λ key,
    let* q := liftL (new (Arr [key])) in
    let* opts := liftL (spreadOptions invalidateOptions) in
    emit (InvalidateQueries (opts ∪ {[ "queryKey" := q ]})))
  (List.filter truthy keys).

Definition cancelQueriesForKeys (keys : list value) : M engineLog unit :=
  forEach (λ key,
    let* q := liftL (new (Arr [key])) in
    emit (CancelQueries {[ "queryKey" := q ]}))
  (List.filter truthy keys).

(** ** [inyectKeysToQueries] *)

(** [Object.prototype.hasOwnProperty.call(obj, name)] for the plain object at [l]. *)
Definition hasOwn (l : loc) (name : string) : M heap bool :=
  λ h, match h !! l with
       | Some (Obj props) => Some (bool_decide (is_Some (props !! name)), h)
       | _ => None
       end.

(** The names enumerated by [for (const prop in obj)] on the plain object at
    [l].  The source enumerates in property creation order; the order taken
    here is that of [map_to_list]. *)
Definition ownKeys (l : loc) : M heap (list string) :=
  λ h, match h !! l with
       | Some (Obj props) => Some ((map_to_list props).*1, h)
       | _ => None
       end.

(** The [if (hasOwnProperty(obj, 'queryKey')) { ... }] statement of [process]. *)
Definition injectQueryKey (extra l : loc) : M heap unit :=
  let* own := hasOwn l "queryKey" in
  if own : bool then
    let* queryKey := getProp "queryKey" (VRef l) in
    match queryKey with
    | VFun originalFn =>
        setProp l "queryKey" (VFun (InjectedFn originalFn extra))
    | VRef q =>
        let* qp := spread q in
        let* ep := spread extra in
        let* merged := new (Obj (ep ∪ qp)) in
        setProp l "queryKey" merged
    | _ => ret tt
    end
  else ret tt.

(** [process]; [fuel] bounds the recursion depth. *)
Fixpoint process (fuel : nat) (extra : loc) (obj : value) : M heap value :=
  match fuel with
  | O => fail
  | S fuel' =>
      match obj with
      | VRef l =>
          λ h, match h !! l with
               | Some (Arr elems) =>
                   (let* elems' := arrayMap (process fuel' extra) elems in
                    new (Arr elems')) h
               | Some (Obj _) =>
                   (let* _ := injectQueryKey extra l in
                    let* names := ownKeys l in
                    let* _ := forEach (λ prop,
                      let* own := hasOwn l prop in
                      if own : bool then
                        let* v := getProp prop (VRef l) in
                        let* v' := process fuel' extra v in
                        setProp l prop v'
                      else ret tt) names in
                    ret obj) h
               | None => None
               end
      | _ => ret obj
      end
  end.

Definition inyectKeysToQueries (fuel : nat) (queries : value) (extra : loc) : M heap value :=
  process fuel extra queries.

(** ** Reading results *)

(** The fields of the plain object a value refers to. *)
Definition fieldsOf (h : heap) (v : value) : option (gmap string value) :=
  match v with
  | VRef l => match h !! l with
              | Some (Obj props) => Some props
              | _ => None
              end
  | _ => None
  end.

(** [v.name] when [v] is a plain object that owns [name]. *)
Definition field (h : heap) (v : value) (name : string) : option value :=
  fieldsOf h v ≫= λ props, props !! name.

(** ** The mutation hooks of the quick start

    The [onSuccess] callbacks of [useCreateAccount], [useUpdateAccount] and
    [useDeleteAccount] act on the heap, on the engine's cache and on the log
    of the engine's calls.  The array literal handed to
    [invalidateQueriesForKeys] is the list of its elements, as [keys] is. *)

Definition world : Type := heap * cache * list event.

Definition onStore {A} (m : M store A) : M world A :=
  λ w, match m (w.1.1, w.1.2) with
       | Some (a, s) => Some (a, (s.1, s.2, w.2))
       | None => None
       end.

Definition onLog {A} (m : M engineLog A) : M world A :=
  λ w, match m (w.1.1, w.2) with
       | Some (a, s) => Some (a, (s.1, w.1.2, s.2))
       | None => None
       end.

(** [f(...args)]: a [TypeError] when [f] is not a function. *)
Definition callValue (fuel : nat) (f : value) (args : list value) : M store value :=
  match f with
  | VFun c => call fuel c args
  | _ => fail
  end.

(** [f?.(...args)] *)
Definition optionalCall (fuel : nat) (f : value) (args : list value) : M store value :=
  match f with
  | VUndefined | VNull => ret VUndefined
  | _ => callValue fuel f args
  end.

(** [onSuccess: (data) => {
       invalidateQueriesForKeys([accountsQueryGroup.create.invalidates]);
       accountsQueryGroup.create.normalize?.(data); }] *)
Definition createOnSuccess (fuel : nat) (accountsQueryGroup data : value)
    : M world unit :=
  let* create := onStore (liftH (getProp "create" accountsQueryGroup)) in
  let* invalidates := onStore (liftH (getProp "invalidates" create)) in
  let* _ := onLog (invalidateQueriesForKeys [invalidates] None) in
  let* create := onStore (liftH (getProp "create" accountsQueryGroup)) in
  let* normalize := onStore (liftH (getProp "normalize" create)) in
  let* _ := onStore (optionalCall fuel normalize [data]) in
  ret tt.

(** [onSuccess: (data, variables) => {
       invalidateQueriesForKeys(accountsQueryGroup.update.invalidates(variables.id));
       accountsQueryGroup.update.normalize?.(data); }] *)
Definition updateOnSuccess (fuel : nat) (accountsQueryGroup data variables : value)
    : M world unit :=
  let* update := onStore (liftH (getProp "update" accountsQueryGroup)) in
  let* invalidates := onStore (liftH (getProp "invalidates" update)) in
  let* id := onStore (liftH (getProp "id" variables)) in
  let* keys := onStore (callValue fuel invalidates [id]) in
  let* ks := onStore (liftH (elemsOf keys)) in
  let* _ := onLog (invalidateQueriesForKeys ks None) in
  let* update := onStore (liftH (getProp "update" accountsQueryGroup)) in
  let* normalize := onStore (liftH (getProp "normalize" update)) in
  let* _ := onStore (optionalCall fuel normalize [data]) in
  ret tt.

(** [onSuccess: (data, id) => {
       invalidateQueriesForKeys(accountsQueryGroup.remove.invalidates(id));
       accountsQueryGroup.remove.normalize?.({ id }); }] *)
Definition deleteOnSuccess (fuel : nat) (accountsQueryGroup id : value)
    : M world unit :=
  let* remove := onStore (liftH (getProp "remove" accountsQueryGroup)) in
  let* invalidates := onStore (liftH (getProp "invalidates" remove)) in
  let* keys := onStore (callValue fuel invalidates [id]) in
  let* ks := onStore (liftH (elemsOf keys)) in
  let* _ := onLog (invalidateQueriesForKeys ks None) in
  let* remove := onStore (liftH (getProp "remove" accountsQueryGroup)) in
  let* normalize := onStore (liftH (getProp "normalize" remove)) in
  let* arg := onStore (liftH (new (Obj {[ "id" := id ]}))) in
  let* _ := onStore (optionalCall fuel normalize [arg]) in
  ret tt.

(** ** [normalizeParams]

    [Object.fromEntries(Object.entries(params).filter(([_, v]) =>
       v !== undefined && v !== ''))] *)

(** [([_, v]) => v !== undefined && v !== ''] *)
Definition keptParam (entry : string * value) : bool :=
  negb (strictEq entry.2 VUndefined) && negb (strictEq entry.2 (VStr "")).

(** [Object.entries(v)]: the own properties of an object or an array, none
    for a number, a boolean or a function, a [TypeError] on [undefined] and
    [null]; the characters of a string are not modelled. *)
Definition objectEntries (v : value) : M heap (gmap string value) :=
  match v with
  | VRef l => spread l
  | VUndefined | VNull | VStr _ => fail
  | VBool _ | VNum _ | VFun _ => ret ∅
  end.

Definition normalizeParams (params : value) : M heap value :=
  let* entries := objectEntries params in
  new (Obj (filter (λ entry, keptParam entry = true) entries)).

(** ** Entity mapping

    The helpers of the entity-mapping pattern: they turn the entity names
    reported by the backend into cache keys through the object
    [ENTITY_TO_QUERY_KEY_MAP] and hand them to [invalidateQueriesForKeys].
    The arrays of names and of keys are lists here, as the [keys] of
    [invalidateQueriesForKeys] are. *)

(** The names an object literal inherits from [Object.prototype]. *)
Definition inheritedNames : list string :=
  [ "constructor"; "hasOwnProperty"; "isPrototypeOf"; "propertyIsEnumerable";
    "toLocaleString"; "toString"; "valueOf"; "__proto__";
    "__defineGetter__"; "__defineSetter__"; "__lookupGetter__";
    "__lookupSetter__" ].

(** [obj[name]] for a computed [name] on the object literal at [l]: the own
    property, [undefined] when there is none.  For a name inherited from
    [Object.prototype] the source reads a built-in, which the values here do
    not have: the run leaves the modelled fragment. *)
Definition getElem (l : loc) (name : string) : M heap value :=
  λ h, match h !! l with
       | Some (Obj props) =>
           match props !! name with
           | Some v => Some (v, h)
           | None => if bool_decide (name ∈ inheritedNames) then None
                     else Some (VUndefined, h)
           end
       | _ => None
       end.

(** [affectedEntities.map((entity) => ENTITY_TO_QUERY_KEY_MAP[entity])
      .filter(Boolean)] *)
Definition getQueryKeysFromAffectedEntities (ENTITY_TO_QUERY_KEY_MAP : loc)
    (affectedEntities : list string) : M heap (list value) :=
  let* keys := arrayMap (getElem ENTITY_TO_QUERY_KEY_MAP) affectedEntities in
  ret (List.filter truthy keys).

Definition invalidateAffectedEntities (ENTITY_TO_QUERY_KEY_MAP : loc)
    (affectedEntities : list string) : M engineLog unit :=
  let* keys := liftL (getQueryKeysFromAffectedEntities ENTITY_TO_QUERY_KEY_MAP
                        affectedEntities) in
  invalidateQueriesForKeys keys None.

(** The variant over the type of known names:
    [const keys = entities.map((e) => ENTITY_TO_QUERY_KEY_MAP[e]);
     invalidateQueriesForKeys(keys);] *)
Definition invalidateAffectedEntitiesTyped (ENTITY_TO_QUERY_KEY_MAP : loc)
    (entities : list string) : M engineLog unit :=
  let* keys := liftL (arrayMap (getElem ENTITY_TO_QUERY_KEY_MAP) entities) in
  invalidateQueriesForKeys keys None.

(** [allEntities.add(x)] on a [Set], kept in insertion order. *)
Definition setAdd (xs : list string) (x : string) : list string :=
  if bool_decide (x ∈ xs) then xs else xs ++ [x].

Definition ENTITY_DEPENDENCIES : gmap string (list string) :=
  {[ "accounts" := ["transactions"; "movements"; "reminders"];
     "transactions" := ["movements"];
     "categories" := ["transactions"] ]}.

(** [ENTITY_DEPENDENCIES[entity]?.forEach((dep) => allEntities.add(dep))]:
    nothing for a name without dependencies; for an inherited name the value
    read is a built-in without [forEach], a [TypeError]. *)
Definition addDependencies (dependencies : gmap string (list string))
    (allEntities : list string) (entity : string) : option (list string) :=
  match dependencies !! entity with
  | Some deps => Some (foldl setAdd allEntities deps)
  | None => if bool_decide (entity ∈ inheritedNames) then None
            else Some allEntities
  end.

(** The [Set] built by [invalidateWithDependencies], as the array
    [[...allEntities]]. *)
Definition collectEntities (dependencies : gmap string (list string))
    (entities : list string) : option (list string) :=
  foldl (λ acc entity, acc ≫= λ allEntities,
           addDependencies dependencies allEntities entity)
        (Some (foldl setAdd [] entities)) entities.

Definition invalidateWithDependencies (ENTITY_TO_QUERY_KEY_MAP : loc)
    (entities : list string) : M engineLog unit :=
  match collectEntities ENTITY_DEPENDENCIES entities with
  | Some allEntities => invalidateAffectedEntities ENTITY_TO_QUERY_KEY_MAP allEntities
  | None => fail
  end.

(** ** Statements: shapes, readers and example data *)

Definition crudCells (E : string) (n : loc) : list cell :=
  [ Obj {[ "entity" := VStr E ]};
    Obj {[ "queryKey" := VRef n ]};
    Obj {[ "entity" := VStr E; "method" := VStr "list" ]};
    Obj {[ "queryKey" := VRef (n + 2)%nat; "type" := VStr "query" ]};
    Obj {[ "queryKey" := VFun (KeyFn E "detail"); "type" := VStr "query";
           "normalize" := VFun (DetailNormalize (n + 3)%nat) ]};
    Obj {[ "entity" := VStr E; "method" := VStr "create" ]};
    Obj {[ "entity" := VStr E; "method" := VStr "list" ]};
    Obj {[ "queryKey" := VRef (n + 5)%nat; "invalidates" := VRef (n + 6)%nat;
           "type" := VStr "mutation";
           "normalize" := VFun (CreateNormalize (n + 3)%nat (n + 4)%nat) ]};
    Obj {[ "queryKey" := VFun (KeyFn E "update");
           "invalidates" := VFun (InvalidatesFn E);
           "type" := VStr "mutation";
           "normalize" := VFun (UpdateNormalize (n + 3)%nat (n + 4)%nat) ]};
    Obj {[ "queryKey" := VFun (KeyFn E "remove");
           "invalidates" := VFun (InvalidatesFn E);
           "type" := VStr "mutation";
           "normalize" := VFun (RemoveNormalize (n + 3)%nat (n + 4)%nat) ]};
    Obj {[ "all" := VRef (n + 1)%nat; "list" := VRef (n + 3)%nat;
           "detail" := VRef (n + 4)%nat; "create" := VRef (n + 7)%nat;
           "update" := VRef (n + 8)%nat; "remove" := VRef (n + 9)%nat ]} ].

(** [g.op.queryKey] and [g.op.invalidates] *)
Definition queryKeyOf (h : heap) (g : value) (op : string) : option value :=
  field h g op ≫= λ o, field h o "queryKey".

Definition invalidatesOf (h : heap) (g : value) (op : string) : option value :=
  field h g op ≫= λ o, field h o "invalidates".

(** [g.op.queryKey] as a field map, for a static key. *)
Definition staticKey (h : heap) (g : value) (op : string) : option (gmap string value) :=
  queryKeyOf h g op ≫= fieldsOf h.

(** The field map of the key returned by the call [f(...args)]. *)
Definition callForKey (fuel : nat) (f : value) (args : list value) (s : store)
    : option (gmap string value) :=
  match f with
  | VFun c =>
      match call fuel c args s with
      | Some (v, s') => fieldsOf s'.1 v
      | None => None
      end
  | _ => None
  end.

(** [g.op.queryKey(i)] as a field map, for a function key. *)
Definition dynamicKey (fuel : nat) (s : store) (g : value) (op : string) (i : value)
    : option (gmap string value) :=
  queryKeyOf s.1 g op ≫= λ f, callForKey fuel f [i] s.

(** The field maps of the keys in the array returned by [f(...args)]. *)
Definition callForKeys (fuel : nat) (f : value) (args : list value) (s : store)
    : option (list (gmap string value)) :=
  match f with
  | VFun c =>
      match call fuel c args s with
      | Some (VRef a, s') =>
          match s'.1 !! a with
          | Some (Arr elems) => mapM (fieldsOf s'.1) elems
          | _ => None
          end
      | _ => None
      end
  | _ => None
  end.

(** [g.op.invalidates] as a field map, for a static key. *)
Definition staticInvalidates (h : heap) (g : value) (op : string)
    : option (gmap string value) :=
  invalidatesOf h g op ≫= fieldsOf h.

(** [g.op.invalidates(i)] as a list of field maps. *)
Definition dynamicInvalidates (fuel : nat) (s : store) (g : value) (op : string)
    (i : value) : option (list (gmap string value)) :=
  invalidatesOf s.1 g op ≫= λ f, callForKeys fuel f [i] s.

(** The own fields [op] of the options passed to [invalidateQueriesForKeys]:
    those of the object given, none when the argument is left out. *)
Definition optionsAt (h : heap) (invalidateOptions : option loc)
    (op : gmap string value) : Prop :=
  match invalidateOptions with
  | Some o => h !! o = Some (Obj op)
  | None => op = ∅
  end.

(** The filter objects received by the engine for the truthy keys [ks], the
    array [[k]] of the [j]-th one being allocated at [n + j]. *)
Definition invalidateEvents (op : gmap string value) (n : nat) (ks : list value)
    : list event :=
  imap (λ j _, InvalidateQueries (op ∪ {[ "queryKey" := VRef (n + j)%nat ]})) ks.

Definition cancelEvents (n : nat) (ks : list value) : list event :=
  imap (λ j _, CancelQueries {[ "queryKey" := VRef (n + j)%nat ]}) ks.

(** Every cell of [h] is still there, unchanged, in [h']. *)
Definition preserved (h h' : heap) : Prop :=
  ∀ l c, h !! l = Some c → h' !! l = Some c.

(** [v.id], read without running anything. *)
Definition idOf (h : heap) (v : value) : option value :=
  fst <$> getProp "id" v h.

(** What [old.map((item) => (item.id === data.id ? data : item))] returns. *)
Definition replaced (h : heap) (i data : value) (items : list value) : list value :=
  map (λ item, if strictEq (default VUndefined (idOf h item)) i then data else item)
      items.

(** What [old.filter((item) => item.id !== data.id)] returns. *)
Definition removed (h : heap) (i : value) (items : list value) : list value :=
  List.filter (λ item, negb (strictEq (default VUndefined (idOf h item)) i)) items.

(** [g.op.normalize] *)
Definition normalizeOf (h : heap) (g : value) (op : string) : option value :=
  field h g op ≫= λ o, field h o "normalize".

(** [g.op.normalize(data)], run for its effect on the heap and the cache. *)
Definition callNormalize (fuel : nat) (s : store) (g : value) (op : string)
    (data : value) : option store :=
  normalizeOf s.1 g op ≫= λ f,
    match f with
    | VFun n => snd <$> call fuel n [data] s
    | _ => None
    end.

(** A heap in which the four [normalize] callbacks of the group [g] can run:
    they are the closures over [list] and [detail], [list.queryKey] is the
    static key with fields [ls], and [detail.queryKey] is a function that
    returns, for the identifier [i], a key with fields [ds i]. *)
Definition normalizable (fuel : nat) (h : heap) (g : value) (ls : slot)
    (ds : value → slot) : Prop :=
  ∃ (list detail : loc) (lp : gmap string value) (lk : loc)
    (dp : gmap string value) (f : closure),
    normalizeOf h g "detail" = Some (VFun (DetailNormalize list)) ∧
    normalizeOf h g "create" = Some (VFun (CreateNormalize list detail)) ∧
    normalizeOf h g "update" = Some (VFun (UpdateNormalize list detail)) ∧
    normalizeOf h g "remove" = Some (VFun (RemoveNormalize list detail)) ∧
    h !! list = Some (Obj lp) ∧
    lp !! "queryKey" = Some (VRef lk) ∧
    h !! lk = Some (Obj ls) ∧
    h !! detail = Some (Obj dp) ∧
    dp !! "queryKey" = Some (VFun f) ∧
    ∀ i hc c, preserved h hc →
      ∃ k junk, call fuel f [i] (hc, c) = Some (VRef k, (hc ++ junk, c)) ∧
                (hc ++ junk) !! k = Some (Obj (ds i)).

Definition listFields (E : string) : slot :=
  {[ "entity" := VStr E; "method" := VStr "list" ]}.

Definition detailFields (E : string) (i : value) : slot :=
  {[ "entity" := VStr E; "method" := VStr "detail"; "id" := i ]}.

(** All fields are primitives: the shape of a cache key such as
    [{entity, method}] and of an [extra] such as [{auth: true}]. *)
Definition primFields (p : gmap string value) : Prop :=
  map_Forall (λ _ v, prim v = true) p.

(** The object at [l] has primitive fields only. *)
Definition flatAt (h : heap) (l : loc) : Prop :=
  ∃ p, h !! l = Some (Obj p) ∧ primFields p.

(** A value [process] returns as it is and without touching the heap: a
    primitive, a function, or an object with primitive fields only. *)
Definition inert (h : heap) (v : value) : Prop :=
  match v with
  | VRef l => flatAt h l
  | _ => True
  end.

(** An operation: an object whose properties ([queryKey], [invalidates],
    [type], [normalize], ...) are all inert. *)
Definition operationAt (h : heap) (l : loc) : Prop :=
  ∃ p, h !! l = Some (Obj p) ∧ map_Forall (λ _ v, inert h v) p.

(** What injection with [extra] (fields [ep]) has made of the operation at
    [l], whose properties were [p] in [h]: a static key is replaced by a new
    object holding its fields with those of [extra] on top, a function key by
    its wrapper, and nothing else changes. *)
Definition opInjected (extra : loc) (ep : gmap string value) (h h' : heap)
    (l : loc) (p : gmap string value) : Prop :=
  match p !! "queryKey" with
  | Some (VRef q) =>
      ∃ k qp, h !! q = Some (Obj qp) ∧ (length h ≤ k)%nat ∧
              h' !! l = Some (Obj (<["queryKey" := VRef k]> p)) ∧
              h' !! k = Some (Obj (ep ∪ qp))
  | Some (VFun f) =>
      h' !! l = Some (Obj (<["queryKey" := VFun (InjectedFn f extra)]> p))
  | _ => h' !! l = Some (Obj p)
  end.

(** Objects with primitive fields only are the same in [h']. *)
Definition flatPreserved (h h' : heap) : Prop :=
  ∀ m pm, h !! m = Some (Obj pm) → primFields pm → h' !! m = Some (Obj pm).

(** A member of a group: an operation, or a value that is not an object. *)
Definition member (h : heap) (v : value) : Prop :=
  match v with
  | VRef l => operationAt h l
  | _ => True
  end.

(** A group: an object without a [queryKey] of its own whose properties are
    members, no operation being listed under two names. *)
Definition groupAt (h : heap) (g : loc) (gp : gmap string value) : Prop :=
  h !! g = Some (Obj gp) ∧
  gp !! "queryKey" = None ∧
  map_Forall (λ _ v, member h v) gp ∧
  ∀ n1 n2 l, gp !! n1 = Some (VRef l) → gp !! n2 = Some (VRef l) → n1 = n2.

(** Within depth [d], [v] is the root of a tree of plain objects: every
    property of a node is a subtree, the subtrees of a node share no node,
    and the value under [queryKey] is inert.  [F] holds the locations of the
    nodes. *)
Fixpoint treeAt (d : nat) (h : heap) (v : value) (F : gset loc) : Prop :=
  match d with
  | O => inert h v ∧ F = ∅
  | S d' =>
      (inert h v ∧ F = ∅) ∨
      ∃ (l : loc) (p : gmap string value) (Fs : string → gset loc),
        v = VRef l ∧
        h !! l = Some (Obj p) ∧
        Fs "queryKey" = ∅ ∧
        (∀ name x, p !! name = Some x → treeAt d' h x (Fs name)) ∧
        (∀ n1 n2, n1 ≠ n2 → Fs n1 ## Fs n2) ∧
        (∀ name, l ∉ Fs name) ∧
        (∀ m, m ∈ F ↔ m = l ∨ ∃ name, is_Some (p !! name) ∧ m ∈ Fs name)
  end.

(** [l] is reached from [v] by following properties of plain objects. *)
Inductive reachable (h : heap) : value → loc → Prop :=
  | reach_here l : reachable h (VRef l) l
  | reach_prop l p name x l' :
      h !! l = Some (Obj p) → p !! name = Some x → reachable h x l' →
      reachable h (VRef l) l'.

(** What a run of [process] from [h] to [h'] has done on the objects in [F]:
    each is injected, every other cell is as before, and so are the objects
    with primitive fields. *)
Definition injectedIn (extra : loc) (ep : gmap string value) (h : heap)
    (F : gset loc) (h' : heap) : Prop :=
  (∀ m c, h !! m = Some c → m ∉ F → h' !! m = Some c) ∧
  (∀ l p, l ∈ F → h !! l = Some (Obj p) → opInjected extra ep h h' l p) ∧
  flatPreserved h h' ∧
  (length h ≤ length h')%nat.

(** The state of the loop over the properties of the node at [l] once those
    named in [done] have been processed. *)
Definition nodeInv (extra : loc) (ep : gmap string value) (h : heap) (l : loc)
    (p : gmap string value) (Fs : string → gset loc) (done : list string)
    (hi : heap) : Prop :=
  hi !! l = Some (Obj p) ∧
  (∀ m c, h !! m = Some c → m ≠ l → (∀ name, name ∈ done → m ∉ Fs name) →
          hi !! m = Some c) ∧
  (∀ name m pm, name ∈ done → m ∈ Fs name → h !! m = Some (Obj pm) →
                opInjected extra ep h hi m pm) ∧
  flatPreserved h hi ∧
  (length h ≤ length hi)%nat.

(** [o.name] as a field map. *)
Definition propFields (h : heap) (o : value) (name : string)
    : option (gmap string value) :=
  field h o name ≫= fieldsOf h.

Definition refOf (v : value) : option loc :=
  match v with
  | VRef l => Some l
  | _ => None
  end.

(** The group at [g] and the operations listed in it. *)
Definition groupNodes (g : loc) (gp : gmap string value) : gset loc :=
  {[ g ]} ∪ list_to_set (omap refOf (map_to_list gp).*2).

Definition crudGroup (n : loc) : gmap string value :=
  {[ "all" := VRef (n + 1)%nat; "list" := VRef (n + 3)%nat;
     "detail" := VRef (n + 4)%nat; "create" := VRef (n + 7)%nat;
     "update" := VRef (n + 8)%nat; "remove" := VRef (n + 9)%nat ]}.

(** [g = createQueryGroupCRUD(E); g = inyectKeysToQueries(g, extra)] for an
    [extra] object literal with fields [ep]. *)
Definition buildInjected (E : string) (ep : gmap string value) (fuel : nat)
    : M heap (value * loc) :=
  let* g := createQueryGroupCRUD E in
  let* extra := alloc (Obj ep) in
  let* g' := inyectKeysToQueries fuel g extra in
  ret (g', extra).

Definition authExtra : gmap string value := {[ "auth" := VBool true ]}.

(** The heap of the scenario just before the injection. *)
Definition accountsHeap : heap := crudCells "accounts" 0 ++ [Obj authExtra].

(** [{ accounts: createQueryGroupCRUD("accounts") }], next to an [extra]. *)
Definition nestedHeap : heap := accountsHeap ++ [Obj {[ "accounts" := VRef 10 ]}].

(** [invalidateQueriesForKeys([null, {entity: "a"}, undefined, {entity: "b"}])]:
    two calls, for [{entity: "a"}] then [{entity: "b"}]. *)
Definition twoKeysHeap : heap :=
  [ Obj {[ "entity" := VStr "a" ]}; Obj {[ "entity" := VStr "b" ]} ].

(** The two keys next to the options [{exact: true}]. *)
Definition exactOptionsHeap : heap :=
  twoKeysHeap ++ [ Obj {[ "exact" := VBool true ]} ].

(** Options that carry their own [queryKey]. *)
Definition optionsHeap : heap :=
  twoKeysHeap ++ [ Arr [VRef 1];
                   Obj {[ "queryKey" := VRef 2; "exact" := VBool true ]} ].

(** The result [{id: "x", name: "n"}] of a creation. *)
Definition newAccount : cell := Obj {[ "id" := VStr "x"; "name" := VStr "n" ]}.

(** [update.normalize({id: "a", name: "new"})] and [remove.normalize] against
    the list [[{id: "a", name: "old"}, {id: "b"}]]. *)
Definition listCacheItems : heap :=
  [ Obj {[ "id" := VStr "a"; "name" := VStr "new" ]};
    Obj {[ "id" := VStr "a"; "name" := VStr "old" ]};
    Obj {[ "id" := VStr "b" ]};
    Arr [VRef 12; VRef 13] ].

Definition listCacheHeap : heap := crudCells "accounts" 0 ++ listCacheItems.

Definition listCache : cache := setEntry (listFields "accounts") (VRef 14) emptyCache.

(** ** Statements of the further properties *)

(** The object at [l] holds itself under [name]; its other properties are
    inert. *)
Definition selfReferent (h : heap) (l : loc) (name : string) : Prop :=
  ∃ p, h !! l = Some (Obj p) ∧ p !! name = Some (VRef l) ∧
       ∀ k x, p !! k = Some x → k ≠ name → inert h x.

(** A structure without keys to inject, of depth at most [d]: a primitive, a
    function, or a plain object whose [queryKey], if it has one, is a
    primitive and whose properties are again such structures.  Functions
    (other than under [queryKey]) and objects reached twice are allowed;
    arrays are not. *)
Fixpoint keyless (d : nat) (h : heap) (v : value) : Prop :=
  match d with
  | O => match v with VRef _ => False | _ => True end
  | S d' =>
      match v with
      | VRef l =>
          ∃ p, h !! l = Some (Obj p) ∧
               (∀ x, p !! "queryKey" = Some x → prim x = true) ∧
               ∀ name x, p !! name = Some x → keyless d' h x
      | _ => True
      end
  end.

(** A cell that holds primitives only: the fields of an object, the elements
    of an array. *)
Definition primCell (c : cell) : Prop :=
  match c with
  | Obj p => primFields p
  | Arr elems => Forall (λ x, prim x = true) elems
  end.

(** The node sets in [Fs] are pairwise disjoint. *)
Fixpoint apart (Fs : list (gset loc)) : Prop :=
  match Fs with
  | [] => True
  | F :: Fs' => Forall (λ G, F ## G) Fs' ∧ apart Fs'
  end.

(** [a = createQueryGroupCRUD(E1); b = createQueryGroupCRUD(E2);
    a = inyectKeysToQueries(a, extra)] for an [extra] literal with fields
    [ep]: two groups from the factory, the first one injected. *)
Definition buildTwoGroups (E1 E2 : string) (ep : gmap string value) (fuel : nat)
    : M heap (value * value) :=
  let* a := createQueryGroupCRUD E1 in
  let* b := createQueryGroupCRUD E2 in
  let* extra := alloc (Obj ep) in
  let* a' := inyectKeysToQueries fuel a extra in
  ret (a', b).

(** A primitive, or an array of primitives: the shape of the fields of an
    [extra] such as [{ features: ['beta-ui'], auth: true }]. *)
Definition shallow (h : heap) (x : value) : Prop :=
  prim x = true ∨
  ∃ a elems, x = VRef a ∧ h !! a = Some (Arr elems) ∧
             Forall (λ y, prim y = true) elems.

(** [y] is what [process] makes of the shallow value [x]: [x] itself when it
    is a primitive, an array allocated after [n] with the elements of [x]
    when it is an array. *)
Definition copied (h h' : heap) (n : nat) (x y : value) : Prop :=
  (prim x = true ∧ y = x) ∨
  ∃ a elems a', x = VRef a ∧ h !! a = Some (Arr elems) ∧
                y = VRef a' ∧ (n ≤ a')%nat ∧ h' !! a' = Some (Arr elems).

(** The fields of the key a call of the engine was given. *)
Definition eventKey (h : heap) (e : event) : option slot :=
  match e with
  | InvalidateQueries filters | CancelQueries filters =>
      filters !! "queryKey" ≫= hashKey h
  end.

(** [{ tenantId: "42" }], a second [extra]. *)
Definition tenantExtra : gmap string value := {[ "tenantId" := VStr "42" ]}.

(** The accounts group with [{auth: true}] and [{tenantId: "42"}]. *)
Definition chainHeap : heap := accountsHeap ++ [Obj tenantExtra].

(** [{ key: {entity: "accounts"}, onDone: (id) => ..., queryKey: "accounts",
       nested: { onDone: (id) => ... } }]: callbacks and a cache key, but no
    key under [queryKey]. *)
Definition callbacksHeap : heap :=
  [ Obj {[ "entity" := VStr "accounts" ]};
    Obj {[ "onDone" := VFun (KeyFn "accounts" "detail") ]};
    Obj {[ "key" := VRef 0; "onDone" := VFun (KeyFn "accounts" "detail");
           "queryKey" := VStr "accounts"; "nested" := VRef 1 ]} ].

(** The operation [{ queryKey: {entity: "accounts"}, type: "query" }] next to
    the extra [{ queryKey: ["v2"], auth: true }]. *)
Definition extraKeyHeap : heap :=
  [ Obj {[ "entity" := VStr "accounts" ]};
    Obj {[ "queryKey" := VRef 0; "type" := VStr "query" ]};
    Arr [VStr "v2"];
    Obj {[ "queryKey" := VRef 2; "auth" := VBool true ]} ].

(** An object that holds itself under [self], next to an [extra]. *)
Definition cyclicHeap : heap :=
  [ Obj {[ "self" := VRef 0; "name" := VStr "loop" ]}; Obj authExtra ].

(** An operation whose key is the array [['accounts', 'list']]. *)
Definition arrayKeyHeap : heap :=
  [ Arr [VStr "accounts"; VStr "list"];
    Obj {[ "queryKey" := VRef 0; "type" := VStr "query" ]};
    Obj authExtra ].

(** The array [[accountsQueryGroup]]. *)
Definition groupsArrayHeap : heap := accountsHeap ++ [Arr [VRef 10]].

(** [{ features: ['beta-ui'], auth: true }] and an operation with a static
    key. *)
Definition featuresExtra : gmap string value :=
  {[ "features" := VRef 0; "auth" := VBool true ]}.

Definition featuresHeap : heap :=
  [ Arr [VStr "beta-ui"];
    Obj featuresExtra;
    Obj {[ "entity" := VStr "analytics"; "method" := VStr "list" ]};
    Obj {[ "queryKey" := VRef 2; "type" := VStr "query" ]} ].

(** The result [{id: "x", name: "n"}] against the cached list [[{id: "b"}]]. *)
Definition otherCacheItems : heap :=
  [ newAccount; Obj {[ "id" := VStr "b" ]}; Arr [VRef 12] ].

Definition otherCacheHeap : heap := crudCells "accounts" 0 ++ otherCacheItems.

Definition otherCache : cache := setEntry (listFields "accounts") (VRef 13) emptyCache.

(** [{ page: 1, search: '', status: undefined, archived: null }] *)
Definition paramsFields : gmap string value :=
  {[ "page" := VNum 1; "search" := VStr ""; "status" := VUndefined;
     "archived" := VNull ]}.

(** [{ accounts: a, transactions: b }] for two keys [a] and [b]. *)
Definition entityMapFields : gmap string value :=
  {[ "accounts" := VRef 0; "transactions" := VRef 1 ]}.

Definition entityMapHeap : heap := twoKeysHeap ++ [Obj entityMapFields].

(** * Properties *)

(** ** Monad lemmas *)

Lemma bind_Some {S A B} (m : M S A) (k : A → M S B) (s : S) (a : A) (s' : S) :
  m s = Some (a, s') → bind m k s = k a s'.
Proof. unfold bind. by intros ->. Qed.

(** ** Heap lemmas *)

Lemma lookup_app_plus {A} (h cs : list A) (k : nat) :
  (h ++ cs) !! (length h + k)%nat = cs !! k.
Proof. rewrite lookup_app_r by lia. f_equal. lia. Qed.

Lemma lookup_app_length {A} (h cs : list A) :
  (h ++ cs) !! length h = cs !! 0%nat.
Proof. rewrite lookup_app_r by lia. by rewrite Nat.sub_diag. Qed.

(** ** The cells built by [createQueryGroupCRUD] *)

Lemma createQueryGroupCRUD_cells E h :
  createQueryGroupCRUD E h
  = Some (VRef (length h + 10)%nat, h ++ crudCells E (length h)).
Proof.
  unfold createQueryGroupCRUD, crudCells. cbn [bind ret new alloc].
  rewrite !length_app. cbn [length].
  rewrite <- !app_assoc. cbn [app].
  rewrite <- !Nat.add_assoc. cbn [Nat.add].
  reflexivity.
Qed.

(** ** Reading keys out of a group *)

Ltac gmap_lookup :=
  repeat first
    [ rewrite lookup_insert_eq
    | rewrite lookup_insert_ne by (intro; discriminate)
    | rewrite lookup_singleton_eq
    | rewrite lookup_singleton_ne by (intro; discriminate)
    | rewrite lookup_empty ].

Ltac heap_lookup :=
  repeat first
    [ rewrite <- app_assoc
    | rewrite length_app
    | rewrite <- Nat.add_assoc
    | rewrite lookup_app_plus
    | rewrite lookup_app_length
    | progress cbn [lookup list_lookup crudCells app length Nat.add] ].

Ltac run :=
  repeat first
    [ progress heap_lookup
    | progress gmap_lookup
    | progress cbn [bind ret fail new alloc liftH fst snd mbind option_bind
                    default field fieldsOf staticKey dynamicKey callForKey
                    queryKeyOf invalidatesOf
                    staticInvalidates dynamicInvalidates callForKeys
                    call resolveKey getProp mapM mret option_ret from_option id] ].

(** ** The keys of a CRUD group *)

(** C1. For every entity name [E], the group built by [createQueryGroupCRUD]
    has [all.queryKey = {entity: E}], [list.queryKey = {entity: E, method:
    "list"}] and [create.queryKey = {entity: E, method: "create"}]; and for
    every identifier [i], [detail.queryKey(i)], [update.queryKey(i)] and
    [remove.queryKey(i)] are [{entity: E, method: m, id: i}] with [m] the
    name of the operation. *)
Theorem crud_queryKeys (E : string) (h0 : heap) :
  ∃ g h, createQueryGroupCRUD E h0 = Some (g, h) ∧
    staticKey h g "all" = Some {[ "entity" := VStr E ]} ∧
    staticKey h g "list" = Some {[ "entity" := VStr E; "method" := VStr "list" ]} ∧
    staticKey h g "create"
      = Some {[ "entity" := VStr E; "method" := VStr "create" ]} ∧
    ∀ (i : value) (c : cache) (n : nat),
      dynamicKey (S n) (h, c) g "detail" i
        = Some {[ "entity" := VStr E; "method" := VStr "detail"; "id" := i ]} ∧
      dynamicKey (S n) (h, c) g "update" i
        = Some {[ "entity" := VStr E; "method" := VStr "update"; "id" := i ]} ∧
      dynamicKey (S n) (h, c) g "remove" i
        = Some {[ "entity" := VStr E; "method" := VStr "remove"; "id" := i ]}.
Proof.
  rewrite createQueryGroupCRUD_cells. eexists _, _. split; [reflexivity|].
  repeat split; run; reflexivity.
Qed.

(** C2. For every entity name [E] and identifier [i], [update.invalidates(i)]
    and [remove.invalidates(i)] each return the two-element sequence
    [[{entity: E, id: i}, {entity: E, method: "list"}]], in that order, and
    [create.invalidates] is the static key [{entity: E, method: "list"}]. *)
Theorem crud_invalidates (E : string) (h0 : heap) :
  ∃ g h, createQueryGroupCRUD E h0 = Some (g, h) ∧
    staticInvalidates h g "create"
      = Some {[ "entity" := VStr E; "method" := VStr "list" ]} ∧
    ∀ (i : value) (c : cache) (n : nat),
      dynamicInvalidates (S n) (h, c) g "update" i
        = Some [ {[ "entity" := VStr E; "id" := i ]};
                 {[ "entity" := VStr E; "method" := VStr "list" ]} ] ∧
      dynamicInvalidates (S n) (h, c) g "remove" i
        = Some [ {[ "entity" := VStr E; "id" := i ]};
                 {[ "entity" := VStr E; "method" := VStr "list" ]} ].
Proof.
  rewrite createQueryGroupCRUD_cells. eexists _, _. split; [reflexivity|].
  repeat split; run; reflexivity.
Qed.

(** ** Batch invalidation and cancellation *)

Lemma spreadOptions_app opts h op cs :
  spreadOptions opts h = Some (op, h) →
  spreadOptions opts (h ++ cs) = Some (op, h ++ cs).
Proof.
  destruct opts as [o|]; cbn [spreadOptions].
  - unfold spread. destruct (h !! o) as [c|] eqn:Ho; [|done].
    rewrite (lookup_app_l_Some _ _ _ _ Ho).
    destruct c; intros [= <-]; done.
  - unfold ret. intros [= <-]. done.
Qed.

Lemma forEach_invalidate opts op ks : ∀ h log,
  spreadOptions opts h = Some (op, h) →
  forEach (λ key,
    let* q := liftL (new (Arr [key])) in
    let* opts := liftL (spreadOptions opts) in
    emit (InvalidateQueries (opts ∪ {[ "queryKey" := q ]}))) ks (h, log)
  = Some (tt, (h ++ map (λ k, Arr [k]) ks,
               log ++ invalidateEvents op (length h) ks)).
Proof.
  induction ks as [|k ks IH]; intros h log Hop.
  - cbn. by rewrite !app_nil_r.
  - cbn [forEach map].
    rewrite (bind_Some _ _ _ tt
      (h ++ [Arr [k]],
       log ++ [InvalidateQueries (op ∪ {[ "queryKey" := VRef (length h) ]})])).
    + rewrite IH by (by apply spreadOptions_app).
      rewrite <- !app_assoc. do 4 f_equal.
      unfold invalidateEvents. cbn [imap app].
      rewrite Nat.add_0_r. f_equal. apply imap_ext. intros j x _. cbn.
      rewrite length_app. cbn. do 4 f_equal. lia.
    + unfold bind, liftL, new, alloc, bind, ret, emit. cbn [fst snd].
      by rewrite (spreadOptions_app _ _ _ [Arr [k]] Hop).
Qed.

Lemma forEach_cancel ks : ∀ h log,
  forEach (λ key,
    let* q := liftL (new (Arr [key])) in
    emit (CancelQueries {[ "queryKey" := q ]})) ks (h, log)
  = Some (tt, (h ++ map (λ k, Arr [k]) ks, log ++ cancelEvents (length h) ks)).
Proof.
  induction ks as [|k ks IH]; intros h log.
  - cbn. by rewrite !app_nil_r.
  - cbn [forEach map].
    rewrite (bind_Some _ _ _ tt
      (h ++ [Arr [k]], log ++ [CancelQueries {[ "queryKey" := VRef (length h) ]}]))
      by done.
    rewrite IH. rewrite <- !app_assoc. do 4 f_equal.
    unfold cancelEvents. cbn [imap app].
    rewrite Nat.add_0_r. f_equal. apply imap_ext. intros j x _. cbn.
    rewrite length_app. cbn. do 3 f_equal. lia.
Qed.

(** C7. [invalidateQueriesForKeys] calls the engine's invalidate once per
    truthy entry of [keys], in input order; falsy entries are skipped and
    nothing is raised.  The filter object of each call holds every own field
    [op] of the options object passed (none when no options are passed), and
    under [queryKey] the array allocated for the call, whose single element is
    the same-numbered truthy entry.  [cancelQueriesForKeys] iterates in the
    same way and calls the engine's cancel with [{ queryKey: [key] }] and
    nothing else, so the two runs allocate the same arrays. *)
Theorem batch_calls_per_truthy_key (keys : list value) (invalidateOptions : option loc)
    (op : gmap string value) (h : heap) (log : list event) :
  optionsAt h invalidateOptions op →
  let ks := List.filter truthy keys in
  let h' := h ++ map (λ k, Arr [k]) ks in
  invalidateQueriesForKeys keys invalidateOptions (h, log)
    = Some (tt, (h', log ++ imap (λ j _, InvalidateQueries
                                    (op ∪ {[ "queryKey" := VRef (length h + j) ]})) ks)) ∧
  cancelQueriesForKeys keys (h, log)
    = Some (tt, (h', log ++ imap (λ j _, CancelQueries
                                    {[ "queryKey" := VRef (length h + j) ]}) ks)) ∧
  ∀ j k, ks !! j = Some k →
         truthy k = true ∧ h' !! (length h + j)%nat = Some (Arr [k]).
Proof.
  intros Hop ks h'.
  assert (spreadOptions invalidateOptions h = Some (op, h)) as Hspread.
  { destruct invalidateOptions as [o|]; cbn [optionsAt spreadOptions] in *.
    - unfold spread. by rewrite Hop.
    - by rewrite Hop. }
  split; [by apply forEach_invalidate|]. split; [apply forEach_cancel|].
  intros j k Hj. split.
  - apply (list_elem_of_lookup_2 ks j k) in Hj.
    apply list_elem_of_In, List.filter_In in Hj. tauto.
  - unfold h'. rewrite lookup_app_plus, list_lookup_fmap. by rewrite Hj.
Qed.

(** C10. When the options object passed to [invalidateQueriesForKeys] owns a
    [queryKey] field, every filter object handed to the engine carries that
    field instead of the iterated key: the filter is the options object
    itself, once per truthy entry. *)
Theorem invalidate_options_queryKey_overrides (keys : list value) (o : loc)
    (op : gmap string value) (q : value) (h : heap) (log : list event) :
  spreadOptions (Some o) h = Some (op, h) →
  op !! "queryKey" = Some q →
  ∃ h', invalidateQueriesForKeys keys (Some o) (h, log)
        = Some (tt, (h', log ++ map (λ _, InvalidateQueries op)
                                    (List.filter truthy keys))) ∧
        Forall (λ e, ∃ f, e = InvalidateQueries f ∧ f !! "queryKey" = Some q)
               (map (λ _, InvalidateQueries op) (List.filter truthy keys)).
Proof.
  intros Hop Hq. eexists. split.
  - unfold invalidateQueriesForKeys. rewrite (forEach_invalidate _ op) by done.
    do 4 f_equal. unfold invalidateEvents.
    generalize (length h). induction (List.filter truthy keys) as [|k ks IH];
      intros n; [done|].
    cbn [imap map]. f_equal.
    + f_equal. apply map_eq. intros name. rewrite lookup_union.
      destruct (decide (name = "queryKey")) as [->|Hne].
      * rewrite Hq. by rewrite lookup_singleton_eq.
      * rewrite lookup_singleton_ne by done. by destruct (op !! name).
    + rewrite <- (IH (S n)). apply imap_ext. intros j x _. cbn.
      do 4 f_equal. lia.
  - apply Forall_forall. intros e [k [-> _]]%list_elem_of_fmap. eauto.
Qed.

(** ** Cells that survive *)

Lemma preserved_refl h : preserved h h.
Proof. by intros l c. Qed.

Lemma preserved_trans h1 h2 h3 :
  preserved h1 h2 → preserved h2 h3 → preserved h1 h3.
Proof. intros H12 H23 l c Hl. by apply H23, H12. Qed.

Lemma preserved_app h cs : preserved h (h ++ cs).
Proof. intros l c Hl. by apply lookup_app_l_Some. Qed.

Lemma preserved_app_r h h' cs : preserved h h' → preserved h (h' ++ cs).
Proof. intros H. eapply preserved_trans; [done|apply preserved_app]. Qed.

Create HintDb heap.
#[local] Hint Resolve preserved_refl preserved_app preserved_app_r : heap.

(** ** The updaters of the [normalize] callbacks *)

Lemma getProp_idOf h v x : idOf h v = Some x → getProp "id" v h = Some (x, h).
Proof.
  unfold idOf, getProp.
  destruct v as [| | | | |l|]; try (by intros [= <-]); try done.
  destruct (h !! l) as [[]|]; by intros [= <-].
Qed.

Lemma idOf_preserved h h' v x : preserved h h' → idOf h v = Some x → idOf h' v = Some x.
Proof.
  unfold idOf, getProp. intros Hp.
  destruct v as [| | | | |l|]; cbn; try done.
  destruct (h !! l) as [c|] eqn:Hl; [|done].
  rewrite (Hp _ _ Hl). by destruct c.
Qed.

Lemma replaced_preserved h h' i data items :
  preserved h h' →
  Forall (λ item, is_Some (idOf h item)) items →
  replaced h' i data items = replaced h i data items.
Proof.
  intros Hp Hit. unfold replaced. apply map_ext_Forall.
  eapply Forall_impl; [done|]. intros item [x Hx]. cbn.
  by rewrite Hx, (idOf_preserved _ _ _ _ Hp Hx).
Qed.

Lemma removed_preserved h h' i items :
  preserved h h' →
  Forall (λ item, is_Some (idOf h item)) items →
  removed h' i items = removed h i items.
Proof.
  intros Hp. unfold removed. induction 1 as [|item items [x Hx] _ IH]; [done|].
  cbn [List.filter]. by rewrite IH, Hx, (idOf_preserved _ _ _ _ Hp Hx).
Qed.

Lemma ids_preserved h h' items :
  preserved h h' →
  Forall (λ item, is_Some (idOf h item)) items →
  Forall (λ item, is_Some (idOf h' item)) items.
Proof.
  intros Hp Hit. eapply Forall_impl; [done|]. intros item [x Hx]. exists x.
  by eapply idOf_preserved.
Qed.

Lemma arrayMap_replaceById h data i items :
  idOf h data = Some i →
  Forall (λ item, is_Some (idOf h item)) items →
  arrayMap (replaceById data) items h = Some (replaced h i data items, h).
Proof.
  intros Hd. induction 1 as [|item items [x Hx] _ IH]; [done|].
  cbn [arrayMap replaced map]. unfold replaceById.
  rewrite (bind_Some _ _ _ (if strictEq x i then data else item) h).
  - rewrite (bind_Some _ _ _ _ _ IH). by rewrite Hx.
  - rewrite (bind_Some _ _ _ _ _ (getProp_idOf _ _ _ Hx)).
    by rewrite (bind_Some _ _ _ _ _ (getProp_idOf _ _ _ Hd)).
Qed.

Lemma arrayFilter_otherId h data i items :
  idOf h data = Some i →
  Forall (λ item, is_Some (idOf h item)) items →
  arrayFilter (otherId data) items h = Some (removed h i items, h).
Proof.
  intros Hd. induction 1 as [|item items [x Hx] _ IH]; [done|].
  cbn [arrayFilter removed List.filter].
  rewrite (bind_Some _ _ _ (negb (strictEq x i)) h).
  - rewrite (bind_Some _ _ _ _ _ IH). rewrite Hx. cbn [default from_option id].
    unfold ret. by destruct (strictEq x i).
  - unfold otherId.
    rewrite (bind_Some _ _ _ _ _ (getProp_idOf _ _ _ Hx)).
    by rewrite (bind_Some _ _ _ _ _ (getProp_idOf _ _ _ Hd)).
Qed.

Lemma appendUpdater_absent data old h :
  truthy old = false →
  appendUpdater data old h = Some (VRef (length h), h ++ [Arr [data]]).
Proof. unfold appendUpdater. by intros ->. Qed.

Lemma appendUpdater_list data a items h :
  h !! a = Some (Arr items) →
  appendUpdater data (VRef a) h = Some (VRef (length h), h ++ [Arr (items ++ [data])]).
Proof.
  intros Ha. unfold appendUpdater. cbn [truthy negb].
  rewrite (bind_Some _ _ _ items h); [done|]. unfold elemsOf. by rewrite Ha.
Qed.

Lemma replaceUpdater_absent data old h :
  truthy old = false → replaceUpdater data old h = Some (old, h).
Proof. unfold replaceUpdater. by intros ->. Qed.

Lemma replaceUpdater_list data i a items h :
  h !! a = Some (Arr items) →
  idOf h data = Some i →
  Forall (λ item, is_Some (idOf h item)) items →
  replaceUpdater data (VRef a) h
  = Some (VRef (length h), h ++ [Arr (replaced h i data items)]).
Proof.
  intros Ha Hd Hit. unfold replaceUpdater. cbn [truthy negb].
  rewrite (bind_Some _ _ _ items h) by (unfold elemsOf; by rewrite Ha).
  by rewrite (bind_Some _ _ _ _ _ (arrayMap_replaceById _ _ _ _ Hd Hit)).
Qed.

Lemma filterUpdater_absent data old h :
  truthy old = false → filterUpdater data old h = Some (old, h).
Proof. unfold filterUpdater. by intros ->. Qed.

Lemma filterUpdater_list data i a items h :
  h !! a = Some (Arr items) →
  idOf h data = Some i →
  Forall (λ item, is_Some (idOf h item)) items →
  filterUpdater data (VRef a) h
  = Some (VRef (length h), h ++ [Arr (removed h i items)]).
Proof.
  intros Ha Hd Hit. unfold filterUpdater. cbn [truthy negb].
  rewrite (bind_Some _ _ _ items h) by (unfold elemsOf; by rewrite Ha).
  by rewrite (bind_Some _ _ _ _ _ (arrayFilter_otherId _ _ _ _ Hd Hit)).
Qed.

(** ** The two cache writes of a [normalize] callback *)

Lemma getProp_Obj name l props h :
  h !! l = Some (Obj props) →
  getProp name (VRef l) h = Some (default VUndefined (props !! name), h).
Proof. unfold getProp. by intros ->. Qed.

Lemma hashKey_new h k fields :
  h !! k = Some (Obj fields) →
  hashKey (h ++ [Arr [VRef k]]) (VRef (length h)) = Some fields.
Proof.
  intros Hk. unfold hashKey. rewrite lookup_app_length. cbn.
  by rewrite (lookup_app_l_Some _ _ _ _ Hk).
Qed.

Section normalize.
Context (fuel : nat) (list detail : loc).

(** The write to the list entry, for a static [list.queryKey]. *)
Lemma write_list_entry (updater : value → M heap value) (K : M store value)
    (h : heap) (c : cache) lp lk (ls : slot) v h' :
  h !! list = Some (Obj lp) →
  lp !! "queryKey" = Some (VRef lk) →
  h !! lk = Some (Obj ls) →
  updater (c ls) (h ++ [Arr [VRef lk]]) = Some (v, h') →
  (let* lk := liftH (getProp "queryKey" (VRef list)) in
   let* k := resolveKey (call fuel) lk [] in
   let* q := liftH (new (Arr [k])) in
   let* _ := setQueryData q updater in
   K) (h, c)
  = K (h', setEntry ls v c).
Proof.
  intros Hl Hq Hk Hu.
  rewrite (bind_Some _ _ _ (VRef lk) (h, c)).
  2:{ unfold liftH. cbn [fst snd]. rewrite (getProp_Obj _ _ _ _ Hl).
      by rewrite Hq. }
  cbn [resolveKey].
  rewrite (bind_Some _ _ _ (VRef lk) (h, c)) by done.
  rewrite (bind_Some _ _ _ (VRef (length h)) (h ++ [Arr [VRef lk]], c)) by done.
  rewrite (bind_Some _ _ _ tt (h', setEntry ls v c)); [done|].
  unfold setQueryData. cbn [fst snd].
  rewrite (hashKey_new _ _ _ Hk). by rewrite Hu.
Qed.

(** The write to the detail entry, for a function [detail.queryKey]. *)
Lemma write_detail_entry (w data i : value) (h : heap) (c : cache)
    dp f k h1 (ds : slot) :
  h !! detail = Some (Obj dp) →
  dp !! "queryKey" = Some (VFun f) →
  idOf h data = Some i →
  call fuel f [i] (h, c) = Some (VRef k, (h1, c)) →
  h1 !! k = Some (Obj ds) →
  (let* dk := liftH (getProp "queryKey" (VRef detail)) in
   let* id := liftH (getProp "id" data) in
   let* k' := resolveKey (call fuel) dk [id] in
   let* q' := liftH (new (Arr [k'])) in
   let* _ := setQueryData q' (λ _, ret w) in
   ret VUndefined) (h, c)
  = Some (VUndefined, (h1 ++ [Arr [VRef k]], setEntry ds w c)).
Proof.
  intros Hd Hq Hi Hcall Hk.
  rewrite (bind_Some _ _ _ (VFun f) (h, c)).
  2:{ unfold liftH. cbn [fst snd]. rewrite (getProp_Obj _ _ _ _ Hd).
      by rewrite Hq. }
  rewrite (bind_Some _ _ _ i (h, c)).
  2:{ unfold liftH. cbn [fst snd]. by rewrite (getProp_idOf _ _ _ Hi). }
  cbn [resolveKey].
  rewrite (bind_Some _ _ _ _ _ Hcall).
  rewrite (bind_Some _ _ _ (VRef (length h1)) (h1 ++ [Arr [VRef k]], c)) by done.
  rewrite (bind_Some _ _ _ tt (h1 ++ [Arr [VRef k]], setEntry ds w c)); [done|].
  unfold setQueryData. cbn [fst snd].
  by rewrite (hashKey_new _ _ _ Hk).
Qed.
End normalize.

Section normalize_callbacks.
Context (fuel : nat) (h : heap) (g : value) (ls : slot) (ds : value → slot).
Context (Hnz : normalizable fuel h g ls ds).
Context (c : cache) (data i : value) (Hid : idOf h data = Some i).

(** Both writes in sequence: the list entry through [updater], then the
    detail entry set to [w]. *)
Lemma two_writes (lst det : loc) lp lk dp f
    (updater : value → M heap value) (w v : value) (h1 : heap) :
  h !! lst = Some (Obj lp) →
  lp !! "queryKey" = Some (VRef lk) →
  h !! lk = Some (Obj ls) →
  h !! det = Some (Obj dp) →
  dp !! "queryKey" = Some (VFun f) →
  (∀ i hc c, preserved h hc →
    ∃ k junk, call fuel f [i] (hc, c) = Some (VRef k, (hc ++ junk, c)) ∧
              (hc ++ junk) !! k = Some (Obj (ds i))) →
  updater (c ls) (h ++ [Arr [VRef lk]]) = Some (v, h1) →
  preserved h h1 →
  ∃ h', (let* lk := liftH (getProp "queryKey" (VRef lst)) in
         let* k := resolveKey (call fuel) lk [] in
         let* q := liftH (new (Arr [k])) in
         let* _ := setQueryData q updater in
         let* dk := liftH (getProp "queryKey" (VRef det)) in
         let* id := liftH (getProp "id" data) in
         let* k' := resolveKey (call fuel) dk [id] in
         let* q' := liftH (new (Arr [k'])) in
         let* _ := setQueryData q' (λ _, ret w) in
         ret VUndefined) (h, c)
        = Some (VUndefined, (h', setEntry (ds i) w (setEntry ls v c))) ∧
        preserved h1 h'.
Proof.
  intros Hl Hlq Hlk Hd Hdq Hf Hu Hp.
  rewrite (write_list_entry fuel lst updater _ h c lp lk ls v h1) by done.
  destruct (Hf i h1 (setEntry ls v c) Hp) as (k & junk & Hcall & Hk).
  rewrite (write_detail_entry fuel det w data i h1 _ dp f k (h1 ++ junk) (ds i));
    eauto using idOf_preserved.
  eexists. split; [done|]. rewrite <- app_assoc. apply preserved_app.
Qed.

Lemma create_normalize_absent :
  truthy (c ls) = false →
  ∃ h' a, callNormalize (S fuel) (h, c) g "create" data
          = Some (h', setEntry (ds i) data (setEntry ls (VRef a) c)) ∧
          h' !! a = Some (Arr [data]) ∧ preserved h h'.
Proof.
  intros Hold.
  destruct Hnz as (lst & det & lp & lk & dp & f & Hdn & Hcn & Hun & Hrn
                   & Hl & Hlq & Hlk & Hd & Hdq & Hf).
  unfold callNormalize. cbn [fst snd].
  rewrite Hcn. cbn [mbind option_bind call default from_option lookup list_lookup id].
  edestruct (two_writes lst det lp lk dp f (appendUpdater data) data)
    as (h' & -> & Hp); try done.
  { by apply appendUpdater_absent. }
  { rewrite <- app_assoc. apply preserved_app. }
  eexists _, _. split; [done|]. split.
  - apply Hp. rewrite length_app, <- app_assoc. cbn [length app].
    by rewrite lookup_app_plus.
  - eapply preserved_trans; [|done]. rewrite <- app_assoc. apply preserved_app.
Qed.

Lemma create_normalize_list (a0 : loc) (items : list value) :
  c ls = VRef a0 →
  h !! a0 = Some (Arr items) →
  ∃ h' a, callNormalize (S fuel) (h, c) g "create" data
          = Some (h', setEntry (ds i) data (setEntry ls (VRef a) c)) ∧
          h' !! a = Some (Arr (items ++ [data])) ∧ preserved h h'.
Proof.
  intros Hold Ha0.
  destruct Hnz as (lst & det & lp & lk & dp & f & Hdn & Hcn & Hun & Hrn
                   & Hl & Hlq & Hlk & Hd & Hdq & Hf).
  unfold callNormalize. cbn [fst snd].
  rewrite Hcn. cbn [mbind option_bind call default from_option lookup list_lookup id].
  edestruct (two_writes lst det lp lk dp f (appendUpdater data) data)
    as (h' & -> & Hp); try done.
  { rewrite Hold. apply appendUpdater_list. by apply lookup_app_l_Some. }
  { rewrite <- app_assoc. apply preserved_app. }
  eexists _, _. split; [done|]. split.
  - apply Hp. rewrite length_app, <- app_assoc. cbn [length app].
    by rewrite lookup_app_plus.
  - eapply preserved_trans; [|done]. rewrite <- app_assoc. apply preserved_app.
Qed.

Context (a0 : loc) (items : list value).
Context (Hitems : Forall (λ item, is_Some (idOf h item)) items).

Ltac open_normalize Hn :=
  unfold callNormalize; cbn [fst snd]; rewrite Hn;
  cbn [mbind option_bind call default from_option lookup list_lookup id].

Lemma update_normalize_absent :
  truthy (c ls) = false →
  ∃ h', callNormalize (S fuel) (h, c) g "update" data
        = Some (h', setEntry (ds i) data (setEntry ls (c ls) c)) ∧
        preserved h h'.
Proof.
  intros Hold.
  destruct Hnz as (lst & det & lp & lk & dp & f & Hdn & Hcn & Hun & Hrn
                   & Hl & Hlq & Hlk & Hd & Hdq & Hf).
  open_normalize Hun.
  edestruct (two_writes lst det lp lk dp f (replaceUpdater data) data)
    as (h' & -> & Hp); try done.
  { by apply replaceUpdater_absent. }
  { apply preserved_app. }
  eexists. split; [done|]. eapply preserved_trans; [apply preserved_app|done].
Qed.

Lemma update_normalize_list :
  c ls = VRef a0 →
  h !! a0 = Some (Arr items) →
  ∃ h' a, callNormalize (S fuel) (h, c) g "update" data
          = Some (h', setEntry (ds i) data (setEntry ls (VRef a) c)) ∧
          h' !! a = Some (Arr (replaced h i data items)) ∧ preserved h h'.
Proof.
  intros Hold Ha0.
  destruct Hnz as (lst & det & lp & lk & dp & f & Hdn & Hcn & Hun & Hrn
                   & Hl & Hlq & Hlk & Hd & Hdq & Hf).
  open_normalize Hun.
  edestruct (two_writes lst det lp lk dp f (replaceUpdater data) data)
    as (h' & -> & Hp); try done.
  { rewrite Hold. apply (replaceUpdater_list _ i).
    - by apply lookup_app_l_Some.
    - eapply idOf_preserved; [apply preserved_app|done].
    - eapply ids_preserved; [apply preserved_app|done]. }
  { rewrite <- app_assoc. apply preserved_app. }
  eexists _, _. split; [done|]. split.
  - apply Hp. rewrite length_app, <- app_assoc. cbn [length app].
    rewrite lookup_app_plus. cbn. do 2 f_equal.
    apply replaced_preserved; [apply preserved_app|done].
  - eapply preserved_trans; [|done]. rewrite <- app_assoc. apply preserved_app.
Qed.

Lemma remove_normalize_absent :
  truthy (c ls) = false →
  ∃ h', callNormalize (S fuel) (h, c) g "remove" data
        = Some (h', setEntry (ds i) VUndefined (setEntry ls (c ls) c)) ∧
        preserved h h'.
Proof.
  intros Hold.
  destruct Hnz as (lst & det & lp & lk & dp & f & Hdn & Hcn & Hun & Hrn
                   & Hl & Hlq & Hlk & Hd & Hdq & Hf).
  open_normalize Hrn.
  edestruct (two_writes lst det lp lk dp f (filterUpdater data) VUndefined)
    as (h' & -> & Hp); try done.
  { by apply filterUpdater_absent. }
  { apply preserved_app. }
  eexists. split; [done|]. eapply preserved_trans; [apply preserved_app|done].
Qed.

Lemma remove_normalize_list :
  c ls = VRef a0 →
  h !! a0 = Some (Arr items) →
  ∃ h' a, callNormalize (S fuel) (h, c) g "remove" data
          = Some (h', setEntry (ds i) VUndefined (setEntry ls (VRef a) c)) ∧
          h' !! a = Some (Arr (removed h i items)) ∧ preserved h h'.
Proof.
  intros Hold Ha0.
  destruct Hnz as (lst & det & lp & lk & dp & f & Hdn & Hcn & Hun & Hrn
                   & Hl & Hlq & Hlk & Hd & Hdq & Hf).
  open_normalize Hrn.
  edestruct (two_writes lst det lp lk dp f (filterUpdater data) VUndefined)
    as (h' & -> & Hp); try done.
  { rewrite Hold. apply (filterUpdater_list _ i).
    - by apply lookup_app_l_Some.
    - eapply idOf_preserved; [apply preserved_app|done].
    - eapply ids_preserved; [apply preserved_app|done]. }
  { rewrite <- app_assoc. apply preserved_app. }
  eexists _, _. split; [done|]. split.
  - apply Hp. rewrite length_app, <- app_assoc. cbn [length app].
    rewrite lookup_app_plus. cbn. do 2 f_equal.
    apply removed_preserved; [apply preserved_app|done].
  - eapply preserved_trans; [|done]. rewrite <- app_assoc. apply preserved_app.
Qed.

Lemma detail_normalize_absent :
  truthy (c ls) = false →
  ∃ h', callNormalize (S fuel) (h, c) g "detail" data
        = Some (h', setEntry ls (c ls) c) ∧ preserved h h'.
Proof.
  intros Hold.
  destruct Hnz as (lst & det & lp & lk & dp & f & Hdn & Hcn & Hun & Hrn
                   & Hl & Hlq & Hlk & Hd & Hdq & Hf).
  open_normalize Hdn.
  rewrite (write_list_entry fuel lst _ _ h c lp lk ls (c ls) (h ++ [Arr [VRef lk]]));
    try done.
  - eexists. split; [done|]. apply preserved_app.
  - by apply replaceUpdater_absent.
Qed.

Lemma detail_normalize_list :
  c ls = VRef a0 →
  h !! a0 = Some (Arr items) →
  ∃ h' a, callNormalize (S fuel) (h, c) g "detail" data
          = Some (h', setEntry ls (VRef a) c) ∧
          h' !! a = Some (Arr (replaced h i data items)) ∧ preserved h h'.
Proof.
  intros Hold Ha0.
  destruct Hnz as (lst & det & lp & lk & dp & f & Hdn & Hcn & Hun & Hrn
                   & Hl & Hlq & Hlk & Hd & Hdq & Hf).
  open_normalize Hdn.
  erewrite (write_list_entry fuel lst _ _ h c lp lk ls); try done.
  2:{ rewrite Hold. apply (replaceUpdater_list _ i).
      - by apply lookup_app_l_Some.
      - eapply idOf_preserved; [apply preserved_app|done].
      - eapply ids_preserved; [apply preserved_app|done]. }
  eexists _, _. split; [done|]. split.
  - rewrite length_app, <- app_assoc. cbn [length app].
    rewrite lookup_app_plus. cbn. do 2 f_equal.
    apply replaced_preserved; [apply preserved_app|done].
  - rewrite <- app_assoc. apply preserved_app.
Qed.
End normalize_callbacks.

(** ** [normalize] on a freshly built CRUD group *)

Lemma crud_cell E h0 h k c :
  preserved (h0 ++ crudCells E (length h0)) h →
  crudCells E (length h0) !! k = Some c →
  h !! (length h0 + k)%nat = Some c.
Proof. intros Hp Hk. apply Hp. by rewrite lookup_app_plus. Qed.

Lemma call_KeyFn n E m i h c :
  call (S n) (KeyFn E m) [i] (h, c)
  = Some (VRef (length h),
          (h ++ [Obj {[ "entity" := VStr E; "method" := VStr m; "id" := i ]}], c)).
Proof. reflexivity. Qed.

Lemma crud_normalizable E h0 h n :
  preserved (h0 ++ crudCells E (length h0)) h →
  normalizable (S n) h (VRef (length h0 + 10)) (listFields E) (detailFields E).
Proof.
  intros Hp.
  eexists (length h0 + 3)%nat, (length h0 + 4)%nat, _, (length h0 + 2)%nat, _,
    (KeyFn E "detail").
  repeat split.
  1-4: unfold normalizeOf, field, fieldsOf;
       rewrite (crud_cell E h0 h 10 _ Hp eq_refl); cbn [mbind option_bind];
       gmap_lookup; cbn [mbind option_bind];
       (rewrite (crud_cell E h0 h 4 _ Hp eq_refl)
        || rewrite (crud_cell E h0 h 7 _ Hp eq_refl)
        || rewrite (crud_cell E h0 h 8 _ Hp eq_refl)
        || rewrite (crud_cell E h0 h 9 _ Hp eq_refl));
       cbn [mbind option_bind]; gmap_lookup; reflexivity.
  - apply (crud_cell E h0 h 3 _ Hp eq_refl).
  - by gmap_lookup.
  - apply (crud_cell E h0 h 2 _ Hp eq_refl).
  - apply (crud_cell E h0 h 4 _ Hp eq_refl).
  - by gmap_lookup.
  - intros i hc c _. eexists _, [_]. rewrite call_KeyFn. split; [done|].
    by rewrite lookup_app_length.
Qed.

Lemma listFields_ne_detailFields E i : listFields E ≠ detailFields E i.
Proof.
  intros Heq. apply (f_equal (λ m : gmap string value, m !! "method")) in Heq.
  unfold listFields, detailFields in Heq.
  rewrite lookup_insert_ne, lookup_singleton_eq in Heq by done.
  rewrite lookup_insert_ne, lookup_insert_eq in Heq by done. done.
Qed.

Lemma setEntry_eq k v c : setEntry k v c k = v.
Proof. unfold setEntry. by case_decide. Qed.

Lemma setEntry_ne k k' v c : k' ≠ k → setEntry k v c k' = c k'.
Proof. unfold setEntry. by case_decide. Qed.

Lemma two_entries (c : cache) (ls dsl : slot) (v w : value) :
  ls ≠ dsl →
  setEntry dsl w (setEntry ls v c) ls = v ∧
  setEntry dsl w (setEntry ls v c) dsl = w ∧
  ∀ k, k ≠ ls → k ≠ dsl → setEntry dsl w (setEntry ls v c) k = c k.
Proof.
  intros Hne. repeat split.
  - by rewrite setEntry_ne, setEntry_eq.
  - by rewrite setEntry_eq.
  - intros k H1 H2. by rewrite !setEntry_ne.
Qed.

Lemma createQueryGroupCRUD_inv E h0 g h1 :
  createQueryGroupCRUD E h0 = Some (g, h1) →
  g = VRef (length h0 + 10) ∧ h1 = h0 ++ crudCells E (length h0).
Proof. rewrite createQueryGroupCRUD_cells. by intros [= <- <-]. Qed.

(** C5. For a result [data] whose [id] is [i], [create.normalize(data)] run
    when the list entry is absent sets the list entry to [[data]] and the
    detail entry of [i] to [data]; run when the list entry holds the array
    [items], it sets the list entry to a new array [[...items, data]] (the old
    cells, among them the old array and the items, are left as they were) and
    the detail entry of [i] to [data].  No other entry changes. *)
Theorem crud_create_normalize (E : string) (h0 h1 hx : heap) (g : value)
    (c : cache) (data i : value) (n : nat) :
  createQueryGroupCRUD E h0 = Some (g, h1) →
  idOf (h1 ++ hx) data = Some i →
  (c (listFields E) = VUndefined →
   ∃ h' c' a,
     callNormalize (S (S n)) (h1 ++ hx, c) g "create" data = Some (h', c') ∧
     c' (listFields E) = VRef a ∧ h' !! a = Some (Arr [data]) ∧
     c' (detailFields E i) = data ∧
     ∀ k, k ≠ listFields E → k ≠ detailFields E i → c' k = c k) ∧
  (∀ a0 items,
   c (listFields E) = VRef a0 →
   (h1 ++ hx) !! a0 = Some (Arr items) →
   ∃ h' c' a,
     callNormalize (S (S n)) (h1 ++ hx, c) g "create" data = Some (h', c') ∧
     c' (listFields E) = VRef a ∧ h' !! a = Some (Arr (items ++ [data])) ∧
     preserved (h1 ++ hx) h' ∧
     c' (detailFields E i) = data ∧
     ∀ k, k ≠ listFields E → k ≠ detailFields E i → c' k = c k).
Proof.
  intros [-> ->]%createQueryGroupCRUD_inv Hid.
  pose proof (crud_normalizable E h0 _ n (preserved_app _ hx)) as Hnz.
  pose proof (listFields_ne_detailFields E i) as Hne.
  split.
  - intros Hold.
    destruct (create_normalize_absent _ _ _ _ _ Hnz c data i Hid)
      as (h' & a & Hrun & Ha & _); [by rewrite Hold|].
    destruct (two_entries c _ _ (VRef a) data Hne) as (? & ? & ?).
    by eexists _, _, _.
  - intros a0 items Hold Ha0.
    destruct (create_normalize_list _ _ _ _ _ Hnz c data i Hid a0 items Hold Ha0)
      as (h' & a & Hrun & Ha & Hp).
    destruct (two_entries c _ _ (VRef a) data Hne) as (? & ? & ?).
    exists h', (setEntry (detailFields E i) data (setEntry (listFields E) (VRef a) c)), a.
    repeat split; done.
Qed.

(** C6. For a result [data] whose [id] is [i]: against a list entry holding
    [items], [update.normalize(data)] sets the list entry to the array in
    which the items whose [id] is strictly equal to [i] are replaced by [data]
    and the others are kept, and sets the detail entry of [i] to [data];
    [remove.normalize(data)] sets the list entry to the array of the items
    whose [id] differs from [i] and unsets the detail entry of [i].  When the
    list entry is absent, the [normalize] of [update], [remove] and [detail]
    leave it absent. *)
Theorem crud_update_remove_normalize (E : string) (h0 h1 hx : heap) (g : value)
    (c : cache) (data i : value) (n : nat) :
  createQueryGroupCRUD E h0 = Some (g, h1) →
  idOf (h1 ++ hx) data = Some i →
  (∀ a0 items,
   c (listFields E) = VRef a0 →
   (h1 ++ hx) !! a0 = Some (Arr items) →
   Forall (λ item, is_Some (idOf (h1 ++ hx) item)) items →
   (∃ h' c' a,
     callNormalize (S (S n)) (h1 ++ hx, c) g "update" data = Some (h', c') ∧
     c' (listFields E) = VRef a ∧
     h' !! a = Some (Arr (replaced (h1 ++ hx) i data items)) ∧
     c' (detailFields E i) = data) ∧
   (∃ h' c' a,
     callNormalize (S (S n)) (h1 ++ hx, c) g "remove" data = Some (h', c') ∧
     c' (listFields E) = VRef a ∧
     h' !! a = Some (Arr (removed (h1 ++ hx) i items)) ∧
     c' (detailFields E i) = VUndefined)) ∧
  (c (listFields E) = VUndefined →
   (∃ h' c',
     callNormalize (S (S n)) (h1 ++ hx, c) g "update" data = Some (h', c') ∧
     c' (listFields E) = VUndefined ∧ c' (detailFields E i) = data) ∧
   (∃ h' c',
     callNormalize (S (S n)) (h1 ++ hx, c) g "remove" data = Some (h', c') ∧
     c' (listFields E) = VUndefined ∧ c' (detailFields E i) = VUndefined) ∧
   (∃ h' c',
     callNormalize (S (S n)) (h1 ++ hx, c) g "detail" data = Some (h', c') ∧
     c' (listFields E) = VUndefined)).
Proof.
  intros [-> ->]%createQueryGroupCRUD_inv Hid.
  pose proof (crud_normalizable E h0 _ n (preserved_app _ hx)) as Hnz.
  pose proof (listFields_ne_detailFields E i) as Hne.
  split.
  - intros a0 items Hold Ha0 Hitems. split.
    + destruct (update_normalize_list _ _ _ _ _ Hnz c data i Hid a0 items
                  Hitems Hold Ha0) as (h' & a & Hrun & Ha & _).
      destruct (two_entries c _ _ (VRef a) data Hne) as (? & ? & ?).
      by eexists _, _, _.
    + destruct (remove_normalize_list _ _ _ _ _ Hnz c data i Hid a0 items
                  Hitems Hold Ha0) as (h' & a & Hrun & Ha & _).
      destruct (two_entries c _ _ (VRef a) VUndefined Hne) as (? & ? & ?).
      by eexists _, _, _.
  - intros Hold. repeat split.
    + destruct (update_normalize_absent _ _ _ _ _ Hnz c data i Hid)
        as (h' & Hrun & _); [by rewrite Hold|].
      destruct (two_entries c _ _ (c (listFields E)) data Hne) as (Hl & ? & ?).
      rewrite Hold in Hl at 2. by eexists _, _.
    + destruct (remove_normalize_absent _ _ _ _ _ Hnz c data i Hid)
        as (h' & Hrun & _); [by rewrite Hold|].
      destruct (two_entries c _ _ (c (listFields E)) VUndefined Hne) as (Hl & ? & ?).
      rewrite Hold in Hl at 2. by eexists _, _.
    + destruct (detail_normalize_absent _ _ _ _ _ Hnz c data)
        as (h' & Hrun & _); [by rewrite Hold|].
      eexists _, _. split; [done|]. by rewrite setEntry_eq.
Qed.

(** ** Key injection: the shapes it is applied to *)

Lemma primFields_union ep qp : primFields ep → primFields qp → primFields (ep ∪ qp).
Proof. intros He Hq. by apply map_Forall_union_2. Qed.

Lemma flatAt_operationAt h l : flatAt h l → operationAt h l.
Proof.
  intros (p & Hl & Hp). exists p. split; [done|].
  intros name v Hv. specialize (Hp name v Hv). by destruct v.
Qed.

Lemma forEach_fixed {S A} (body : A → M S unit) (xs : list A) (s : S) :
  (∀ x, x ∈ xs → body x s = Some (tt, s)) →
  forEach body xs s = Some (tt, s).
Proof.
  induction xs as [|x xs IH]; intros Hb; [done|].
  cbn [forEach]. rewrite (bind_Some _ _ _ tt s) by (apply Hb; left).
  apply IH. intros y Hy. apply Hb. by right.
Qed.

Lemma setProp_same l name v p h :
  h !! l = Some (Obj p) → p !! name = Some v → setProp l name v h = Some (tt, h).
Proof.
  intros Hl Hv. unfold setProp. rewrite Hl.
  by rewrite (insert_id p name v Hv), (list_insert_id h l _ Hl).
Qed.

Lemma hasOwn_Obj l name p h :
  h !! l = Some (Obj p) →
  hasOwn l name h = Some (bool_decide (is_Some (p !! name)), h).
Proof. unfold hasOwn. by intros ->. Qed.

Lemma ownKeys_Obj l p h :
  h !! l = Some (Obj p) → ownKeys l h = Some ((map_to_list p).*1, h).
Proof. unfold ownKeys. by intros ->. Qed.

Lemma elem_of_ownKeys (p : gmap string value) name :
  name ∈ (map_to_list p).*1 → is_Some (p !! name).
Proof.
  intros ([k v] & -> & Hkv)%list_elem_of_fmap.
  apply elem_of_map_to_list in Hkv. by exists v.
Qed.

(** The [for (const prop in obj)] loop of [process] leaves the heap as it is
    when every property of [obj] is processed to itself. *)
Lemma forIn_fixed (f : value → M heap value) l p h :
  h !! l = Some (Obj p) →
  (∀ name v, p !! name = Some v → f v h = Some (v, h)) →
  forEach (λ prop,
    let* own := hasOwn l prop in
    if own : bool then
      let* v := getProp prop (VRef l) in
      let* v' := f v in
      setProp l prop v'
    else ret tt) (map_to_list p).*1 h
  = Some (tt, h).
Proof.
  intros Hl Hf. apply forEach_fixed. intros name [v Hv]%elem_of_ownKeys.
  rewrite (bind_Some _ _ _ _ _ (hasOwn_Obj _ _ _ _ Hl)).
  rewrite bool_decide_eq_true_2 by eauto.
  rewrite (bind_Some _ _ _ _ _ (getProp_Obj _ _ _ _ Hl)).
  rewrite Hv. cbn [default from_option id].
  rewrite (bind_Some _ _ _ _ _ (Hf _ _ Hv)).
  by apply setProp_same with p.
Qed.

(** The four outcomes of the [queryKey] statement of [process]. *)
Lemma injectQueryKey_none extra l p h :
  h !! l = Some (Obj p) → p !! "queryKey" = None →
  injectQueryKey extra l h = Some (tt, h).
Proof.
  intros Hl Hq. unfold injectQueryKey.
  rewrite (bind_Some _ _ _ _ _ (hasOwn_Obj _ _ _ _ Hl)).
  rewrite Hq. rewrite bool_decide_eq_false_2; [done|]. by intros [? ?].
Qed.

Lemma injectQueryKey_prim extra l p v h :
  h !! l = Some (Obj p) → p !! "queryKey" = Some v → prim v = true →
  injectQueryKey extra l h = Some (tt, h).
Proof.
  intros Hl Hq Hv. unfold injectQueryKey.
  rewrite (bind_Some _ _ _ _ _ (hasOwn_Obj _ _ _ _ Hl)).
  rewrite bool_decide_eq_true_2 by eauto.
  rewrite (bind_Some _ _ _ _ _ (getProp_Obj _ _ _ _ Hl)).
  rewrite Hq. cbn [default from_option id]. by destruct v.
Qed.

Lemma injectQueryKey_function extra l p f h :
  h !! l = Some (Obj p) → p !! "queryKey" = Some (VFun f) →
  injectQueryKey extra l h
  = Some (tt, <[l := Obj (<["queryKey" := VFun (InjectedFn f extra)]> p)]> h).
Proof.
  intros Hl Hq. unfold injectQueryKey.
  rewrite (bind_Some _ _ _ _ _ (hasOwn_Obj _ _ _ _ Hl)).
  rewrite bool_decide_eq_true_2 by eauto.
  rewrite (bind_Some _ _ _ _ _ (getProp_Obj _ _ _ _ Hl)).
  rewrite Hq. cbn [default from_option id]. unfold setProp. by rewrite Hl.
Qed.

Lemma injectQueryKey_static extra l p q qp ep h :
  h !! l = Some (Obj p) → p !! "queryKey" = Some (VRef q) →
  h !! q = Some (Obj qp) → h !! extra = Some (Obj ep) →
  injectQueryKey extra l h
  = Some (tt, <[l := Obj (<["queryKey" := VRef (length h)]> p)]>
                (h ++ [Obj (ep ∪ qp)])).
Proof.
  intros Hl Hq Hqp Hep. unfold injectQueryKey.
  rewrite (bind_Some _ _ _ _ _ (hasOwn_Obj _ _ _ _ Hl)).
  rewrite bool_decide_eq_true_2 by eauto.
  rewrite (bind_Some _ _ _ _ _ (getProp_Obj _ _ _ _ Hl)).
  rewrite Hq. cbn [default from_option id].
  rewrite (bind_Some _ _ _ qp h) by (unfold spread; by rewrite Hqp).
  rewrite (bind_Some _ _ _ ep h) by (unfold spread; by rewrite Hep).
  rewrite (bind_Some _ _ _ (VRef (length h)) (h ++ [Obj (ep ∪ qp)])) by done.
  unfold setProp. by rewrite (lookup_app_l_Some _ _ _ _ Hl).
Qed.

(** [process] on an inert value. *)
Lemma process_inert extra v h n :
  inert h v → process (S (S n)) extra v h = Some (v, h).
Proof.
  destruct v as [| | | | |l|]; try done.
  intros (p & Hl & Hp). cbn [process]. rewrite Hl.
  assert (injectQueryKey extra l h = Some (tt, h)) as Hinj.
  { destruct (p !! "queryKey") as [v|] eqn:Hq.
    - by apply (injectQueryKey_prim _ _ p v), (Hp _ _ Hq).
    - by apply (injectQueryKey_none _ _ p). }
  rewrite (bind_Some _ _ _ _ _ Hinj).
  rewrite (bind_Some _ _ _ _ _ (ownKeys_Obj _ _ _ Hl)).
  rewrite (bind_Some _ _ _ tt h); [done|].
  apply forIn_fixed; [done|]. intros name v Hv.
  specialize (Hp _ _ Hv). by destruct v.
Qed.

(** ** Key injection on a tree of objects *)

Lemma inert_flatPreserved h h' v : flatPreserved h h' → inert h v → inert h' v.
Proof.
  intros Hfp. destruct v as [| | | | |m|]; try done.
  intros (pm & Hm & Hpm). exists pm. split; [by apply Hfp|done].
Qed.

Lemma lookup_lt_length_Some {A} (h : list A) l c : h !! l = Some c → (l < length h)%nat.
Proof. intros H. by apply lookup_lt_Some in H. Qed.

Lemma treeAt_empty_inert d h v : treeAt d h v ∅ → inert h v.
Proof.
  destruct d as [|d]; cbn [treeAt]; [by intros [? _]|].
  intros [[? _]|(l & p & Fs & _ & _ & _ & _ & _ & _ & HF)]; [done|].
  exfalso. apply (not_elem_of_empty (C:=gset loc) l). apply HF. by left.
Qed.

Lemma treeAt_bound d : ∀ h v F m,
  treeAt d h v F → m ∈ F → is_Some (h !! m).
Proof.
  induction d as [|d IH]; intros h v F m; cbn [treeAt].
  - intros [_ ->] Hm. by apply not_elem_of_empty in Hm.
  - intros [[_ ->]|(l & p & Fs & -> & Hl & _ & Hch & _ & _ & HF)] Hm.
    + by apply not_elem_of_empty in Hm.
    + apply HF in Hm as [->|(name & [x Hx] & Hm)]; [by eexists|].
      apply (IH h x (Fs name)); [by apply Hch|done].
Qed.

Lemma treeAt_stable d : ∀ h h1 v F,
  treeAt d h v F →
  (∀ m c, m ∈ F → h !! m = Some c → h1 !! m = Some c) →
  flatPreserved h h1 →
  treeAt d h1 v F.
Proof.
  induction d as [|d IH]; intros h h1 v F; cbn [treeAt].
  - intros [Hin ->] _ Hflat. split; [|done]. by eapply inert_flatPreserved.
  - intros [[Hin ->]|(l & p & Fs & -> & Hl & Hqk & Hch & Hdisj & Hnl & HF)] Hsame Hflat.
    + left. split; [|done]. by eapply inert_flatPreserved.
    + right. exists l, p, Fs. split; [done|]. split.
      { apply Hsame; [|done]. apply HF. by left. }
      split; [done|]. split; [|done].
      intros name x Hx. apply (IH h); [by apply Hch| |done].
      intros m c Hm. apply Hsame. apply HF. right. exists name. eauto.
Qed.

Lemma treeAt_queryKey_inert d : ∀ h v F l p x,
  treeAt d h v F → l ∈ F → h !! l = Some (Obj p) →
  p !! "queryKey" = Some x → inert h x.
Proof.
  induction d as [|d IH]; intros h v F l p x; cbn [treeAt].
  - intros [_ ->] Hl. by apply not_elem_of_empty in Hl.
  - intros [[_ ->]|(l0 & p0 & Fs & -> & Hl0 & Hqk & Hch & _ & _ & HF)] Hl Hp Hx.
    + by apply not_elem_of_empty in Hl.
    + apply HF in Hl as [->|(name & [y Hy] & Hm)].
      * rewrite Hl0 in Hp. injection Hp as <-.
        apply (treeAt_empty_inert d). rewrite <- Hqk. by apply Hch.
      * apply (IH h y (Fs name) l p x); [by apply Hch|done..].
Qed.

Lemma reachable_tree d : ∀ h v F l,
  treeAt d h v F → reachable h v l → l ∈ F ∨ flatAt h l.
Proof.
  induction d as [|d IH]; intros h v F l; cbn [treeAt].
  - intros [Hin _] Hreach. right.
    destruct Hreach as [l|l p name x l' Hl Hx Hreach]; [done|].
    destruct Hin as (p' & Hl' & Hprim). rewrite Hl in Hl'. injection Hl' as <-.
    specialize (Hprim _ _ Hx). by destruct Hreach.
  - intros [[Hin _]|(l0 & p0 & Fs & -> & Hl0 & Hqk & Hch & _ & _ & HF)] Hreach.
    + right. destruct Hreach as [l|l p name x l' Hl Hx Hreach]; [done|].
      destruct Hin as (p' & Hl' & Hprim). rewrite Hl in Hl'. injection Hl' as <-.
      specialize (Hprim _ _ Hx). by destruct Hreach.
    + inversion Hreach as [|? p name x ? Hl Hx Hreach']; subst.
      * left. apply HF. by left.
      * rewrite Hl0 in Hl. injection Hl as <-.
        destruct (IH h x (Fs name) l (Hch _ _ Hx) Hreach') as [Hin|Hflat];
          [|by right].
        left. apply HF. right. exists name. eauto.
Qed.

Lemma inert_treeAt d h v : inert h v → treeAt d h v ∅.
Proof. destruct d; cbn [treeAt]; [done|by left]. Qed.

Lemma flatPreserved_refl h : flatPreserved h h.
Proof. by intros m pm ?. Qed.

Lemma flatPreserved_trans h1 h2 h3 :
  flatPreserved h1 h2 → flatPreserved h2 h3 → flatPreserved h1 h3.
Proof. intros H12 H23 m pm Hm Hpm. apply H23; [|done]. by apply H12. Qed.

(** The [queryKey] statement of [process] on an object whose [queryKey], if
    any, is inert. *)
Lemma injectQueryKey_inert extra ep l p h :
  h !! l = Some (Obj p) →
  (∀ x, p !! "queryKey" = Some x → inert h x) →
  h !! extra = Some (Obj ep) →
  primFields ep →
  ∃ h1 p1,
    injectQueryKey extra l h = Some (tt, h1) ∧
    opInjected extra ep h h1 l p ∧
    h1 !! l = Some (Obj p1) ∧
    (∀ name, name ≠ "queryKey" → p1 !! name = p !! name) ∧
    (is_Some (p1 !! "queryKey") ↔ is_Some (p !! "queryKey")) ∧
    (∀ x, p1 !! "queryKey" = Some x → inert h1 x) ∧
    (∀ m c, h !! m = Some c → m ≠ l → h1 !! m = Some c) ∧
    flatPreserved h h1 ∧
    (length h ≤ length h1)%nat.
Proof.
  intros Hl Hp Hextra Hep.
  pose proof (lookup_lt_length_Some _ _ _ Hl) as Hlt.
  unfold opInjected.
  destruct (p !! "queryKey") as [[| | | | |q|f]|] eqn:Hq.
  1-5: exists h, p; split; [by eapply injectQueryKey_prim|];
       repeat split; try done; try lia; try apply flatPreserved_refl;
       intros x Hx; rewrite Hq in Hx; by injection Hx as <-.
  - (* static key *)
    destruct (Hp _ eq_refl) as (qp & Hqp & Hqprim).
    set (h1 := <[l := Obj (<["queryKey" := VRef (length h)]> p)]>
                 (h ++ [Obj (ep ∪ qp)])).
    exists h1, (<["queryKey" := VRef (length h)]> p).
    rewrite (injectQueryKey_static extra l p q qp ep h) by done.
    assert (∀ m c, h !! m = Some c → m ≠ l → h1 !! m = Some c) as Hframe.
    { intros m c Hm Hne. unfold h1. rewrite list_lookup_insert_ne by done.
      by apply lookup_app_l_Some. }
    assert (flatPreserved h h1) as Hflat.
    { intros m pm Hm Hpm. apply Hframe; [done|]. intros ->.
      rewrite Hl in Hm. injection Hm as ->. by specialize (Hpm _ _ Hq). }
    assert (h1 !! length h = Some (Obj (ep ∪ qp))) as Hk.
    { unfold h1. rewrite list_lookup_insert_ne by lia. by rewrite lookup_app_length. }
    assert (h1 !! l = Some (Obj (<["queryKey" := VRef (length h)]> p))) as Hl1.
    { apply list_lookup_insert_eq. rewrite length_app. lia. }
    repeat split; try done.
    + by exists (length h), qp.
    + intros name Hne. by rewrite lookup_insert_ne.
    + rewrite lookup_insert_eq. eauto.
    + rewrite lookup_insert_eq. intros x Hx. injection Hx as <-.
      exists (ep ∪ qp). split; [done|]. by apply primFields_union.
    + unfold h1. rewrite length_insert, length_app. lia.
  - (* function key *)
    set (h1 := <[l := Obj (<["queryKey" := VFun (InjectedFn f extra)]> p)]> h).
    exists h1, (<["queryKey" := VFun (InjectedFn f extra)]> p).
    rewrite (injectQueryKey_function extra l p f h) by done.
    assert (flatPreserved h h1) as Hflat.
    { intros m pm Hm Hpm. unfold h1. rewrite list_lookup_insert_ne; [done|].
      intros ->. rewrite Hl in Hm. injection Hm as ->. by specialize (Hpm _ _ Hq). }
    assert (h1 !! l = Some (Obj (<["queryKey" := VFun (InjectedFn f extra)]> p)))
      as Hl1 by (by apply list_lookup_insert_eq).
    repeat split; try done.
    + intros name Hne. by rewrite lookup_insert_ne.
    + rewrite lookup_insert_eq. eauto.
    + rewrite lookup_insert_eq. intros x Hx. by injection Hx as <-.
    + intros m c Hm Hne. unfold h1. by rewrite list_lookup_insert_ne.
    + unfold h1. by rewrite length_insert.
  - exists h, p. rewrite (injectQueryKey_none extra l p h Hl Hq).
    repeat split; try done; try lia; try apply flatPreserved_refl.
    + by rewrite Hq.
    + intros x Hx. by rewrite Hq in Hx.
Qed.

(** What holds of an injected object in [hi] holds in [h1] when its own cell
    and the cells allocated since [h] are the same there. *)
Lemma opInjected_mono extra ep h hi h1 l p :
  opInjected extra ep h hi l p →
  (∀ c, hi !! l = Some c → h1 !! l = Some c) →
  (∀ k c, (length h ≤ k)%nat → hi !! k = Some c → h1 !! k = Some c) →
  opInjected extra ep h h1 l p.
Proof.
  unfold opInjected. intros Hop Hl Hnew.
  destruct (p !! "queryKey") as [[| | | | |q|f]|]; try (by apply Hl).
  destruct Hop as (k & qp & Hq & Hk & Hl' & Hk').
  exists k, qp. repeat split; try done; [by apply Hl|by apply Hnew].
Qed.

(** An object injected from [hi] on, where [hi] has the keys of [h], is
    injected from [h] on. *)
Lemma opInjected_from extra ep h hi h1 l p :
  opInjected extra ep hi h1 l p →
  (∀ q, p !! "queryKey" = Some (VRef q) → flatAt h q) →
  flatPreserved h hi →
  (length h ≤ length hi)%nat →
  opInjected extra ep h h1 l p.
Proof.
  unfold opInjected. intros Hop Hkey Hflat Hlen.
  destruct (p !! "queryKey") as [[| | | | |q|f]|]; try done.
  destruct Hop as (k & qp & Hq & Hk & Hl' & Hk').
  destruct (Hkey q eq_refl) as (qp' & Hq' & Hprim).
  rewrite (Hflat _ _ Hq' Hprim) in Hq. injection Hq as <-.
  exists k, qp'. repeat split; try done. lia.
Qed.

Lemma process_Obj fuel extra l p h :
  h !! l = Some (Obj p) →
  process (S fuel) extra (VRef l) h
  = (let* _ := injectQueryKey extra l in
     let* names := ownKeys l in
     let* _ := forEach (λ prop,
       let* own := hasOwn l prop in
       if own : bool then
         let* v := getProp prop (VRef l) in
         let* v' := process fuel extra v in
         setProp l prop v'
       else ret tt) names in
     ret (VRef l)) h.
Proof. intros Hl. cbn [process]. by rewrite Hl. Qed.

Lemma injectedIn_inert extra ep h : injectedIn extra ep h ∅ h.
Proof.
  split; [by intros m c ? _|]. split; [|split; [apply flatPreserved_refl|lia]].
  intros l p Hl. by apply not_elem_of_empty in Hl.
Qed.

Section inject_node.
Context (extra : loc) (ep : gmap string value) (d fuel : nat).
Context (Hep : primFields ep).
Context (Hrec : ∀ h v F, treeAt d h v F → h !! extra = Some (Obj ep) →
                  ∃ h', process fuel extra v h = Some (v, h') ∧
                        injectedIn extra ep h F h').
Context (h : heap) (l : loc) (p : gmap string value) (Fs : string → gset loc).
Context (Hextra : h !! extra = Some (Obj ep)).
Context (Hchildren : ∀ name x, p !! name = Some x → treeAt d h x (Fs name)).
Context (Hdisjoint : ∀ n1 n2, n1 ≠ n2 → Fs n1 ## Fs n2).
Context (Hroot : ∀ name, l ∉ Fs name).

Lemma node_loop (ns : list string) : ∀ (done : list string) (hi : heap),
  NoDup ns →
  (∀ name, name ∈ ns → is_Some (p !! name)) →
  (∀ name, name ∈ ns → name ∉ done) →
  nodeInv extra ep h l p Fs done hi →
  ∃ hf,
    forEach (λ prop,
      let* own := hasOwn l prop in
      if own : bool then
        let* v := getProp prop (VRef l) in
        let* v' := process fuel extra v in
        setProp l prop v'
      else ret tt) ns hi = Some (tt, hf) ∧
    nodeInv extra ep h l p Fs (reverse ns ++ done) hf.
Proof.
  induction ns as [|name ns IH]; intros done hi Hnodup Hsome Hfresh Hinv.
  { exists hi. by split. }
  apply NoDup_cons in Hnodup as [Hname Hnodup].
  destruct (Hsome name) as [v Hv]; [left|].
  destruct Hinv as (Hli & Hrest & Hdone & Hflat & Hlen).
  pose proof (Hchildren _ _ Hv) as Htree.
  assert (∀ name', name' ∈ done → name' ≠ name) as Hother.
  { intros name' Hin' ->. by apply (Hfresh name); [left|]. }
  assert (∀ m c, m ∈ Fs name → h !! m = Some c → hi !! m = Some c) as Hsub.
  { intros m c Hm Hc. apply Hrest; [done| |].
    - intros ->. by apply (Hroot name).
    - intros name' Hin' Hm'.
      by apply (Hdisjoint name' name (Hother _ Hin') m). }
  destruct (Hrec hi v (Fs name)) as (h2 & Hrun & Hframe & Hops & Hflat2 & Hlen2).
  { by apply (treeAt_stable d h). }
  { by apply Hflat. }
  assert (h2 !! l = Some (Obj p)) as Hl2 by (apply Hframe; [done|apply Hroot]).
  assert (nodeInv extra ep h l p Fs (name :: done) h2) as Hinv2.
  { repeat split; try done.
    - intros m c Hm Hne Hnot. apply Hframe.
      + apply Hrest; [done..|]. intros name' Hin'. apply Hnot. by right.
      + apply Hnot. by left.
    - intros name' m pm Hin' Hm Hpm.
      apply elem_of_cons in Hin' as [->|Hin'].
      + apply (opInjected_from extra ep h hi); try done.
        * apply Hops; [done|]. by apply Hsub.
        * intros q Hq.
          apply (treeAt_queryKey_inert d h v (Fs name) m pm (VRef q)); done.
      + apply (opInjected_mono extra ep h hi); [by apply (Hdone name')|..].
        * intros c Hc. apply Hframe; [done|]. intros Hm'.
          by apply (Hdisjoint name' name (Hother _ Hin') m).
        * intros k c Hk Hc. apply Hframe; [done|]. intros Hk'.
          destruct (treeAt_bound d h v (Fs name) k Htree Hk') as [c' Hc'].
          apply lookup_lt_length_Some in Hc'. lia.
    - by apply (flatPreserved_trans h hi).
    - lia. }
  destruct (IH (name :: done) h2) as (hf & Hloop & Hinvf); try done.
  { intros name' Hin'. apply Hsome. by right. }
  { intros name' Hin' [->|Hd]%elem_of_cons; [done|].
    by apply (Hfresh name'); [right|]. }
  exists hf. cbn [forEach].
  rewrite (bind_Some _ _ _ tt h2).
  - split; [done|]. by rewrite reverse_cons, <- app_assoc.
  - rewrite (bind_Some _ _ _ _ _ (hasOwn_Obj _ _ _ _ Hli)).
    rewrite bool_decide_eq_true_2 by eauto.
    rewrite (bind_Some _ _ _ _ _ (getProp_Obj _ _ _ _ Hli)).
    rewrite Hv. cbn [default from_option id].
    rewrite (bind_Some _ _ _ _ _ Hrun).
    by apply setProp_same with p.
Qed.
End inject_node.

(** Key injection on a tree of objects: the run succeeds, returns its
    argument, and has injected every node. *)
Lemma process_tree extra ep d :
  primFields ep → ∀ n h v F,
  treeAt d h v F →
  h !! extra = Some (Obj ep) →
  ∃ h', process (S (S (d + n))) extra v h = Some (v, h') ∧
        injectedIn extra ep h F h'.
Proof.
  intros Hep. induction d as [|d IHd]; intros n h v F Htree Hextra.
  { destruct Htree as [Hin ->]. exists h.
    split; [by apply process_inert|apply injectedIn_inert]. }
  cbn [treeAt] in Htree.
  destruct Htree as [[Hin ->]|(l & p & Fs & -> & Hl & Hqk & Hch & Hdisj & Hnl & HF)].
  { exists h. split; [by apply (process_inert extra v h (S d + n))
                     |apply injectedIn_inert]. }
  pose proof (lookup_lt_length_Some _ _ _ Hl) as Hlt.
  destruct (injectQueryKey_inert extra ep l p h) as
    (h1 & p1 & Hinj & Hop & Hl1 & Hsame & Hkey & Hkey1 & Hframe & Hflat & Hlen);
    try done.
  { intros x Hx. apply (treeAt_empty_inert d). rewrite <- Hqk. by apply Hch. }
  assert (∀ name, is_Some (p1 !! name) → is_Some (p !! name)) as Hnames.
  { intros name. destruct (decide (name = "queryKey")) as [->|Hne];
      [apply Hkey|by rewrite Hsame]. }
  assert (∀ name x, p1 !! name = Some x → treeAt d h1 x (Fs name)) as Hch1.
  { intros name x Hx. destruct (decide (name = "queryKey")) as [->|Hne].
    - rewrite Hqk. apply inert_treeAt. by apply Hkey1.
    - rewrite Hsame in Hx by done. apply (treeAt_stable d h); [by apply Hch| |done].
      intros m c Hm Hc. apply Hframe; [done|]. intros ->. by apply (Hnl name). }
  destruct (node_loop extra ep d (S (S (d + n))) Hep (λ h v F, IHd n h v F)
              h1 l p1 Fs (Hflat _ _ Hextra Hep) Hch1 Hdisj Hnl
              (map_to_list p1).*1 [] h1) as (hf & Hloop & Hinv).
  { apply NoDup_fst_map_to_list. }
  { intros name. apply elem_of_ownKeys. }
  { intros name _. apply not_elem_of_nil. }
  { repeat split; try done.
    - intros name m pm Hin. by apply elem_of_nil in Hin.
    - apply flatPreserved_refl. }
  destruct Hinv as (Hlf & Hrest & Hdone & Hflatf & Hlenf).
  assert (∀ name, is_Some (p1 !! name) → name ∈ reverse (map_to_list p1).*1 ++ [])
    as Hall.
  { intros name [x Hx]. rewrite app_nil_r. apply elem_of_reverse.
    apply list_elem_of_fmap. exists (name, x). split; [done|].
    by apply elem_of_map_to_list. }
  assert (∀ name, name ∈ reverse (map_to_list p1).*1 ++ [] → is_Some (p1 !! name))
    as Hdom.
  { intros name. rewrite app_nil_r, elem_of_reverse. apply elem_of_ownKeys. }
  assert (∀ name m, is_Some (p1 !! name) → m ∈ Fs name → (m < length h)%nat)
    as Hbound.
  { intros name m Hsome Hm. destruct (Hnames _ Hsome) as [x Hx].
    destruct (treeAt_bound d h x (Fs name) m (Hch _ _ Hx) Hm) as [c Hc].
    by apply lookup_lt_length_Some in Hc. }
  exists hf. split.
  { change (S (S (S d + n))) with (S (S (S (d + n)))).
    rewrite (process_Obj _ _ _ _ _ Hl).
    rewrite (bind_Some _ _ _ _ _ Hinj).
    rewrite (bind_Some _ _ _ _ _ (ownKeys_Obj _ _ _ Hl1)).
    by rewrite (bind_Some _ _ _ _ _ Hloop). }
  split; [|split; [|split]].
  - intros m c Hm Hnot. apply Hrest.
    + apply Hframe; [done|]. intros ->. apply Hnot, HF. by left.
    + intros ->. apply Hnot, HF. by left.
    + intros name Hin Hm'. apply Hnot, HF. right. exists name.
      split; [|done]. by apply Hnames, Hdom.
  - intros m pm Hm Hpm. apply HF in Hm as [->|(name & [x Hx] & Hm)].
    + rewrite Hl in Hpm. injection Hpm as <-.
      apply (opInjected_mono extra ep h h1); [done|..].
      * intros c Hc. rewrite Hl1 in Hc. by injection Hc as <-.
      * intros k c Hk Hc. apply Hrest; [done|lia|].
        intros name Hin Hk'. specialize (Hbound name k (Hdom _ Hin) Hk'). lia.
    + assert (name ≠ "queryKey") as Hne.
      { intros ->. rewrite Hqk in Hm. by apply not_elem_of_empty in Hm. }
      assert (m ≠ l) as Hml by (intros ->; by apply (Hnl name)).
      apply (opInjected_from extra ep h h1).
      * apply (Hdone name); [|done|by apply Hframe].
        apply Hall. rewrite Hsame by done. eauto.
      * intros q Hq.
        apply (treeAt_queryKey_inert d h x (Fs name) m pm (VRef q)); try done.
        by apply Hch.
      * done.
      * done.
  - by apply (flatPreserved_trans h h1).
  - lia.
Qed.

(** The nodes of an injected tree form the same tree. *)
Lemma treeAt_injected extra ep d : primFields ep → ∀ h h' v F,
  treeAt d h v F →
  (∀ l p, l ∈ F → h !! l = Some (Obj p) → opInjected extra ep h h' l p) →
  flatPreserved h h' →
  treeAt d h' v F.
Proof.
  intros Hep. induction d as [|d IH]; intros h h' v F; cbn [treeAt].
  - intros [Hin ->] _ Hflat. split; [|done]. by eapply inert_flatPreserved.
  - intros [[Hin ->]|(l & p & Fs & -> & Hl & Hqk & Hch & Hdisj & Hnl & HF)] Hops Hflat.
    { left. split; [|done]. by eapply inert_flatPreserved. }
    right.
    assert (inert_key : ∀ x, p !! "queryKey" = Some x → inert h x).
    { intros x Hx. apply (treeAt_empty_inert d). rewrite <- Hqk. by apply Hch. }
    assert (∀ name x, p !! name = Some x → treeAt d h' x (Fs name)) as Hch'.
    { intros name x Hx. apply (IH h); [by apply Hch| |done].
      intros m pm Hm. apply Hops, HF. right. exists name. eauto. }
    assert (opInjected extra ep h h' l p) as Hop by (apply Hops; [apply HF; by left|done]).
    unfold opInjected in Hop.
    destruct (p !! "queryKey") as [[| | | | |q|f]|] eqn:Hq.
    1-5,8: by exists l, p, Fs.
    + destruct Hop as (k & qp & Hqh & Hk & Hl' & Hk').
      destruct (inert_key _ eq_refl) as (qp' & Hq' & Hprim).
      rewrite Hqh in Hq'. injection Hq' as <-.
      exists l, (<["queryKey" := VRef k]> p), Fs. repeat split; try done.
      * intros name x Hx. apply lookup_insert_Some in Hx as [[<- <-]|[Hne Hx]];
          [|by apply Hch'].
        rewrite Hqk. apply inert_treeAt. exists (ep ∪ qp).
        split; [done|]. by apply primFields_union.
      * intros Hm. apply HF in Hm as [->|(name & Hsome & Hm)]; [by left|].
        right. exists name. split; [|done].
        destruct (decide (name = "queryKey")) as [->|Hne];
          [by rewrite lookup_insert_eq|by rewrite lookup_insert_ne].
      * intros [->|(name & Hsome & Hm)]; apply HF; [by left|].
        right. exists name. split; [|done].
        destruct (decide (name = "queryKey")) as [->|Hne];
          [by rewrite Hq|by rewrite lookup_insert_ne in Hsome].
    + exists l, (<["queryKey" := VFun (InjectedFn f extra)]> p), Fs.
      repeat split; try done.
      * intros name x Hx. apply lookup_insert_Some in Hx as [[<- <-]|[Hne Hx]];
          [|by apply Hch'].
        rewrite Hqk. by apply inert_treeAt.
      * intros Hm. apply HF in Hm as [->|(name & Hsome & Hm)]; [by left|].
        right. exists name. split; [|done].
        destruct (decide (name = "queryKey")) as [->|Hne];
          [by rewrite lookup_insert_eq|by rewrite lookup_insert_ne].
      * intros [->|(name & Hsome & Hm)]; apply HF; [by left|].
        right. exists name. split; [|done].
        destruct (decide (name = "queryKey")) as [->|Hne];
          [by rewrite Hq|by rewrite lookup_insert_ne in Hsome].
Qed.

(** ** Key injection on a group of operations *)

Lemma elem_of_groupNodes g gp m :
  m ∈ groupNodes g gp ↔ m = g ∨ ∃ name, gp !! name = Some (VRef m).
Proof.
  unfold groupNodes. rewrite elem_of_union, elem_of_singleton, elem_of_list_to_set.
  rewrite list_elem_of_omap. split; (intros [->|H]; [by left|right]).
  - destruct H as (v & ([name v'] & -> & Hin)%list_elem_of_fmap & Hv).
    apply elem_of_map_to_list in Hin. exists name.
    destruct v' as [| | | | |l|]; try done. cbn in Hv. by injection Hv as ->.
  - destruct H as (name & Hname). exists (VRef m). split; [|done].
    apply list_elem_of_fmap. exists (name, VRef m). split; [done|].
    by apply elem_of_map_to_list.
Qed.

Lemma group_not_member h g gp name :
  groupAt h g gp → gp !! name ≠ Some (VRef g).
Proof.
  intros (Hg & _ & Hm & _) Hname.
  destruct (Hm _ _ Hname) as (p & Hp & Hin).
  rewrite Hg in Hp. injection Hp as <-.
  destruct (Hin _ _ Hname) as (p' & Hp' & Hprim).
  rewrite Hg in Hp'. injection Hp' as <-.
  by specialize (Hprim _ _ Hname).
Qed.

(** A group of operations is a tree of depth two. *)
Lemma groupAt_treeAt h g gp :
  groupAt h g gp → treeAt 2 h (VRef g) (groupNodes g gp).
Proof.
  intros Hgroup. pose proof Hgroup as (Hg & Hnokey & Hmembers & Hdistinct).
  right. exists g, gp, (λ name, from_option (λ l, {[ l ]}) ∅ (gp !! name ≫= refOf)).
  split; [done|]. split; [done|]. split; [by rewrite Hnokey|].
  split; [|split; [|split]].
  - intros name x Hx. rewrite Hx. cbn [mbind option_bind].
    specialize (Hmembers _ _ Hx).
    destruct x as [| | | | |l|]; try (by left).
    destruct Hmembers as (p & Hl & Hp).
    right. exists l, p, (λ _, ∅).
    split; [done|]. split; [done|]. split; [done|].
    split; [|split; [done|split; [done|]]].
    + intros k y Hy. split; [by apply (Hp k)|done].
    + intros m. cbn. rewrite elem_of_singleton. split; [by left|].
      intros [->|(k & _ & Hk)]; [done|]. by apply not_elem_of_empty in Hk.
  - intros n1 n2 Hne m H1 H2.
    destruct (gp !! n1) as [[| | | | |l1|]|] eqn:E1; try (by apply not_elem_of_empty in H1).
    destruct (gp !! n2) as [[| | | | |l2|]|] eqn:E2; try (by apply not_elem_of_empty in H2).
    cbn in H1, H2. apply elem_of_singleton in H1. apply elem_of_singleton in H2.
    subst l1 l2. by apply Hne, (Hdistinct n1 n2 m).
  - intros name Hin.
    destruct (gp !! name) as [[| | | | |l|]|] eqn:E; try (by apply not_elem_of_empty in Hin).
    cbn in Hin. apply elem_of_singleton in Hin. subst l.
    by apply (group_not_member h g gp name).
  - intros m. rewrite elem_of_groupNodes. split; (intros [->|(name & H)]; [by left|right]);
      exists name.
    + rewrite H. split; [eauto|]. by apply elem_of_singleton.
    + destruct H as [_ H].
      destruct (gp !! name) as [[| | | | |l|]|] eqn:E; try (by apply not_elem_of_empty in H).
      cbn in H. apply elem_of_singleton in H. by subst l.
Qed.

(** Injection on a group: the run succeeds, returns the group itself, and
    every member operation is injected; objects with primitive fields are as
    before. *)
Lemma inject_group extra ep h g gp n :
  groupAt h g gp →
  h !! extra = Some (Obj ep) →
  primFields ep →
  ∃ h',
    inyectKeysToQueries (S (S (S (S n)))) (VRef g) extra h = Some (VRef g, h') ∧
    (∀ name l p, gp !! name = Some (VRef l) → h !! l = Some (Obj p) →
                 opInjected extra ep h h' l p) ∧
    flatPreserved h h' ∧
    groupAt h' g gp.
Proof.
  intros Hgroup Hextra Hep.
  pose proof Hgroup as (Hg & Hnokey & Hmembers & Hdistinct).
  destruct (process_tree extra ep 2 Hep n h (VRef g) (groupNodes g gp))
    as (h' & Hrun & _ & Hops & Hflat & _); [by apply groupAt_treeAt|done|].
  assert (∀ name l p, gp !! name = Some (VRef l) → h !! l = Some (Obj p) →
                      opInjected extra ep h h' l p) as Hdone.
  { intros name l p Hname Hl. apply Hops; [|done].
    apply elem_of_groupNodes. right. eauto. }
  exists h'. repeat split; try done.
  - assert (opInjected extra ep h h' g gp) as Hop.
    { apply Hops; [|done]. apply elem_of_groupNodes. by left. }
    unfold opInjected in Hop. by rewrite Hnokey in Hop.
  - intros name v Hv. specialize (Hmembers _ _ Hv).
    destruct v as [| | | | |l|]; try done.
    destruct Hmembers as (p & Hl & Hp).
    pose proof (Hdone name l p Hv Hl) as Hop.
    unfold opInjected in Hop.
    destruct (p !! "queryKey") as [[| | | | |q|f]|] eqn:Hq.
    1-5,8: exists p; split; [done|];
           intros k x Hx; eapply inert_flatPreserved; [done|]; by apply (Hp k).
    + destruct Hop as (k & qp & Hqh & Hk & Hl' & Hk').
      eexists. split; [done|]. apply map_Forall_insert_2.
      * exists (ep ∪ qp). split; [done|]. apply primFields_union; [done|].
        destruct (Hp _ _ Hq) as (qp' & Hq' & Hprim).
        rewrite Hqh in Hq'. by injection Hq' as <-.
      * intros k' x Hx. eapply inert_flatPreserved; [done|]. by apply (Hp k').
    + eexists. split; [done|]. apply map_Forall_insert_2; [done|].
      intros k' x Hx. eapply inert_flatPreserved; [done|]. by apply (Hp k').
Qed.

(** ** The wrapper around a function key *)

Lemma call_InjectedFn_merges n f extra args s k s1 kp ep :
  call n f args s = Some (VRef k, s1) →
  s1.1 !! k = Some (Obj kp) →
  s1.1 !! extra = Some (Obj ep) →
  call (S n) (InjectedFn f extra) args s
  = Some (VRef (length s1.1), (s1.1 ++ [Obj (ep ∪ kp)], s1.2)).
Proof.
  intros Hcall Hk Hextra. cbn [call].
  rewrite (bind_Some _ _ _ _ _ Hcall). rewrite Hk.
  unfold liftH, bind, spread, new, alloc, bind, ret. by rewrite Hextra.
Qed.

(** A result that is not a plain object is returned as it is. *)
Lemma call_InjectedFn_other n f extra args s v s1 :
  call n f args s = Some (v, s1) →
  (∀ k, v = VRef k → ∃ elems, s1.1 !! k = Some (Arr elems)) →
  call (S n) (InjectedFn f extra) args s = Some (v, s1).
Proof.
  intros Hcall Hv. cbn [call]. rewrite (bind_Some _ _ _ _ _ Hcall).
  destruct v as [| | | | |k|]; try done.
  destruct (Hv k eq_refl) as [elems ->]. done.
Qed.

(** ** Key injection on a CRUD group *)

Lemma map_Forall_single {A} (P : string → A → Prop) (i : string) (x : A) :
  P i x → map_Forall P ({[ i := x ]} : gmap string A).
Proof. apply map_Forall_singleton. Qed.

Ltac map_Forall_literal :=
  repeat match goal with
         | |- map_Forall _ ∅ => apply map_Forall_empty
         | |- map_Forall _ {[ _ := _ ]} => apply map_Forall_single
         | |- map_Forall _ (<[ _ := _ ]> _) => apply map_Forall_insert_2
         end.

Ltac prims := unfold primFields; map_Forall_literal; reflexivity.
Ltac inerts := map_Forall_literal; cbn [inert]; try exact I.

Lemma crud_flatAt E h0 h k p :
  preserved (h0 ++ crudCells E (length h0)) h →
  crudCells E (length h0) !! k = Some (Obj p) →
  primFields p →
  flatAt h (length h0 + k).
Proof. intros Hp Hk Hprim. exists p. split; [by eapply crud_cell|done]. Qed.

Lemma crud_groupAt E h0 h :
  preserved (h0 ++ crudCells E (length h0)) h →
  groupAt h (length h0 + 10) (crudGroup (length h0)).
Proof.
  intros Hp. split; [|split; [|split]].
  - apply (crud_cell E h0 h 10 _ Hp eq_refl).
  - unfold crudGroup. gmap_lookup. reflexivity.
  - unfold crudGroup. map_Forall_literal; cbn [member].
    + eexists. split; [apply (crud_cell E h0 h 1 _ Hp eq_refl)|]. inerts.
      eexists. split; [apply Hp; rewrite lookup_app_length; reflexivity|]. prims.
    + eexists. split; [apply (crud_cell E h0 h 3 _ Hp eq_refl)|]. inerts.
      apply (crud_flatAt E h0 h 2 _ Hp eq_refl). prims.
    + eexists. split; [apply (crud_cell E h0 h 4 _ Hp eq_refl)|]. inerts.
    + eexists. split; [apply (crud_cell E h0 h 7 _ Hp eq_refl)|]. inerts.
      * apply (crud_flatAt E h0 h 5 _ Hp eq_refl). prims.
      * apply (crud_flatAt E h0 h 6 _ Hp eq_refl). prims.
    + eexists. split; [apply (crud_cell E h0 h 8 _ Hp eq_refl)|]. inerts.
    + eexists. split; [apply (crud_cell E h0 h 9 _ Hp eq_refl)|]. inerts.
  - unfold crudGroup. intros n1 n2 l H1 H2.
    repeat (rewrite lookup_insert_Some in H1; destruct H1 as [[<- H1]|[_ H1]]);
    try (rewrite lookup_singleton_Some in H1; destruct H1 as [<- H1]);
    injection H1 as <-;
    repeat (rewrite lookup_insert_Some in H2; destruct H2 as [[<- H2]|[_ H2]]);
    try (rewrite lookup_singleton_Some in H2; destruct H2 as [<- H2]);
    first [ reflexivity | exfalso; injection H2; lia ].
Qed.

(** ** Reading an injected group *)

Section injected_group.
Context (extra : loc) (ep : gmap string value).
Context (h h' : heap) (g : loc) (gp : gmap string value).
Context (name : string) (l : loc) (p : gmap string value).
Context (Hg' : h' !! g = Some (Obj gp)).
Context (Hname : gp !! name = Some (VRef l)).
Context (Hl : h !! l = Some (Obj p)).
Context (Hop : opInjected extra ep h h' l p).

Lemma injected_cell : ∃ p', h' !! l = Some (Obj p') ∧
  ∀ prop, prop ≠ "queryKey" → p' !! prop = p !! prop.
Proof.
  unfold opInjected in Hop.
  destruct (p !! "queryKey") as [[| | | | |q|f]|]; try (by exists p).
  - destruct Hop as (k & qp & _ & _ & Hl' & _). eexists. split; [done|].
    intros prop Hne. by rewrite lookup_insert_ne.
  - eexists. split; [done|]. intros prop Hne. by rewrite lookup_insert_ne.
Qed.

Lemma injected_staticKey q qp :
  p !! "queryKey" = Some (VRef q) → h !! q = Some (Obj qp) →
  staticKey h' (VRef g) name = Some (ep ∪ qp).
Proof.
  intros Hq Hqp. unfold opInjected in Hop. rewrite Hq in Hop.
  destruct Hop as (k & qp' & Hqp' & _ & Hl' & Hk).
  rewrite Hqp in Hqp'. injection Hqp' as <-.
  unfold staticKey, queryKeyOf, field, fieldsOf. rewrite Hg'.
  cbn [mbind option_bind].
  rewrite Hname. cbn [mbind option_bind]. rewrite Hl'. cbn [mbind option_bind].
  rewrite lookup_insert_eq. cbn [mbind option_bind]. by rewrite Hk.
Qed.

Lemma injected_functionKey f :
  p !! "queryKey" = Some (VFun f) →
  queryKeyOf h' (VRef g) name = Some (VFun (InjectedFn f extra)).
Proof.
  intros Hq. unfold opInjected in Hop. rewrite Hq in Hop.
  unfold queryKeyOf, field, fieldsOf. rewrite Hg'. cbn [mbind option_bind].
  rewrite Hname. cbn [mbind option_bind]. rewrite Hop. cbn [mbind option_bind].
  by rewrite lookup_insert_eq.
Qed.

Lemma injected_other prop :
  prop ≠ "queryKey" →
  (field h' (VRef g) name ≫= λ o, field h' o prop) = p !! prop.
Proof.
  intros Hne. destruct injected_cell as (p' & Hl' & Hsame).
  unfold field, fieldsOf. rewrite Hg'. cbn [mbind option_bind].
  rewrite Hname. cbn [mbind option_bind]. rewrite Hl'. cbn [mbind option_bind].
  by apply Hsame.
Qed.
End injected_group.

(** ** Reading an injected object *)

Section injected_node.
Context (extra : loc) (ep : gmap string value).
Context (h h' : heap) (l : loc) (p : gmap string value).
Context (Hop : opInjected extra ep h h' l p).

Lemma injected_node_static q qp :
  p !! "queryKey" = Some (VRef q) → h !! q = Some (Obj qp) →
  propFields h' (VRef l) "queryKey" = Some (ep ∪ qp).
Proof.
  intros Hq Hqp. unfold opInjected in Hop. rewrite Hq in Hop.
  destruct Hop as (k & qp' & Hqp' & _ & Hl' & Hk).
  rewrite Hqp in Hqp'. injection Hqp' as <-.
  unfold propFields, field, fieldsOf. rewrite Hl'. cbn [mbind option_bind].
  rewrite lookup_insert_eq. cbn [mbind option_bind]. by rewrite Hk.
Qed.

Lemma injected_node_function f :
  p !! "queryKey" = Some (VFun f) →
  field h' (VRef l) "queryKey" = Some (VFun (InjectedFn f extra)).
Proof.
  intros Hq. unfold opInjected in Hop. rewrite Hq in Hop.
  unfold field, fieldsOf. rewrite Hop. cbn [mbind option_bind].
  by rewrite lookup_insert_eq.
Qed.

End injected_node.

Lemma flat_opInjected extra ep h h' l p :
  flatPreserved h h' → h !! l = Some (Obj p) → primFields p →
  opInjected extra ep h h' l p.
Proof.
  intros Hflat Hl Hp. unfold opInjected.
  destruct (p !! "queryKey") as [[| | | | |q|f]|] eqn:Hq;
    try (by apply Hflat); by specialize (Hp _ _ Hq).
Qed.

(** Every object reached from the root of an injected tree is injected. *)
Lemma reachable_injected extra ep d h h' v F l p :
  treeAt d h v F → injectedIn extra ep h F h' →
  reachable h v l → h !! l = Some (Obj p) →
  opInjected extra ep h h' l p.
Proof.
  intros Htree (_ & Hops & Hflat & _) Hreach Hl.
  destruct (reachable_tree d h v F l Htree Hreach) as [Hin|(p' & Hl' & Hp')].
  - by apply Hops.
  - rewrite Hl in Hl'. injection Hl' as <-. by apply flat_opInjected.
Qed.

(** The fields of the key returned by a wrapped function key. *)
Lemma callForKey_InjectedFn n f extra args s k s1 kp ep :
  call n f args s = Some (VRef k, s1) →
  s1.1 !! k = Some (Obj kp) →
  s1.1 !! extra = Some (Obj ep) →
  callForKey (S n) (VFun (InjectedFn f extra)) args s = Some (ep ∪ kp).
Proof.
  intros Hcall Hk Hextra. unfold callForKey.
  rewrite (call_InjectedFn_merges n f extra args s k s1 kp ep) by done.
  cbn [fst fieldsOf]. by rewrite lookup_app_length.
Qed.

Lemma bind_None {S A B} (m : M S A) (k : A → M S B) (s : S) :
  m s = None → bind m k s = None.
Proof. unfold bind. by intros ->. Qed.

Lemma spread_app l h p cs :
  spread l h = Some (p, h) → spread l (h ++ cs) = Some (p, h ++ cs).
Proof.
  unfold spread. destruct (h !! l) as [c|] eqn:Hl; [|done].
  rewrite (lookup_app_l_Some _ _ _ _ Hl). destruct c; by intros [= <-].
Qed.

Lemma spread_heap l h p h' : spread l h = Some (p, h') → h' = h.
Proof. unfold spread. destruct (h !! l) as [[]|]; by intros [= _ <-]. Qed.

Lemma call_InjectedFn_spread n f extra args s k s1 kp ep :
  call n f args s = Some (VRef k, s1) →
  s1.1 !! k = Some (Obj kp) →
  spread extra s1.1 = Some (ep, s1.1) →
  call (S n) (InjectedFn f extra) args s
  = Some (VRef (length s1.1), (s1.1 ++ [Obj (ep ∪ kp)], s1.2)).
Proof.
  intros Hcall Hk Hextra. cbn [call].
  rewrite (bind_Some _ _ _ _ _ Hcall). rewrite Hk.
  unfold liftH. rewrite (bind_Some _ _ _ _ _ Hextra). done.
Qed.

(** Wrapping a second time with the same [extra] does not change the fields of
    the returned key. *)
Lemma wrapper_idempotent n f extra args s fields :
  callForKey (S n) (VFun (InjectedFn f extra)) args s = Some fields →
  callForKey (S (S n)) (VFun (InjectedFn (InjectedFn f extra) extra)) args s
  = Some fields.
Proof.
  unfold callForKey.
  destruct (call n f args s) as [[v s1]|] eqn:Hcall.
  2:{ cbn [call]. by rewrite (bind_None _ _ _ Hcall). }
  assert (∀ k kp, v = VRef k → s1.1 !! k = Some (Obj kp) → 
          match call (S n) (InjectedFn f extra) args s with
          | Some (v, s') => fieldsOf s'.1 v
          | None => None
          end = Some fields →
          match call (S (S n)) (InjectedFn (InjectedFn f extra) extra) args s with
          | Some (v, s') => fieldsOf s'.1 v
          | None => None
          end = Some fields) as Hplain.
  { intros k kp -> Hk.
    destruct (spread extra s1.1) as [[ep hh]|] eqn:He.
    - pose proof (spread_heap _ _ _ _ He) as ->.
      rewrite (call_InjectedFn_spread n f extra args s k s1 kp ep) by done.
      cbn [fst fieldsOf]. rewrite lookup_app_length. cbn [lookup list_lookup].
      intros [= <-].
      rewrite (call_InjectedFn_spread (S n) (InjectedFn f extra) extra args s
                 (length s1.1) (s1.1 ++ [Obj (ep ∪ kp)], s1.2) (ep ∪ kp) ep).
      + cbn [fst fieldsOf]. rewrite lookup_app_length. cbn [lookup list_lookup].
        by rewrite (assoc_L (∪)), (idemp_L (∪) ep).
      + by apply (call_InjectedFn_spread n f extra args s k s1 kp ep).
      + cbn [fst]. by rewrite lookup_app_length.
      + cbn [fst]. by apply spread_app.
    - cbn [call]. rewrite (bind_Some _ _ _ _ _ Hcall). rewrite Hk.
      unfold liftH. by rewrite (bind_None _ _ _ He). }
  destruct v as [| | | | |k|g].
  1-5,7: rewrite (call_InjectedFn_other n f extra args s _ s1 Hcall) by done;
         done.
  destruct (s1.1 !! k) as [[kp|elems]|] eqn:Hk.
  - by apply (Hplain k kp).
  - rewrite (call_InjectedFn_other n f extra args s _ s1 Hcall).
    + cbn [fst fieldsOf]. by rewrite Hk.
    + intros k' [= <-]. eauto.
  - cbn [call]. rewrite (bind_Some _ _ _ _ _ Hcall). by rewrite Hk.
Qed.

Lemma fieldsOf_flatPreserved h h' v :
  flatPreserved h h' → inert h v → fieldsOf h' v = fieldsOf h v.
Proof.
  intros Hfp. destruct v as [| | | | |m|]; try done.
  intros (pm & Hm & Hpm). cbn [fieldsOf]. by rewrite Hm, (Hfp _ _ Hm Hpm).
Qed.


(** ** The end-to-end scenario *)

Lemma buildInjected_run E ep h0 n :
  primFields ep →
  let h2 := (h0 ++ crudCells E (length h0)) ++ [Obj ep] in
  ∃ h',
    buildInjected E ep (S (S (S (S n)))) h0
    = Some ((VRef (length h0 + 10), (length h0 + 11)%nat), h') ∧
    (∀ name l p, crudGroup (length h0) !! name = Some (VRef l) →
                 h2 !! l = Some (Obj p) →
                 opInjected (length h0 + 11) ep h2 h' l p) ∧
    flatPreserved h2 h' ∧
    groupAt h' (length h0 + 10) (crudGroup (length h0)).
Proof.
  intros Hep h2.
  assert (h2 !! (length h0 + 11)%nat = Some (Obj ep)) as Hextra.
  { unfold h2. rewrite <- app_assoc. by rewrite lookup_app_plus. }
  destruct (inject_group (length h0 + 11) ep h2 (length h0 + 10)
              (crudGroup (length h0)) n) as (h' & Hrun & Hops & Hflat & Hg');
    [apply (crud_groupAt E), preserved_app|done..|].
  exists h'. split; [|done].
  unfold buildInjected.
  rewrite (bind_Some _ _ _ _ _ (createQueryGroupCRUD_cells E h0)).
  rewrite (bind_Some _ _ _ (length h0 + 11)%nat h2).
  2:{ unfold alloc. rewrite length_app. done. }
  by rewrite (bind_Some _ _ _ _ _ Hrun).
Qed.

Lemma crud_cell_extra E h0 ep k c :
  crudCells E (length h0) !! k = Some c →
  ((h0 ++ crudCells E (length h0)) ++ [Obj ep]) !! (length h0 + k)%nat = Some c.
Proof.
  intros Hk. apply lookup_app_l_Some. by rewrite lookup_app_plus.
Qed.

(** C4. The CRUD group built for [E] and then injected with an [extra] of
    primitive fields [ep] has, under every static [queryKey], the fields of
    the original key with those of [extra] merged on top, and every function
    [queryKey] returns for the identifier [i] the original key merged in the
    same way.  With [E = "accounts"], [extra = {auth: true}] and [i = "42"]:
    [list.queryKey] is [{entity: "accounts", method: "list", auth: true}] and
    [detail.queryKey("42")] is [{entity: "accounts", method: "detail",
    id: "42", auth: true}]. *)
Theorem crud_inject_queryKeys (E : string) (ep : gmap string value) (h0 : heap)
    (n : nat) :
  primFields ep →
  ∃ g extra h',
    buildInjected E ep (S (S (S (S n)))) h0 = Some ((g, extra), h') ∧
    staticKey h' g "all" = Some (ep ∪ {[ "entity" := VStr E ]}) ∧
    staticKey h' g "list"
      = Some (ep ∪ {[ "entity" := VStr E; "method" := VStr "list" ]}) ∧
    staticKey h' g "create"
      = Some (ep ∪ {[ "entity" := VStr E; "method" := VStr "create" ]}) ∧
    ∀ (i : value) (c : cache) (m : nat),
      dynamicKey (S (S m)) (h', c) g "detail" i
        = Some (ep ∪ {[ "entity" := VStr E; "method" := VStr "detail"; "id" := i ]}) ∧
      dynamicKey (S (S m)) (h', c) g "update" i
        = Some (ep ∪ {[ "entity" := VStr E; "method" := VStr "update"; "id" := i ]}) ∧
      dynamicKey (S (S m)) (h', c) g "remove" i
        = Some (ep ∪ {[ "entity" := VStr E; "method" := VStr "remove"; "id" := i ]}).
Proof.
  intros Hep.
  destruct (buildInjected_run E ep h0 n Hep) as (h' & Hrun & Hops & Hflat & Hg').
  destruct Hg' as (Hg' & _).
  exists (VRef (length h0 + 10)), (length h0 + 11)%nat, h'.
  split; [done|].
  set (h2 := (h0 ++ crudCells E (length h0)) ++ [Obj ep]) in *.
  assert (h2 !! length h0 = Some (Obj {[ "entity" := VStr E ]})) as Hall.
  { apply lookup_app_l_Some. by rewrite lookup_app_length. }
  assert (∀ name l p q qp,
            crudGroup (length h0) !! name = Some (VRef l) →
            h2 !! l = Some (Obj p) →
            p !! "queryKey" = Some (VRef q) →
            h2 !! q = Some (Obj qp) →
            staticKey h' (VRef (length h0 + 10)) name = Some (ep ∪ qp)) as Hstatic.
  { intros name l p q qp Hname Hl Hq Hqp.
    by apply (injected_staticKey (length h0 + 11) ep h2 h' _ _ name l p Hg' Hname
                (Hops name l p Hname Hl) q). }
  assert (∀ name l p f kd i c m,
            crudGroup (length h0) !! name = Some (VRef l) →
            h2 !! l = Some (Obj p) →
            p !! "queryKey" = Some (VFun f) →
            (∀ hc, call (S m) f [i] (hc, c)
                   = Some (VRef (length hc), (hc ++ [Obj kd], c))) →
            dynamicKey (S (S m)) (h', c) (VRef (length h0 + 10)) name i
            = Some (ep ∪ kd)) as Hdynamic.
  { intros name l p f kd i c m Hname Hl Hq Hf.
    unfold dynamicKey. cbn [fst].
    rewrite (injected_functionKey (length h0 + 11) ep h2 h' _ _ name l p Hg' Hname
               (Hops name l p Hname Hl) f Hq).
    cbn [mbind option_bind].
    apply (callForKey_InjectedFn _ _ _ _ _ (length h') (h' ++ [Obj kd], c)).
    - apply Hf.
    - cbn [fst]. by rewrite lookup_app_length.
    - cbn [fst]. apply lookup_app_l_Some, Hflat; [|done].
      unfold h2. rewrite <- app_assoc. by rewrite lookup_app_plus. }
  repeat split.
  - by apply (Hstatic "all" (length h0 + 1)%nat _ (length h0) _ eq_refl
                (crud_cell_extra E h0 ep 1 _ eq_refl)).
  - by apply (Hstatic "list" (length h0 + 3)%nat _ (length h0 + 2)%nat _ eq_refl
                (crud_cell_extra E h0 ep 3 _ eq_refl) eq_refl
                (crud_cell_extra E h0 ep 2 _ eq_refl)).
  - by apply (Hstatic "create" (length h0 + 7)%nat _ (length h0 + 5)%nat _ eq_refl
                (crud_cell_extra E h0 ep 7 _ eq_refl) eq_refl
                (crud_cell_extra E h0 ep 5 _ eq_refl)).
  - apply (Hdynamic "detail" (length h0 + 4)%nat _ (KeyFn E "detail") _ i c m
             eq_refl (crud_cell_extra E h0 ep 4 _ eq_refl) eq_refl).
    intros hc. apply call_KeyFn.
  - apply (Hdynamic "update" (length h0 + 8)%nat _ (KeyFn E "update") _ i c m
             eq_refl (crud_cell_extra E h0 ep 8 _ eq_refl) eq_refl).
    intros hc. apply call_KeyFn.
  - apply (Hdynamic "remove" (length h0 + 9)%nat _ (KeyFn E "remove") _ i c m
             eq_refl (crud_cell_extra E h0 ep 9 _ eq_refl) eq_refl).
    intros hc. apply call_KeyFn.
Qed.

(** ** Injecting twice *)

(** C8. Injecting a tree of plain objects twice with the same [extra] (of
    primitive fields) gives the same keys as injecting it once: both runs
    return their argument and leave [extra] as it was, and every static
    [queryKey] holds after the second run the same fields as after the first
    (those of the original key with those of [extra] on top).  Every function
    [queryKey] is wrapped once by each run; whenever the original function
    returns a key of fields [kp], the function wrapped once and the function
    wrapped twice both return, for the same arguments in the same state, a key
    of fields [ep ∪ kp]; and whatever key the function wrapped once returns,
    the function wrapped twice returns one with the same fields. *)
Theorem inject_twice_same_keys (extra : loc) (ep : gmap string value)
    (h : heap) (d : nat) (v : value) (F : gset loc) (n : nat) :
  treeAt d h v F →
  h !! extra = Some (Obj ep) →
  primFields ep →
  ∃ h1 h2,
    inyectKeysToQueries (S (S (d + n))) v extra h = Some (v, h1) ∧
    inyectKeysToQueries (S (S (d + n))) v extra h1 = Some (v, h2) ∧
    h1 !! extra = Some (Obj ep) ∧
    h2 !! extra = Some (Obj ep) ∧
    ∀ l p, reachable h v l → h !! l = Some (Obj p) →
      (∀ q qp, p !! "queryKey" = Some (VRef q) → h !! q = Some (Obj qp) →
         propFields h1 (VRef l) "queryKey" = Some (ep ∪ qp) ∧
         propFields h2 (VRef l) "queryKey" = Some (ep ∪ qp)) ∧
      (∀ f, p !! "queryKey" = Some (VFun f) →
         field h1 (VRef l) "queryKey" = Some (VFun (InjectedFn f extra)) ∧
         field h2 (VRef l) "queryKey"
           = Some (VFun (InjectedFn (InjectedFn f extra) extra)) ∧
         (∀ m args s k s1 kp,
            call m f args s = Some (VRef k, s1) →
            s1.1 !! k = Some (Obj kp) →
            s1.1 !! extra = Some (Obj ep) →
            callForKey (S m) (VFun (InjectedFn f extra)) args s = Some (ep ∪ kp) ∧
            callForKey (S (S m)) (VFun (InjectedFn (InjectedFn f extra) extra)) args s
            = Some (ep ∪ kp)) ∧
         ∀ m args s fields,
           callForKey (S m) (VFun (InjectedFn f extra)) args s = Some fields →
           callForKey (S (S m)) (VFun (InjectedFn (InjectedFn f extra) extra)) args s
           = Some fields).
Proof.
  intros Htree Hextra Hep.
  destruct (process_tree extra ep d Hep n h v F Htree Hextra) as (h1 & Hrun1 & Hinj1).
  pose proof Hinj1 as (_ & Hops1 & Hflat1 & _).
  assert (h1 !! extra = Some (Obj ep)) as Hextra1 by (by apply Hflat1).
  assert (treeAt d h1 v F) as Htree1 by (by apply (treeAt_injected extra ep d Hep h)).
  destruct (process_tree extra ep d Hep n h1 v F Htree1 Hextra1)
    as (h2 & Hrun2 & Hinj2).
  pose proof Hinj2 as (_ & Hops2 & Hflat2 & _).
  exists h1, h2. split; [done|]. split; [done|].
  split; [done|]. split; [by apply Hflat2|].
  intros l p Hreach Hl.
  pose proof (reachable_injected extra ep d h h1 v F l p Htree Hinj1 Hreach Hl) as Hop1.
  destruct (injected_cell extra ep h h1 l p Hop1) as (p1 & Hl1 & _).
  assert (opInjected extra ep h1 h2 l p1) as Hop2.
  { destruct (reachable_tree d h v F l Htree Hreach) as [Hin|(p' & Hl' & Hp')].
    - by apply Hops2.
    - rewrite Hl in Hl'. injection Hl' as <-.
      rewrite (Hflat1 _ _ Hl Hp') in Hl1. injection Hl1 as <-.
      apply flat_opInjected; [done| |done]. by apply Hflat1. }
  split.
  - intros q qp Hq Hqp.
    split; [by apply (injected_node_static extra ep h h1 l p Hop1 q)|].
    unfold opInjected in Hop1. rewrite Hq in Hop1.
    destruct Hop1 as (k & qp' & Hqp' & _ & Hl1' & Hk1).
    rewrite Hqp in Hqp'. injection Hqp' as <-.
    rewrite Hl1 in Hl1'. injection Hl1' as ->.
    rewrite (injected_node_static extra ep h1 h2 l _ Hop2 k (ep ∪ qp)).
    + by rewrite (assoc_L (∪)), (idemp_L (∪) ep).
    + by rewrite lookup_insert_eq.
    + done.
  - intros f Hq.
    split; [by apply (injected_node_function extra ep h h1 l p)|].
    split; [|split; [|intros m args s fields; apply wrapper_idempotent]].
    + unfold opInjected in Hop1. rewrite Hq in Hop1.
      rewrite Hl1 in Hop1. injection Hop1 as ->.
      apply (injected_node_function extra ep h1 h2 l _ Hop2).
      by rewrite lookup_insert_eq.
    + intros m args s k s1 kp Hcall Hk He.
      pose proof (callForKey_InjectedFn m f extra args s k s1 kp ep Hcall Hk He)
        as Honce.
      split; [exact Honce|]. by apply wrapper_idempotent.
Qed.

(** ** [normalize] on an injected CRUD group *)

Lemma field_preserved h h' v name x :
  preserved h h' → field h v name = Some x → field h' v name = Some x.
Proof.
  intros Hp. unfold field, fieldsOf. destruct v as [| | | | |l|]; try done.
  destruct (h !! l) as [c|] eqn:Hl; [|done]. by rewrite (Hp _ _ Hl).
Qed.

Lemma normalizeOf_preserved h h' g op x :
  preserved h h' → normalizeOf h g op = Some x → normalizeOf h' g op = Some x.
Proof.
  intros Hp. unfold normalizeOf.
  destruct (field h g op) as [o|] eqn:Ho; [|done]. cbn [mbind option_bind].
  rewrite (field_preserved _ _ _ _ _ Hp Ho). cbn [mbind option_bind].
  by apply field_preserved.
Qed.

Lemma normalizable_preserved fuel h h' g ls ds :
  preserved h h' → normalizable fuel h g ls ds → normalizable fuel h' g ls ds.
Proof.
  intros Hp (lst & det & lp & lk & dp & f & Hdn & Hcn & Hun & Hrn
             & Hl & Hlq & Hlk & Hd & Hdq & Hf).
  exists lst, det, lp, lk, dp, f.
  repeat split; eauto using normalizeOf_preserved.
  intros i hc c Hhc. apply Hf. by eapply preserved_trans.
Qed.

Lemma opInjected_static extra ep h h' l p q :
  opInjected extra ep h h' l p →
  p !! "queryKey" = Some (VRef q) →
  ∃ k qp, h !! q = Some (Obj qp) ∧
          h' !! l = Some (Obj (<["queryKey" := VRef k]> p)) ∧
          h' !! k = Some (Obj (ep ∪ qp)).
Proof.
  unfold opInjected. intros Hop Hq. rewrite Hq in Hop.
  destruct Hop as (k & qp & ? & ? & ? & ?). by exists k, qp.
Qed.

Lemma opInjected_function extra ep h h' l p f :
  opInjected extra ep h h' l p →
  p !! "queryKey" = Some (VFun f) →
  h' !! l = Some (Obj (<["queryKey" := VFun (InjectedFn f extra)]> p)).
Proof. unfold opInjected. intros Hop Hq. by rewrite Hq in Hop. Qed.

Lemma injected_crud_normalizable E ep h0 n m h' g extra :
  primFields ep →
  buildInjected E ep (S (S (S (S n)))) h0 = Some ((g, extra), h') →
  normalizable (S (S m)) h' g (ep ∪ listFields E) (λ i, ep ∪ detailFields E i).
Proof.
  intros Hep Hbuild.
  destruct (buildInjected_run E ep h0 n Hep) as (h'' & Hrun & Hops & Hflat & Hg').
  rewrite Hrun in Hbuild. injection Hbuild as <- <- <-.
  destruct Hg' as (Hg' & _).
  set (h2 := (h0 ++ crudCells E (length h0)) ++ [Obj ep]) in *.
  pose proof (Hops "list" (length h0 + 3)%nat _ eq_refl
                (crud_cell_extra E h0 ep 3 _ eq_refl)) as Hlist.
  apply (opInjected_static _ _ _ _ _ _ (length h0 + 2)%nat) in Hlist; [|done].
  destruct Hlist as (k & qp & Hqp & Hl & Hk).
  unfold h2 in Hqp. rewrite (crud_cell_extra E h0 ep 2 _ eq_refl) in Hqp.
  injection Hqp as <-.
  pose proof (Hops "detail" (length h0 + 4)%nat _ eq_refl
                (crud_cell_extra E h0 ep 4 _ eq_refl)) as Hdetail.
  apply (opInjected_function _ _ _ _ _ _ (KeyFn E "detail")) in Hdetail; [|done].
  assert (h'' !! (length h0 + 11)%nat = Some (Obj ep)) as Hextra.
  { apply Hflat; [|done]. unfold h2. rewrite <- app_assoc.
    by rewrite lookup_app_plus. }
  eexists (length h0 + 3)%nat, (length h0 + 4)%nat, _, k, _,
    (InjectedFn (KeyFn E "detail") (length h0 + 11)).
  split; [|split; [|split; [|split; [|split; [|split; [|split; [|split;
    [|split]]]]]]]].
  - unfold normalizeOf.
    rewrite (injected_other (length h0 + 11) ep h2 h'' _ _ "detail" _ _ Hg'
               eq_refl (Hops "detail" _ _ eq_refl
                          (crud_cell_extra E h0 ep 4 _ eq_refl)) "normalize")
      by (intro; discriminate).
    gmap_lookup. reflexivity.
  - unfold normalizeOf.
    rewrite (injected_other (length h0 + 11) ep h2 h'' _ _ "create" _ _ Hg'
               eq_refl (Hops "create" _ _ eq_refl
                          (crud_cell_extra E h0 ep 7 _ eq_refl)) "normalize")
      by (intro; discriminate).
    gmap_lookup. reflexivity.
  - unfold normalizeOf.
    rewrite (injected_other (length h0 + 11) ep h2 h'' _ _ "update" _ _ Hg'
               eq_refl (Hops "update" _ _ eq_refl
                          (crud_cell_extra E h0 ep 8 _ eq_refl)) "normalize")
      by (intro; discriminate).
    gmap_lookup. reflexivity.
  - unfold normalizeOf.
    rewrite (injected_other (length h0 + 11) ep h2 h'' _ _ "remove" _ _ Hg'
               eq_refl (Hops "remove" _ _ eq_refl
                          (crud_cell_extra E h0 ep 9 _ eq_refl)) "normalize")
      by (intro; discriminate).
    gmap_lookup. reflexivity.
  - exact Hl.
  - by rewrite lookup_insert_eq.
  - exact Hk.
  - exact Hdetail.
  - by rewrite lookup_insert_eq.
  - intros i hc c Hhc.
    exists (length hc + 1)%nat,
      [Obj (detailFields E i); Obj (ep ∪ detailFields E i)].
    rewrite (call_InjectedFn_merges (S m) (KeyFn E "detail") (length h0 + 11) [i]
               (hc, c) (length hc) (hc ++ [Obj (detailFields E i)], c)
               (detailFields E i) ep).
    + cbn [fst snd]. rewrite length_app, <- app_assoc. cbn [length app].
      split; [done|]. by rewrite lookup_app_plus.
    + apply call_KeyFn.
    + cbn [fst]. by rewrite lookup_app_length.
    + cbn [fst]. by apply lookup_app_l_Some, Hhc.
Qed.

(** C9. After a CRUD group is built and injected in place, the [normalize]
    callbacks of [create], [update], [remove] and [detail] read and write the
    cache under the injected keys: the list entry is the one named by
    [{entity: E, method: "list", ...extra}] and the detail entry the one named
    by [{entity: E, method: "detail", id: i, ...extra}]. *)
Theorem injected_normalize_uses_injected_keys (E : string)
    (ep : gmap string value) (h0 h' hx : heap) (g : value) (extra : loc)
    (c : cache) (data i : value) (n m : nat) :
  primFields ep →
  buildInjected E ep (S (S (S (S n)))) h0 = Some ((g, extra), h') →
  idOf (h' ++ hx) data = Some i →
  let ls := ep ∪ listFields E in
  let dsl := ep ∪ detailFields E i in
  (c ls = VUndefined →
   ∃ h'' a,
     callNormalize (S (S (S m))) (h' ++ hx, c) g "create" data
       = Some (h'', setEntry dsl data (setEntry ls (VRef a) c)) ∧
     h'' !! a = Some (Arr [data])) ∧
  (∀ a0 items,
   c ls = VRef a0 →
   (h' ++ hx) !! a0 = Some (Arr items) →
   Forall (λ item, is_Some (idOf (h' ++ hx) item)) items →
   (∃ h'' a,
     callNormalize (S (S (S m))) (h' ++ hx, c) g "create" data
       = Some (h'', setEntry dsl data (setEntry ls (VRef a) c)) ∧
     h'' !! a = Some (Arr (items ++ [data]))) ∧
   (∃ h'' a,
     callNormalize (S (S (S m))) (h' ++ hx, c) g "update" data
       = Some (h'', setEntry dsl data (setEntry ls (VRef a) c)) ∧
     h'' !! a = Some (Arr (replaced (h' ++ hx) i data items))) ∧
   (∃ h'' a,
     callNormalize (S (S (S m))) (h' ++ hx, c) g "remove" data
       = Some (h'', setEntry dsl VUndefined (setEntry ls (VRef a) c)) ∧
     h'' !! a = Some (Arr (removed (h' ++ hx) i items))) ∧
   (∃ h'' a,
     callNormalize (S (S (S m))) (h' ++ hx, c) g "detail" data
       = Some (h'', setEntry ls (VRef a) c) ∧
     h'' !! a = Some (Arr (replaced (h' ++ hx) i data items)))).
Proof.
  intros Hep Hbuild Hid ls dsl. subst ls dsl.
  pose proof (normalizable_preserved _ _ (h' ++ hx) _ _ _ (preserved_app _ _)
                (injected_crud_normalizable E ep h0 n m h' g extra Hep Hbuild))
    as Hnz.
  split.
  - intros Hold.
    destruct (create_normalize_absent _ _ _ _ _ Hnz c data i Hid)
      as (h'' & a & Hrun & Ha & _); [by rewrite Hold|].
    by exists h'', a.
  - intros a0 items Hold Ha0 Hitems. repeat split.
    + destruct (create_normalize_list _ _ _ _ _ Hnz c data i Hid a0 items Hold Ha0)
        as (h'' & a & Hrun & Ha & _).
      by exists h'', a.
    + destruct (update_normalize_list _ _ _ _ _ Hnz c data i Hid a0 items
                  Hitems Hold Ha0) as (h'' & a & Hrun & Ha & _).
      by exists h'', a.
    + destruct (remove_normalize_list _ _ _ _ _ Hnz c data i Hid a0 items
                  Hitems Hold Ha0) as (h'' & a & Hrun & Ha & _).
      by exists h'', a.
    + destruct (detail_normalize_list _ _ _ _ _ Hnz c data i Hid a0 items
                  Hitems Hold Ha0) as (h'' & a & Hrun & Ha & _).
      by exists h'', a.
Qed.

(** ** Concrete runs *)


Lemma accountsHeap_groupAt : groupAt accountsHeap 10 (crudGroup 0).
Proof. apply (crud_groupAt "accounts" [] accountsHeap), (preserved_app _ [_]). Qed.

(** An object whose one property holds a tree is a tree. *)
Lemma treeAt_wrap d h r name v F :
  treeAt d h v F →
  h !! r = Some (Obj {[ name := v ]}) →
  name ≠ "queryKey" →
  r ∉ F →
  treeAt (S d) h (VRef r) ({[ r ]} ∪ F).
Proof.
  intros Htree Hr Hname Hfresh. right.
  exists r, {[ name := v ]}, (λ k, if decide (k = name) then F else ∅).
  split; [done|]. split; [done|]. split; [by rewrite decide_False|].
  split; [|split; [|split]].
  - intros k x [<- <-]%lookup_singleton_Some. by rewrite decide_True.
  - intros n1 n2 Hne m H1 H2. destruct (decide (n1 = name)) as [->|];
      [|by apply not_elem_of_empty in H1].
    rewrite decide_False in H2 by done. by apply not_elem_of_empty in H2.
  - intros k Hin. destruct (decide (k = name)); [done|].
    by apply not_elem_of_empty in Hin.
  - intros m. rewrite elem_of_union, elem_of_singleton.
    split; (intros [->|H]; [by left|right]).
    + exists name. rewrite lookup_singleton_eq, decide_True by done. eauto.
    + destruct H as (k & _ & Hm). destruct (decide (k = name)); [done|].
      by apply not_elem_of_empty in Hm.
Qed.

Lemma nestedHeap_treeAt :
  treeAt 3 nestedHeap (VRef 12) ({[ 12%nat ]} ∪ groupNodes 10 (crudGroup 0)).
Proof.
  apply (treeAt_wrap 2 nestedHeap 12 "accounts" (VRef 10)); [|done..|].
  - apply groupAt_treeAt.
    apply (crud_groupAt "accounts" [] nestedHeap).
    apply preserved_app_r, (preserved_app _ [_]).
  - intros [H|(name & Hname)]%elem_of_groupNodes; [lia|].
    destruct (accountsHeap_groupAt) as (_ & _ & Hm & _).
    by destruct (Hm _ _ Hname) as (p & Hp & _).
Qed.

Lemma authExtra_prims : primFields authExtra.
Proof. unfold authExtra. prims. Qed.


Lemma crud_inject_queryKeys_accounts :
  primFields authExtra ∧
  ∃ g extra h',
    buildInjected "accounts" authExtra 4 [] = Some ((g, extra), h') ∧
    staticKey h' g "list"
      = Some {[ "entity" := VStr "accounts"; "method" := VStr "list";
                "auth" := VBool true ]} ∧
    dynamicKey 2 (h', emptyCache) g "detail" (VStr "42")
      = Some {[ "entity" := VStr "accounts"; "method" := VStr "detail";
                "id" := VStr "42"; "auth" := VBool true ]}.
Proof.
  split; [exact authExtra_prims|].
  destruct (crud_inject_queryKeys "accounts" authExtra [] 0 authExtra_prims)
    as (g & extra & h' & Hrun & _ & Hlist & _ & Hdyn).
  exists g, extra, h'. split; [exact Hrun|]. split; [exact Hlist|].
  exact (proj1 (Hdyn (VStr "42") emptyCache 0%nat)).
Defined.

Lemma inject_twice_same_keys_nested :
  treeAt 3 nestedHeap (VRef 12) ({[ 12%nat ]} ∪ groupNodes 10 (crudGroup 0)) ∧
  nestedHeap !! 11%nat = Some (Obj authExtra) ∧
  primFields authExtra ∧
  ∃ h1 h2,
    inyectKeysToQueries 5 (VRef 12) 11 nestedHeap = Some (VRef 12, h1) ∧
    inyectKeysToQueries 5 (VRef 12) 11 h1 = Some (VRef 12, h2) ∧
    propFields h1 (VRef 3) "queryKey" = Some (authExtra ∪ listFields "accounts") ∧
    propFields h2 (VRef 3) "queryKey" = Some (authExtra ∪ listFields "accounts") ∧
    field h2 (VRef 4) "queryKey"
      = Some (VFun (InjectedFn (InjectedFn (KeyFn "accounts" "detail") 11) 11)) ∧
    callForKey 2 (VFun (InjectedFn (KeyFn "accounts" "detail") 11)) [VStr "42"]
      (h2, emptyCache)
      = Some (authExtra ∪ detailFields "accounts" (VStr "42")) ∧
    callForKey 3 (VFun (InjectedFn (InjectedFn (KeyFn "accounts" "detail") 11) 11))
      [VStr "42"] (h2, emptyCache)
      = Some (authExtra ∪ detailFields "accounts" (VStr "42")).
Proof.
  split; [exact nestedHeap_treeAt|]. split; [reflexivity|].
  split; [exact authExtra_prims|].
  destruct (inject_twice_same_keys 11 authExtra nestedHeap 3 (VRef 12) _ 0
              nestedHeap_treeAt eq_refl authExtra_prims)
    as (h1 & h2 & Hrun1 & Hrun2 & _ & Hextra2 & Hops).
  exists h1, h2. split; [exact Hrun1|]. split; [exact Hrun2|].
  destruct (Hops 3%nat _
              (reach_prop nestedHeap 12 _ "accounts" (VRef 10) 3 eq_refl eq_refl
                 (reach_prop nestedHeap 10 _ "list" (VRef 3) 3 eq_refl eq_refl
                    (reach_here nestedHeap 3))) eq_refl)
    as (Hstatic & _).
  destruct (Hops 4%nat _
              (reach_prop nestedHeap 12 _ "accounts" (VRef 10) 4 eq_refl eq_refl
                 (reach_prop nestedHeap 10 _ "detail" (VRef 4) 4 eq_refl eq_refl
                    (reach_here nestedHeap 4))) eq_refl)
    as (_ & Hfun).
  destruct (Hstatic 2%nat _ eq_refl eq_refl) as (H1 & H2).
  split; [exact H1|]. split; [exact H2|].
  destruct (Hfun _ eq_refl) as (_ & Hwrapped & Hcall & _).
  split; [exact Hwrapped|].
  apply (Hcall 1%nat [VStr "42"] (h2, emptyCache) (length h2)
           (h2 ++ [Obj (detailFields "accounts" (VStr "42"))], emptyCache)
           (detailFields "accounts" (VStr "42"))).
  - reflexivity.
  - cbn [fst]. rewrite lookup_app_length. reflexivity.
  - cbn [fst]. apply lookup_app_l_Some. exact Hextra2.
Defined.

Lemma batch_calls_per_truthy_key_example :
  optionsAt exactOptionsHeap (Some 2%nat) {[ "exact" := VBool true ]} ∧
  optionsAt twoKeysHeap None ∅ ∧
  invalidateQueriesForKeys [VNull; VRef 0; VUndefined; VRef 1] (Some 2%nat)
    (exactOptionsHeap, [])
    = Some (tt, (exactOptionsHeap ++ [Arr [VRef 0]; Arr [VRef 1]],
                 [ InvalidateQueries {[ "exact" := VBool true; "queryKey" := VRef 3 ]};
                   InvalidateQueries {[ "exact" := VBool true; "queryKey" := VRef 4 ]} ])) ∧
  invalidateQueriesForKeys [VNull; VRef 0; VUndefined; VRef 1] None (twoKeysHeap, [])
    = Some (tt, (twoKeysHeap ++ [Arr [VRef 0]; Arr [VRef 1]],
                 [ InvalidateQueries {[ "queryKey" := VRef 2 ]};
                   InvalidateQueries {[ "queryKey" := VRef 3 ]} ])) ∧
  cancelQueriesForKeys [VNull; VRef 0; VUndefined; VRef 1] (twoKeysHeap, [])
    = Some (tt, (twoKeysHeap ++ [Arr [VRef 0]; Arr [VRef 1]],
                 [ CancelQueries {[ "queryKey" := VRef 2 ]};
                   CancelQueries {[ "queryKey" := VRef 3 ]} ])).
Proof.
  split; [reflexivity|]. split; [reflexivity|].
  split.
  - exact (proj1 (batch_calls_per_truthy_key [VNull; VRef 0; VUndefined; VRef 1]
                    (Some 2%nat) {[ "exact" := VBool true ]} exactOptionsHeap []
                    eq_refl)).
  - exact (conj
      (proj1 (batch_calls_per_truthy_key [VNull; VRef 0; VUndefined; VRef 1] None ∅
                twoKeysHeap [] eq_refl))
      (proj1 (proj2 (batch_calls_per_truthy_key [VNull; VRef 0; VUndefined; VRef 1]
                       None ∅ twoKeysHeap [] eq_refl)))).
Defined.

Lemma invalidate_options_queryKey_overrides_example :
  spreadOptions (Some 3%nat) optionsHeap
    = Some ({[ "queryKey" := VRef 2; "exact" := VBool true ]}, optionsHeap) ∧
  ({[ "queryKey" := VRef 2; "exact" := VBool true ]} : gmap string value)
    !! "queryKey" = Some (VRef 2) ∧
  ∃ h',
    invalidateQueriesForKeys [VRef 0] (Some 3%nat) (optionsHeap, [])
    = Some (tt, (h', [ InvalidateQueries
                         {[ "queryKey" := VRef 2; "exact" := VBool true ]} ])).
Proof.
  split; [reflexivity|]. split; [reflexivity|].
  destruct (invalidate_options_queryKey_overrides [VRef 0] 3
              {[ "queryKey" := VRef 2; "exact" := VBool true ]} (VRef 2)
              optionsHeap [] eq_refl eq_refl) as (h' & Hrun & _).
  exists h'. exact Hrun.
Defined.

Lemma crud_create_normalize_example :
  createQueryGroupCRUD "accounts" [] = Some (VRef 10, crudCells "accounts" 0) ∧
  idOf (crudCells "accounts" 0 ++ [newAccount]) (VRef 11) = Some (VStr "x") ∧
  ∃ h' c' a,
    callNormalize 2 (crudCells "accounts" 0 ++ [newAccount], emptyCache) (VRef 10)
      "create" (VRef 11) = Some (h', c') ∧
    c' (listFields "accounts") = VRef a ∧ h' !! a = Some (Arr [VRef 11]) ∧
    c' (detailFields "accounts" (VStr "x")) = VRef 11.
Proof.
  split; [reflexivity|]. split; [reflexivity|].
  destruct (proj1 (crud_create_normalize "accounts" [] (crudCells "accounts" 0)
                     [newAccount] (VRef 10) emptyCache (VRef 11) (VStr "x") 0
                     eq_refl eq_refl) eq_refl)
    as (h' & c' & a & Hrun & Hlist & Ha & Hdetail & _).
  exists h', c', a. repeat split; assumption.
Defined.

Lemma crud_update_remove_normalize_example :
  createQueryGroupCRUD "accounts" [] = Some (VRef 10, crudCells "accounts" 0) ∧
  idOf listCacheHeap (VRef 11) = Some (VStr "a") ∧
  (∃ h' c' a,
    callNormalize 2 (listCacheHeap, listCache) (VRef 10) "update" (VRef 11)
      = Some (h', c') ∧
    c' (listFields "accounts") = VRef a ∧
    h' !! a = Some (Arr [VRef 11; VRef 13]) ∧
    c' (detailFields "accounts" (VStr "a")) = VRef 11) ∧
  (∃ h' c' a,
    callNormalize 2 (listCacheHeap, listCache) (VRef 10) "remove" (VRef 11)
      = Some (h', c') ∧
    c' (listFields "accounts") = VRef a ∧
    h' !! a = Some (Arr [VRef 13]) ∧
    c' (detailFields "accounts" (VStr "a")) = VUndefined).
Proof.
  split; [reflexivity|]. split; [reflexivity|].
  refine (proj1 (crud_update_remove_normalize "accounts" []
                   (crudCells "accounts" 0) listCacheItems (VRef 10) listCache (VRef 11)
                   (VStr "a") 0 eq_refl eq_refl)
            14%nat [VRef 12; VRef 13] _ eq_refl _).
  - apply setEntry_eq.
  - repeat constructor; eexists; reflexivity.
Defined.

(** [create.normalize({id: "x"})] on the injected group of ["accounts"]. *)
Lemma injected_normalize_uses_injected_keys_example :
  primFields authExtra ∧
  ∃ g extra h',
    buildInjected "accounts" authExtra 4 [] = Some ((g, extra), h') ∧
    idOf (h' ++ [Obj {[ "id" := VStr "x" ]}]) (VRef (length h')) = Some (VStr "x") ∧
    ∃ h'' a,
      callNormalize 3 (h' ++ [Obj {[ "id" := VStr "x" ]}], emptyCache) g "create"
        (VRef (length h'))
      = Some (h'',
              setEntry (authExtra ∪ detailFields "accounts" (VStr "x"))
                (VRef (length h'))
                (setEntry (authExtra ∪ listFields "accounts") (VRef a) emptyCache)) ∧
      h'' !! a = Some (Arr [VRef (length h')]).
Proof.
  split; [exact authExtra_prims|].
  destruct (buildInjected_run "accounts" authExtra [] 0 authExtra_prims)
    as (h' & Hrun & _).
  assert (idOf (h' ++ [Obj {[ "id" := VStr "x" ]}]) (VRef (length h'))
          = Some (VStr "x")) as Hid.
  { unfold idOf, getProp. rewrite lookup_app_length. reflexivity. }
  eexists _, _, h'. split; [exact Hrun|]. split; [exact Hid|].
  exact (proj1 (injected_normalize_uses_injected_keys "accounts" authExtra []
                  h' [Obj {[ "id" := VStr "x" ]}] _ _ emptyCache
                  (VRef (length h')) (VStr "x") 0 0 authExtra_prims Hrun Hid)
           eq_refl).
Defined.

(** * Further properties *)

(** ** Further properties of key injection *)

Lemma treeAt_reachable d : ∀ h v F m,
  treeAt d h v F → m ∈ F → reachable h v m.
Proof.
  induction d as [|d IH]; intros h v F m; cbn [treeAt].
  - intros [_ ->] Hm. by apply not_elem_of_empty in Hm.
  - intros [[_ ->]|(l & p & Fs & -> & Hl & _ & Hch & _ & _ & HF)] Hm.
    + by apply not_elem_of_empty in Hm.
    + apply HF in Hm as [->|(name & [x Hx] & Hm)]; [constructor|].
      eapply reach_prop; [done..|]. apply (IH h x (Fs name)); [by apply Hch|done].
Qed.

(** The injector writes to the objects it walks and to nothing else: an
    object that is not reached from the argument, or that has primitive
    fields only (a cache key, [extra] itself), is the same afterwards; a
    static key is never modified, the [queryKey] property is pointed to an
    object allocated by the run instead. *)
Theorem inject_writes_nodes_only (extra : loc) (ep : gmap string value)
    (h : heap) (d : nat) (v : value) (F : gset loc) (n : nat) :
  treeAt d h v F →
  h !! extra = Some (Obj ep) →
  primFields ep →
  ∃ h',
    inyectKeysToQueries (S (S (d + n))) v extra h = Some (v, h') ∧
    (∀ m c, h !! m = Some c → ¬ reachable h v m → h' !! m = Some c) ∧
    (∀ m pm, h !! m = Some (Obj pm) → primFields pm → h' !! m = Some (Obj pm)) ∧
    (∀ l p q qp, reachable h v l → h !! l = Some (Obj p) →
       p !! "queryKey" = Some (VRef q) → h !! q = Some (Obj qp) →
       h' !! q = Some (Obj qp) ∧
       ∃ k, (length h ≤ k)%nat ∧ field h' (VRef l) "queryKey" = Some (VRef k)).
Proof.
  intros Htree Hextra Hep.
  destruct (process_tree extra ep d Hep n h v F Htree Hextra) as (h' & Hrun & Hinj).
  exists h'. split; [done|].
  pose proof Hinj as (Hframe & Hops & Hflat & Hlen).
  split; [|split; [done|]].
  - intros m c Hm Hnot. apply Hframe; [done|]. intros Hin. apply Hnot.
    by apply (treeAt_reachable d h v F).
  - intros l p q qp Hreach Hl Hq Hqp.
    pose proof (reachable_injected extra ep d h h' v F l p Htree Hinj Hreach Hl) as Hop.
    unfold opInjected in Hop. rewrite Hq in Hop.
    destruct Hop as (k & qp' & Hqp' & Hk & Hl' & Hk').
    split.
    + destruct (reachable_tree d h v F l Htree Hreach) as [Hin|(p' & Hp' & Hprim)].
      * apply Hflat; [done|].
        destruct (treeAt_queryKey_inert d h v F l p (VRef q) Htree Hin Hl Hq)
          as (qp0 & Hq0 & Hprim).
        rewrite Hqp in Hq0. by injection Hq0 as <-.
      * rewrite Hl in Hp'. injection Hp' as <-. by specialize (Hprim _ _ Hq).
    + exists k. split; [done|]. unfold field, fieldsOf. rewrite Hl'.
      cbn [mbind option_bind]. by rewrite lookup_insert_eq.
Qed.

(** Two injections with different [extra]s: the static keys hold the fields
    of the second [extra] on top of those of the first on top of the key's
    own, and a function key, wrapped twice, returns such a key. *)
Theorem inject_chain (extra1 extra2 : loc) (ep1 ep2 : gmap string value)
    (h : heap) (d : nat) (v : value) (F : gset loc) (n : nat) :
  treeAt d h v F →
  h !! extra1 = Some (Obj ep1) → primFields ep1 →
  h !! extra2 = Some (Obj ep2) → primFields ep2 →
  ∃ h1 h2,
    inyectKeysToQueries (S (S (d + n))) v extra1 h = Some (v, h1) ∧
    inyectKeysToQueries (S (S (d + n))) v extra2 h1 = Some (v, h2) ∧
    ∀ l p, reachable h v l → h !! l = Some (Obj p) →
      (∀ q qp, p !! "queryKey" = Some (VRef q) → h !! q = Some (Obj qp) →
         propFields h2 (VRef l) "queryKey" = Some (ep2 ∪ (ep1 ∪ qp))) ∧
      (∀ f, p !! "queryKey" = Some (VFun f) →
         field h2 (VRef l) "queryKey"
           = Some (VFun (InjectedFn (InjectedFn f extra1) extra2)) ∧
         ∀ m args s k s1 kp,
           call m f args s = Some (VRef k, s1) →
           s1.1 !! k = Some (Obj kp) →
           s1.1 !! extra1 = Some (Obj ep1) →
           s1.1 !! extra2 = Some (Obj ep2) →
           callForKey (S (S m)) (VFun (InjectedFn (InjectedFn f extra1) extra2)) args s
           = Some (ep2 ∪ (ep1 ∪ kp))).
Proof.
  intros Htree Hextra1 Hep1 Hextra2 Hep2.
  destruct (process_tree extra1 ep1 d Hep1 n h v F Htree Hextra1)
    as (h1 & Hrun1 & Hinj1).
  pose proof Hinj1 as (_ & Hops1 & Hflat1 & _).
  assert (treeAt d h1 v F) as Htree1 by (by apply (treeAt_injected extra1 ep1 d Hep1 h)).
  destruct (process_tree extra2 ep2 d Hep2 n h1 v F Htree1 (Hflat1 _ _ Hextra2 Hep2))
    as (h2 & Hrun2 & Hinj2).
  pose proof Hinj2 as (_ & Hops2 & Hflat2 & _).
  exists h1, h2. split; [done|]. split; [done|].
  intros l p Hreach Hl.
  pose proof (reachable_injected extra1 ep1 d h h1 v F l p Htree Hinj1 Hreach Hl) as Hop1.
  destruct (injected_cell extra1 ep1 h h1 l p Hop1) as (p1 & Hl1 & _).
  assert (opInjected extra2 ep2 h1 h2 l p1) as Hop2.
  { destruct (reachable_tree d h v F l Htree Hreach) as [Hin|(p' & Hl' & Hp')].
    - by apply Hops2.
    - rewrite Hl in Hl'. injection Hl' as <-.
      rewrite (Hflat1 _ _ Hl Hp') in Hl1. injection Hl1 as <-.
      apply flat_opInjected; [done| |done]. by apply Hflat1. }
  split.
  - intros q qp Hq Hqp.
    unfold opInjected in Hop1. rewrite Hq in Hop1.
    destruct Hop1 as (k & qp' & Hqp' & _ & Hl1' & Hk1).
    rewrite Hqp in Hqp'. injection Hqp' as <-.
    rewrite Hl1 in Hl1'. injection Hl1' as ->.
    apply (injected_node_static extra2 ep2 h1 h2 l _ Hop2 k (ep1 ∪ qp)); [|done].
    by rewrite lookup_insert_eq.
  - intros f Hq. split.
    + unfold opInjected in Hop1. rewrite Hq in Hop1.
      rewrite Hl1 in Hop1. injection Hop1 as ->.
      apply (injected_node_function extra2 ep2 h1 h2 l _ Hop2).
      by rewrite lookup_insert_eq.
    + intros m args s k s1 kp Hcall Hk He1 He2. unfold callForKey.
      rewrite (call_InjectedFn_merges (S m) (InjectedFn f extra1) extra2 args s
                 (length s1.1) (s1.1 ++ [Obj (ep1 ∪ kp)], s1.2) (ep1 ∪ kp) ep2).
      * cbn [fst fieldsOf]. by rewrite lookup_app_length.
      * by apply (call_InjectedFn_merges m f extra1 args s k s1 kp ep1).
      * cbn [fst]. by rewrite lookup_app_length.
      * cbn [fst]. by apply lookup_app_l_Some.
Qed.

(** Applied to a structure of plain objects, nested to any depth, in which no
    [queryKey] property holds an object, an array or a function (a primitive,
    a function, a cache key itself, an object of callbacks and of such
    objects), the injector returns its argument and leaves the heap exactly as
    it was, whatever [extra] is: keys are injected only where they sit under a
    [queryKey] property, and every other property is assigned the value it
    had. *)
Theorem inject_key_itself_unchanged (extra : loc) (h : heap) (d : nat) :
  ∀ (v : value) (n : nat),
  keyless d h v →
  inyectKeysToQueries (S (d + n)) v extra h = Some (v, h).
Proof.
  unfold inyectKeysToQueries.
  induction d as [|d IH]; intros v n Hv.
  - destruct v as [| | | | |l|]; try reflexivity. destruct Hv.
  - destruct v as [| | | | |l|]; try reflexivity.
    destruct Hv as (p & Hl & Hkey & Hrest).
    rewrite (process_Obj _ _ _ _ _ Hl).
    assert (injectQueryKey extra l h = Some (tt, h)) as Hinj.
    { destruct (p !! "queryKey") as [x|] eqn:Hq.
      - by apply (injectQueryKey_prim _ _ p x), Hkey.
      - by apply (injectQueryKey_none _ _ p). }
    rewrite (bind_Some _ _ _ _ _ Hinj).
    rewrite (bind_Some _ _ _ _ _ (ownKeys_Obj _ _ _ Hl)).
    rewrite (bind_Some _ _ _ tt h); [reflexivity|].
    apply forIn_fixed; [exact Hl|].
    intros name x Hx. apply IH. by apply (Hrest name).
Qed.

(** [process] on an inert value either runs out of depth or returns the value
    and leaves the heap as it is. *)
Lemma process_inert_or_fails extra v h fuel :
  inert h v →
  process fuel extra v h = None ∨ process fuel extra v h = Some (v, h).
Proof.
  intros Hin. destruct fuel as [|[|n]]; [by left| |right; by apply process_inert].
  destruct v as [| | | | |l|]; try (by right).
  destruct Hin as (p & Hl & Hp). rewrite (process_Obj _ _ _ _ _ Hl).
  assert (injectQueryKey extra l h = Some (tt, h)) as Hinj.
  { destruct (p !! "queryKey") as [x|] eqn:Hq.
    - by apply (injectQueryKey_prim _ _ p x), (Hp _ _ Hq).
    - by apply (injectQueryKey_none _ _ p). }
  rewrite (bind_Some _ _ _ _ _ Hinj).
  rewrite (bind_Some _ _ _ _ _ (ownKeys_Obj _ _ _ Hl)).
  assert (∀ name, name ∈ (map_to_list p).*1 → is_Some (p !! name)) as Hnames
    by (intros name; apply elem_of_ownKeys).
  destruct (map_to_list p).*1 as [|name ns]; [by right|left].
  destruct (Hnames name) as [x Hx]; [left|].
  cbn [forEach]. do 2 apply bind_None.
  rewrite (bind_Some _ _ _ _ _ (hasOwn_Obj _ _ _ _ Hl)).
  rewrite bool_decide_eq_true_2 by eauto.
  rewrite (bind_Some _ _ _ _ _ (getProp_Obj _ _ _ _ Hl)).
  by apply bind_None.
Qed.

Lemma forEach_fails {S A} (body : A → M S unit) (xs : list A) (s : S) (x : A) :
  x ∈ xs →
  body x s = None →
  (∀ y, y ∈ xs → body y s = None ∨ body y s = Some (tt, s)) →
  forEach body xs s = None.
Proof.
  induction xs as [|y ys IH]; intros Hin Hx Hall; [by apply elem_of_nil in Hin|].
  cbn [forEach]. destruct (Hall y) as [Hy|Hy]; [left|by apply bind_None|].
  rewrite (bind_Some _ _ _ _ _ Hy).
  apply elem_of_cons in Hin as [->|Hin]; [by rewrite Hx in Hy|].
  apply IH; [done..|]. intros z Hz. apply Hall. by right.
Qed.

(** On an object that refers to itself the recursion of [process] does not
    end: whatever the depth allowed, the run does not return. *)
Theorem inject_cycle_never_returns (extra : loc) (ep : gmap string value)
    (l : loc) (name : string) (fuel : nat) :
  ∀ h,
  selfReferent h l name →
  name ≠ "queryKey" →
  h !! extra = Some (Obj ep) →
  primFields ep →
  inyectKeysToQueries fuel (VRef l) extra h = None.
Proof.
  unfold inyectKeysToQueries.
  induction fuel as [|fuel IH]; intros h (p & Hl & Hself & Hrest) Hname Hextra Hep;
    [done|].
  rewrite (process_Obj _ _ _ _ _ Hl).
  destruct (injectQueryKey_inert extra ep l p h) as
    (h1 & p1 & Hinj & _ & Hl1 & Hsame & Hkey & Hkey1 & _ & Hflat & _); try done.
  { intros x Hx. apply (Hrest "queryKey"); [done|]. by intros <-. }
  rewrite (bind_Some _ _ _ _ _ Hinj).
  rewrite (bind_Some _ _ _ _ _ (ownKeys_Obj _ _ _ Hl1)).
  assert (p1 !! name = Some (VRef l)) as Hself1 by (by rewrite Hsame).
  assert (∀ k x, p1 !! k = Some x → k ≠ name → inert h1 x) as Hrest1.
  { intros k x Hx Hk. destruct (decide (k = "queryKey")) as [->|Hq];
      [by apply Hkey1|].
    rewrite Hsame in Hx by done. eapply inert_flatPreserved; [done|].
    by apply (Hrest k). }
  apply bind_None.
  apply (forEach_fails _ _ _ name).
  - apply list_elem_of_fmap. exists (name, VRef l). split; [done|].
    by apply elem_of_map_to_list.
  - rewrite (bind_Some _ _ _ _ _ (hasOwn_Obj _ _ _ _ Hl1)).
    rewrite bool_decide_eq_true_2 by eauto.
    rewrite (bind_Some _ _ _ _ _ (getProp_Obj _ _ _ _ Hl1)).
    rewrite Hself1. cbn [default from_option id].
    apply bind_None. apply IH; [|done|by apply Hflat|done].
    by exists p1.
  - intros k [x Hx]%elem_of_ownKeys.
    rewrite (bind_Some _ _ _ _ _ (hasOwn_Obj _ _ _ _ Hl1)).
    rewrite bool_decide_eq_true_2 by eauto.
    rewrite (bind_Some _ _ _ _ _ (getProp_Obj _ _ _ _ Hl1)).
    rewrite Hx. cbn [default from_option id].
    destruct (decide (k = name)) as [->|Hk].
    + left. rewrite Hself1 in Hx. injection Hx as <-.
      apply bind_None. apply IH; [|done|by apply Hflat|done]. by exists p1.
    + destruct (process_inert_or_fails extra x h1 fuel (Hrest1 _ _ Hx Hk)) as [Hn|Hs].
      * left. by apply bind_None.
      * right. rewrite (bind_Some _ _ _ _ _ Hs). by apply setProp_same with p1.
Qed.

Lemma primFields_indexProps elems :
  Forall (λ x, prim x = true) elems → primFields (indexProps elems).
Proof.
  intros Hel name x Hx. unfold indexProps in Hx.
  apply elem_of_list_to_map_2 in Hx.
  apply elem_of_lookup_imap in Hx as (i & y & [= -> ->] & Hy).
  rewrite Forall_lookup in Hel. by apply (Hel i).
Qed.

Lemma spread_primCell h a c :
  h !! a = Some c → primCell c →
  ∃ fields, spread a h = Some (fields, h) ∧ primFields fields.
Proof.
  intros Ha Hc. unfold spread. rewrite Ha. destruct c as [p|elems].
  - by exists p.
  - exists (indexProps elems). split; [done|]. by apply primFields_indexProps.
Qed.

Lemma prim_inert h x : prim x = true → inert h x.
Proof. by destruct x. Qed.

(** When [extra] itself owns a [queryKey] field that holds an object or an
    array, the injector does not return on an operation with a static key,
    whatever the depth allowed: the key made for the operation owns a
    [queryKey] in its turn, for which a key is made that owns one, and so on
    without end. *)
Theorem inject_extra_queryKey_never_returns (extra a : loc)
    (ep : gmap string value) (ca : cell) (fuel : nat) :
  ∀ (h : heap) (l q : loc) (p : gmap string value) (cq : cell),
  h !! l = Some (Obj p) →
  p !! "queryKey" = Some (VRef q) →
  h !! q = Some cq → primCell cq →
  (∀ name x, p !! name = Some x → name ≠ "queryKey" → inert h x) →
  l ≠ extra →
  h !! extra = Some (Obj ep) →
  ep !! "queryKey" = Some (VRef a) →
  (∀ name x, ep !! name = Some x → name ≠ "queryKey" → prim x = true) →
  h !! a = Some ca → primCell ca →
  inyectKeysToQueries fuel (VRef l) extra h = None.
Proof.
  unfold inyectKeysToQueries.
  induction fuel as [|fuel IH];
    intros h l q p cq Hl Hq Hcq Hpq Hrest Hle Hextra Ha Hep Hca Hpa; [done|].
  rewrite (process_Obj _ _ _ _ _ Hl).
  destruct (spread_primCell h q cq Hcq Hpq) as (qp & Hsq & Hqp).
  pose proof (lookup_lt_length_Some _ _ _ Hl) as Hlt.
  pose proof (lookup_lt_length_Some _ _ _ Hextra) as Hlte.
  pose proof (lookup_lt_length_Some _ _ _ Hca) as Hlta.
  set (p1 := <["queryKey" := VRef (length h)]> p).
  set (h1 := <[l := Obj p1]> (h ++ [Obj (ep ∪ qp)])).
  assert (a ≠ l) as Hal.
  { intros ->. rewrite Hl in Hca. injection Hca as <-.
    specialize (Hpa _ _ Hq). discriminate Hpa. }
  assert (injectQueryKey extra l h = Some (tt, h1)) as Hinj.
  { unfold injectQueryKey.
    rewrite (bind_Some _ _ _ _ _ (hasOwn_Obj _ _ _ _ Hl)).
    rewrite bool_decide_eq_true_2 by eauto.
    rewrite (bind_Some _ _ _ _ _ (getProp_Obj _ _ _ _ Hl)).
    rewrite Hq. cbn [default from_option id].
    rewrite (bind_Some _ _ _ qp h) by exact Hsq.
    rewrite (bind_Some _ _ _ ep h) by (unfold spread; by rewrite Hextra).
    rewrite (bind_Some _ _ _ (VRef (length h)) (h ++ [Obj (ep ∪ qp)])) by done.
    unfold setProp. by rewrite (lookup_app_l_Some _ _ _ _ Hl). }
  assert (h1 !! l = Some (Obj p1)) as Hl1.
  { unfold h1. apply list_lookup_insert_eq. rewrite length_app. lia. }
  assert (∀ m c, h !! m = Some c → m ≠ l → h1 !! m = Some c) as Hframe.
  { intros m c Hm Hml. unfold h1. rewrite list_lookup_insert_ne by done.
    by apply lookup_app_l_Some. }
  assert (h1 !! length h = Some (Obj (ep ∪ qp))) as Hk1.
  { unfold h1. rewrite list_lookup_insert_ne by lia. by rewrite lookup_app_length. }
  rewrite (bind_Some _ _ _ _ _ Hinj).
  rewrite (bind_Some _ _ _ _ _ (ownKeys_Obj _ _ _ Hl1)).
  assert (p1 !! "queryKey" = Some (VRef (length h))) as Hq1
    by apply lookup_insert_eq.
  assert (process fuel extra (VRef (length h)) h1 = None) as Hnone.
  { apply (IH h1 (length h) a (ep ∪ qp) ca); try done.
    - by apply lookup_union_Some_l.
    - by apply Hframe.
    - intros name x Hx Hname. apply prim_inert.
      apply lookup_union_Some_raw in Hx as [Hx|[_ Hx]].
      + by apply (Hep name).
      + by apply (Hqp name).
    - lia.
    - by apply Hframe.
    - by apply Hframe. }
  apply bind_None.
  apply (forEach_fails _ _ _ "queryKey").
  - apply list_elem_of_fmap. exists ("queryKey", VRef (length h)). split; [done|].
    by apply elem_of_map_to_list.
  - rewrite (bind_Some _ _ _ _ _ (hasOwn_Obj _ _ _ _ Hl1)).
    rewrite bool_decide_eq_true_2 by eauto.
    rewrite (bind_Some _ _ _ _ _ (getProp_Obj _ _ _ _ Hl1)).
    rewrite Hq1. cbn [default from_option id].
    by apply bind_None.
  - intros k [x Hx]%elem_of_ownKeys.
    rewrite (bind_Some _ _ _ _ _ (hasOwn_Obj _ _ _ _ Hl1)).
    rewrite bool_decide_eq_true_2 by eauto.
    rewrite (bind_Some _ _ _ _ _ (getProp_Obj _ _ _ _ Hl1)).
    rewrite Hx. cbn [default from_option id].
    destruct (decide (k = "queryKey")) as [->|Hk].
    + left. rewrite Hq1 in Hx. injection Hx as <-. by apply bind_None.
    + assert (inert h1 x) as Hin.
      { unfold p1 in Hx. rewrite lookup_insert_ne in Hx by done.
        pose proof (Hrest _ _ Hx Hk) as Hix.
        destruct x as [| | | | |m|]; try exact I.
        destruct Hix as (pm & Hm & Hpm). exists pm. split; [|done].
        apply Hframe; [done|]. intros ->.
        rewrite Hl in Hm. injection Hm as <-.
        specialize (Hpm _ _ Hq). discriminate Hpm. }
      destruct (process_inert_or_fails extra x h1 fuel Hin) as [Hn|Hs].
      * left. by apply bind_None.
      * right. rewrite (bind_Some _ _ _ _ _ Hs). by apply setProp_same with p1.
Qed.

(** A [queryKey] that is an array (a key in the engine's own array style) is
    not kept as an array: the property is replaced by a plain object holding
    the elements under their indices, with the fields of [extra] on top.  The
    array itself is left as it was. *)
Theorem inject_array_queryKey (extra : loc) (ep : gmap string value)
    (h : heap) (l q : loc) (p : gmap string value) (elems : list value) (n : nat) :
  h !! l = Some (Obj p) →
  p !! "queryKey" = Some (VRef q) →
  h !! q = Some (Arr elems) →
  Forall (λ x, prim x = true) elems →
  (∀ name x, p !! name = Some x → name ≠ "queryKey" → inert h x) →
  h !! extra = Some (Obj ep) →
  primFields ep →
  ∃ h',
    inyectKeysToQueries (S (S (S n))) (VRef l) extra h = Some (VRef l, h') ∧
    propFields h' (VRef l) "queryKey" = Some (ep ∪ indexProps elems) ∧
    h' !! q = Some (Arr elems).
Proof.
  intros Hl Hq Hqa Hel Hrest Hextra Hep.
  pose proof (lookup_lt_length_Some _ _ _ Hl) as Hlt.
  set (p1 := <["queryKey" := VRef (length h)]> p).
  set (h1 := <[l := Obj p1]> (h ++ [Obj (ep ∪ indexProps elems)])).
  assert (injectQueryKey extra l h = Some (tt, h1)) as Hinj.
  { unfold injectQueryKey.
    rewrite (bind_Some _ _ _ _ _ (hasOwn_Obj _ _ _ _ Hl)).
    rewrite bool_decide_eq_true_2 by eauto.
    rewrite (bind_Some _ _ _ _ _ (getProp_Obj _ _ _ _ Hl)).
    rewrite Hq. cbn [default from_option id].
    rewrite (bind_Some _ _ _ (indexProps elems) h) by (unfold spread; by rewrite Hqa).
    rewrite (bind_Some _ _ _ ep h) by (unfold spread; by rewrite Hextra).
    rewrite (bind_Some _ _ _ (VRef (length h)) (h ++ [Obj (ep ∪ indexProps elems)]))
      by done.
    unfold setProp. by rewrite (lookup_app_l_Some _ _ _ _ Hl). }
  assert (h1 !! l = Some (Obj p1)) as Hl1.
  { apply list_lookup_insert_eq. rewrite length_app. lia. }
  assert (h1 !! length h = Some (Obj (ep ∪ indexProps elems))) as Hk.
  { unfold h1. rewrite list_lookup_insert_ne by lia. by rewrite lookup_app_length. }
  assert (∀ m c, h !! m = Some c → m ≠ l → h1 !! m = Some c) as Hframe.
  { intros m c Hm Hne. unfold h1. rewrite list_lookup_insert_ne by done.
    by apply lookup_app_l_Some. }
  assert (flatPreserved h h1) as Hflat.
  { intros m pm Hm Hpm. apply Hframe; [done|]. intros ->.
    rewrite Hl in Hm. injection Hm as ->. by specialize (Hpm _ _ Hq). }
  exists h1. split; [|split].
  - unfold inyectKeysToQueries. rewrite (process_Obj _ _ _ _ _ Hl).
    rewrite (bind_Some _ _ _ _ _ Hinj).
    rewrite (bind_Some _ _ _ _ _ (ownKeys_Obj _ _ _ Hl1)).
    rewrite (bind_Some _ _ _ tt h1); [done|].
    apply forIn_fixed; [done|]. intros name x Hx. apply process_inert.
    unfold p1 in Hx. apply lookup_insert_Some in Hx as [[<- <-]|[Hne Hx]].
    + exists (ep ∪ indexProps elems). split; [done|].
      apply primFields_union; [done|]. by apply primFields_indexProps.
    + eapply inert_flatPreserved; [done|]. by apply (Hrest name).
  - unfold propFields, field, fieldsOf. rewrite Hl1. cbn [mbind option_bind].
    unfold p1. rewrite lookup_insert_eq. cbn [mbind option_bind]. by rewrite Hk.
  - apply Hframe; [done|]. intros ->. by rewrite Hl in Hqa.
Qed.

Lemma treeAt_member d : ∀ h v F m,
  treeAt d h v F → m ∈ F → ∃ p, h !! m = Some (Obj p).
Proof.
  induction d as [|d IH]; intros h v F m; cbn [treeAt].
  - intros [_ ->] Hm. by apply not_elem_of_empty in Hm.
  - intros [[_ ->]|(l & p & Fs & -> & Hl & _ & Hch & _ & _ & HF)] Hm.
    + by apply not_elem_of_empty in Hm.
    + apply HF in Hm as [->|(name & [x Hx] & Hm)]; [by exists p|].
      apply (IH h x (Fs name)); [by apply Hch|done].
Qed.

(** One run after another, on trees that share no node. *)
Lemma injectedIn_seq extra ep d h h1 h2 v F1 F2 :
  injectedIn extra ep h F1 h1 →
  treeAt d h v F2 →
  F1 ## F2 →
  injectedIn extra ep h1 F2 h2 →
  injectedIn extra ep h (F1 ∪ F2) h2.
Proof.
  intros (Hframe1 & Hops1 & Hflat1 & Hlen1) Htree Hdisj
         (Hframe2 & Hops2 & Hflat2 & Hlen2).
  split; [|split; [|split]].
  - intros m c Hm Hnot. apply Hframe2; [apply Hframe1; [done|]|]; set_solver.
  - intros l p [Hin|Hin]%elem_of_union Hl.
    + apply (opInjected_mono extra ep h h1); [by apply Hops1|..].
      * intros c Hc. apply Hframe2; [done|]. set_solver.
      * intros k c Hk Hc. apply Hframe2; [done|]. intros Hk'.
        destruct (treeAt_bound d h v F2 k Htree Hk') as [c' Hc'].
        apply lookup_lt_length_Some in Hc'. lia.
    + apply (opInjected_from extra ep h h1); try done.
      * apply Hops2; [done|]. apply Hframe1; [done|]. set_solver.
      * intros q Hq.
        by apply (treeAt_queryKey_inert d h v F2 l p (VRef q)).
  - by apply (flatPreserved_trans h h1).
  - lia.
Qed.

Lemma array_loop extra ep d n h :
  primFields ep →
  h !! extra = Some (Obj ep) →
  ∀ elems Fs F0 hi,
  Forall2 (treeAt d h) elems Fs →
  apart Fs →
  Forall (λ G, F0 ## G) Fs →
  injectedIn extra ep h F0 hi →
  ∃ hf, arrayMap (process (S (S (d + n))) extra) elems hi = Some (elems, hf) ∧
        injectedIn extra ep h (F0 ∪ ⋃ Fs) hf.
Proof.
  intros Hep Hextra elems Fs F0 hi Htrees. revert F0 hi.
  induction Htrees as [|x F elems Fs Hx _ IH]; intros F0 hi Hapart Hdisj Hinj.
  { exists hi. split; [done|]. cbn. by rewrite (right_id_L ∅ (∪)). }
  destruct Hapart as [HF Hapart]. apply Forall_cons in Hdisj as [HF0 Hdisj].
  pose proof Hinj as (Hframe & _ & Hflat & _).
  assert (treeAt d hi x F) as Hxi.
  { apply (treeAt_stable d h); [done| |done].
    intros m c Hm Hc. apply Hframe; [done|]. set_solver. }
  destruct (process_tree extra ep d Hep n hi x F Hxi (Hflat _ _ Hextra Hep))
    as (h2 & Hrun & Hinj2).
  destruct (IH (F0 ∪ F) h2 Hapart) as (hf & Hloop & Hinjf).
  { apply Forall_forall. intros G HG. rewrite Forall_forall in HF, Hdisj.
    specialize (HF G HG). specialize (Hdisj G HG).
    intros m [H1|H2]%elem_of_union Hm; [by apply (Hdisj m)|by apply (HF m)]. }
  { by apply (injectedIn_seq extra ep d h hi h2 x). }
  exists hf. cbn [arrayMap]. rewrite (bind_Some _ _ _ _ _ Hrun).
  rewrite (bind_Some _ _ _ _ _ Hloop). split; [done|].
  cbn [union_list foldr]. by rewrite (assoc_L (∪)).
Qed.

(** Applied to an array of trees that share no object, the injector returns a
    new array, not its argument: the new array holds the same elements, each
    injected in place; the argument array is left as it was. *)
Theorem inject_array_returns_copy (extra : loc) (ep : gmap string value)
    (h : heap) (a : loc) (elems : list value) (Fs : list (gset loc)) (d n : nat) :
  h !! a = Some (Arr elems) →
  Forall2 (treeAt d h) elems Fs →
  apart Fs →
  h !! extra = Some (Obj ep) →
  primFields ep →
  ∃ a' h',
    inyectKeysToQueries (S (S (S (d + n)))) (VRef a) extra h = Some (VRef a', h') ∧
    (length h ≤ a')%nat ∧
    h' !! a' = Some (Arr elems) ∧
    h' !! a = Some (Arr elems) ∧
    ∀ i x l p, elems !! i = Some x → reachable h x l → h !! l = Some (Obj p) →
      (∀ q qp, p !! "queryKey" = Some (VRef q) → h !! q = Some (Obj qp) →
         propFields h' (VRef l) "queryKey" = Some (ep ∪ qp)) ∧
      (∀ f, p !! "queryKey" = Some (VFun f) →
         field h' (VRef l) "queryKey" = Some (VFun (InjectedFn f extra))).
Proof.
  intros Ha Htrees Hapart Hextra Hep.
  destruct (array_loop extra ep d n h Hep Hextra elems Fs ∅ h Htrees Hapart)
    as (hf & Hloop & Hinj).
  { apply Forall_forall. intros G _. set_solver. }
  { apply injectedIn_inert. }
  rewrite (left_id_L ∅ (∪)) in Hinj.
  pose proof Hinj as (Hframe & Hops & Hflat & Hlen).
  assert (hf !! a = Some (Arr elems)) as Haf.
  { apply Hframe; [done|]. intros (F & HF & Hin)%elem_of_union_list.
    apply list_elem_of_lookup in HF as [i HF].
    destruct (Forall2_lookup_r _ _ _ _ _ Htrees HF) as (x & Hx & Htree).
    destruct (treeAt_member d h x F a Htree Hin) as [p Hp]. by rewrite Ha in Hp. }
  exists (length hf), (hf ++ [Arr elems]). split; [|split; [lia|split; [|split]]].
  - unfold inyectKeysToQueries. cbn [process]. rewrite Ha.
    rewrite (bind_Some _ _ _ _ _ Hloop). done.
  - by rewrite lookup_app_length.
  - by apply lookup_app_l_Some.
  - intros i x l p Hx Hreach Hl.
    destruct (Forall2_lookup_l _ _ _ _ _ Htrees Hx) as (F & HF & Htree).
    assert (opInjected extra ep h (hf ++ [Arr elems]) l p) as Hop.
    { apply (opInjected_mono extra ep h hf).
      - destruct (reachable_tree d h x F l Htree Hreach) as [Hin|(p' & Hl' & Hp')].
        + apply Hops; [|done]. apply elem_of_union_list. exists F.
          split; [|done]. by apply list_elem_of_lookup_2 with i.
        + rewrite Hl in Hl'. injection Hl' as <-. by apply flat_opInjected.
      - intros c Hc. by apply lookup_app_l_Some.
      - intros k c _ Hc. by apply lookup_app_l_Some. }
    split.
    + intros q qp. by apply (injected_node_static extra ep h _ l p Hop q).
    + by apply (injected_node_function extra ep h _ l p).
Qed.

Lemma crudGroup_bound n name m :
  crudGroup n !! name = Some (VRef m) → (n < m < n + 10)%nat.
Proof.
  unfold crudGroup. intros H.
  repeat (rewrite lookup_insert_Some in H; destruct H as [[_ H]|[_ H]];
          [injection H as <-; lia|]).
  rewrite lookup_singleton_Some in H. destruct H as [_ H]. injection H as <-. lia.
Qed.

(** The keys read out of a group whose cells are those the factory built. *)
Lemma crud_keys_at E n h :
  (∀ k c, crudCells E n !! k = Some c → h !! (n + k)%nat = Some c) →
  staticKey h (VRef (n + 10)) "all" = Some {[ "entity" := VStr E ]} ∧
  staticKey h (VRef (n + 10)) "list" = Some (listFields E) ∧
  staticKey h (VRef (n + 10)) "create"
    = Some {[ "entity" := VStr E; "method" := VStr "create" ]} ∧
  ∀ (i : value) (c : cache) (m : nat),
    dynamicKey (S m) (h, c) (VRef (n + 10)) "detail" i = Some (detailFields E i) ∧
    dynamicKey (S m) (h, c) (VRef (n + 10)) "update" i
      = Some {[ "entity" := VStr E; "method" := VStr "update"; "id" := i ]} ∧
    dynamicKey (S m) (h, c) (VRef (n + 10)) "remove" i
      = Some {[ "entity" := VStr E; "method" := VStr "remove"; "id" := i ]}.
Proof.
  intros Hcells.
  pose proof (Hcells 10%nat _ eq_refl) as Hg.
  pose proof (Hcells 0%nat _ eq_refl) as H0. rewrite Nat.add_0_r in H0.
  pose proof (Hcells 1%nat _ eq_refl) as H1.
  pose proof (Hcells 2%nat _ eq_refl) as H2.
  pose proof (Hcells 3%nat _ eq_refl) as H3.
  pose proof (Hcells 4%nat _ eq_refl) as H4.
  pose proof (Hcells 5%nat _ eq_refl) as H5.
  pose proof (Hcells 7%nat _ eq_refl) as H7.
  pose proof (Hcells 8%nat _ eq_refl) as H8.
  pose proof (Hcells 9%nat _ eq_refl) as H9.
  repeat split;
    unfold staticKey, dynamicKey, queryKeyOf, field, fieldsOf, callForKey; cbn [fst];
    rewrite Hg; cbn [mbind option_bind]; gmap_lookup; cbn [mbind option_bind];
    rewrite ?H1, ?H3, ?H4, ?H7, ?H8, ?H9; cbn [mbind option_bind];
    gmap_lookup; cbn [mbind option_bind];
    rewrite ?H0, ?H2, ?H5, ?call_KeyFn; cbn [fst fieldsOf];
    rewrite ?lookup_app_length; reflexivity.
Qed.

(** Groups built by separate calls of the factory share no object: injecting
    one of them leaves every cell of the other as it was, so the other's keys
    read as before, also when both are built for the same entity. *)
Theorem inject_leaves_other_group (E1 E2 : string) (ep : gmap string value)
    (h0 : heap) (n : nat) :
  primFields ep →
  ∃ a b h',
    buildTwoGroups E1 E2 ep (S (S (S (S n)))) h0 = Some ((a, b), h') ∧
    staticKey h' a "list" = Some (ep ∪ listFields E1) ∧
    (∀ k c, crudCells E2 (length h0 + 11) !! k = Some c →
            h' !! (length h0 + 11 + k)%nat = Some c) ∧
    staticKey h' b "all" = Some {[ "entity" := VStr E2 ]} ∧
    staticKey h' b "list" = Some (listFields E2) ∧
    staticKey h' b "create"
      = Some {[ "entity" := VStr E2; "method" := VStr "create" ]} ∧
    ∀ (i : value) (c : cache) (m : nat),
      dynamicKey (S m) (h', c) b "detail" i = Some (detailFields E2 i) ∧
      dynamicKey (S m) (h', c) b "update" i
        = Some {[ "entity" := VStr E2; "method" := VStr "update"; "id" := i ]} ∧
      dynamicKey (S m) (h', c) b "remove" i
        = Some {[ "entity" := VStr E2; "method" := VStr "remove"; "id" := i ]}.
Proof.
  intros Hep.
  set (h1 := h0 ++ crudCells E1 (length h0)).
  set (h2 := (h1 ++ crudCells E2 (length h0 + 11)) ++ [Obj ep]).
  assert (length h1 = (length h0 + 11)%nat) as Hlen1
    by (unfold h1; by rewrite length_app).
  assert (preserved h1 h2) as Hp12.
  { unfold h2. apply preserved_app_r, preserved_app. }
  assert (h2 !! (length h0 + 22)%nat = Some (Obj ep)) as Hextra.
  { unfold h2. replace (length h0 + 22)%nat
      with (length (h1 ++ crudCells E2 (length h0 + 11))).
    - by rewrite lookup_app_length.
    - rewrite length_app, Hlen1. cbn. lia. }
  pose proof (crud_groupAt E1 h0 h2 Hp12) as Hgroup.
  destruct (process_tree (length h0 + 22) ep 2 Hep n h2 (VRef (length h0 + 10))
              (groupNodes (length h0 + 10) (crudGroup (length h0))))
    as (h' & Hrun & Hframe & Hops & Hflat & _); [by apply groupAt_treeAt|done|].
  assert (∀ k c, crudCells E2 (length h0 + 11) !! k = Some c →
                 h' !! (length h0 + 11 + k)%nat = Some c) as Hcells.
  { intros k c Hk. apply Hframe.
    - unfold h2. apply lookup_app_l_Some. rewrite <- Hlen1 in Hk |- *.
      by rewrite lookup_app_plus.
    - intros [Heq|(name & Hname%crudGroup_bound)]%elem_of_groupNodes; lia. }
  exists (VRef (length h0 + 10)), (VRef (length h0 + 11 + 10)), h'.
  split; [|split; [|split; [done|by apply crud_keys_at]]].
  - unfold buildTwoGroups.
    rewrite (bind_Some _ _ _ _ _ (createQueryGroupCRUD_cells E1 h0)).
    fold h1.
    rewrite (bind_Some _ _ _ (VRef (length h0 + 11 + 10))
               (h1 ++ crudCells E2 (length h0 + 11))).
    2:{ rewrite createQueryGroupCRUD_cells. by rewrite Hlen1. }
    rewrite (bind_Some _ _ _ (length h0 + 22)%nat h2).
    2:{ unfold alloc, h2. do 2 f_equal. rewrite length_app, Hlen1.
        cbn [length crudCells]. lia. }
    unfold inyectKeysToQueries. by rewrite (bind_Some _ _ _ _ _ Hrun).
  - destruct Hgroup as (Hg & Hnokey & _).
    assert (h' !! (length h0 + 10)%nat = Some (Obj (crudGroup (length h0)))) as Hg'.
    { assert (opInjected (length h0 + 22) ep h2 h' (length h0 + 10)
                (crudGroup (length h0))) as Hop.
      { apply Hops; [|done]. apply elem_of_groupNodes. by left. }
      unfold opInjected in Hop. by rewrite Hnokey in Hop. }
    assert (h2 !! (length h0 + 3)%nat
            = Some (Obj {[ "queryKey" := VRef (length h0 + 2)%nat;
                           "type" := VStr "query" ]})) as H3
      by (apply (crud_cell E1 h0 h2 3 _ Hp12 eq_refl)).
    assert (opInjected (length h0 + 22) ep h2 h' (length h0 + 3)
              {[ "queryKey" := VRef (length h0 + 2)%nat; "type" := VStr "query" ]})
      as Hop.
    { apply Hops; [|done]. apply elem_of_groupNodes. right. by exists "list". }
    exact (injected_staticKey (length h0 + 22) ep h2 h' _ _ "list"
             (length h0 + 3)%nat _ Hg' eq_refl Hop (length h0 + 2)%nat _ eq_refl
             (crud_cell E1 h0 h2 2 _ Hp12 eq_refl)).
Qed.

(** The static keys take the fields of [extra] when the injector runs; the
    wrapped function keys read [extra] each time they are called.  After
    [extra[name] = x] the static keys are as the injector left them, while a
    wrapped function returns keys with the new field. *)
Theorem inject_reads_extra_late (extra : loc) (ep : gmap string value)
    (h : heap) (d : nat) (v : value) (F : gset loc) (n : nat)
    (name : string) (x : value) :
  treeAt d h v F →
  h !! extra = Some (Obj ep) →
  primFields ep →
  ∃ h' h'',
    inyectKeysToQueries (S (S (d + n))) v extra h = Some (v, h') ∧
    setProp extra name x h' = Some (tt, h'') ∧
    h'' !! extra = Some (Obj (<[name := x]> ep)) ∧
    ∀ l p, reachable h v l → h !! l = Some (Obj p) →
      (∀ q qp, p !! "queryKey" = Some (VRef q) → h !! q = Some (Obj qp) →
         propFields h'' (VRef l) "queryKey" = Some (ep ∪ qp)) ∧
      (∀ f, p !! "queryKey" = Some (VFun f) →
         field h'' (VRef l) "queryKey" = Some (VFun (InjectedFn f extra)) ∧
         ∀ m args c k s1 kp,
           call m f args (h'', c) = Some (VRef k, s1) →
           s1.1 !! k = Some (Obj kp) →
           s1.1 !! extra = Some (Obj (<[name := x]> ep)) →
           callForKey (S m) (VFun (InjectedFn f extra)) args (h'', c)
           = Some (<[name := x]> ep ∪ kp)).
Proof.
  intros Htree Hextra Hep.
  destruct (process_tree extra ep d Hep n h v F Htree Hextra) as (h' & Hrun & Hinj).
  pose proof Hinj as (_ & _ & Hflat & Hlen).
  pose proof (Hflat _ _ Hextra Hep) as Hextra'.
  pose proof (lookup_lt_length_Some _ _ _ Hextra) as Hlt.
  exists h', (<[extra := Obj (<[name := x]> ep)]> h').
  split; [done|]. split; [unfold setProp; by rewrite Hextra'|].
  split; [apply list_lookup_insert_eq; lia|].
  intros l p Hreach Hl.
  pose proof (reachable_injected extra ep d h h' v F l p Htree Hinj Hreach Hl) as Hop.
  assert (∀ y, p !! "queryKey" = Some y → prim y = false → l ≠ extra) as Hne.
  { intros y Hy Hprim ->. rewrite Hl in Hextra. injection Hextra as ->.
    rewrite (Hep _ _ Hy) in Hprim. done. }
  split.
  - intros q qp Hq Hqp. specialize (Hne _ Hq eq_refl).
    unfold opInjected in Hop. rewrite Hq in Hop.
    destruct Hop as (k & qp' & Hqp' & Hk & Hl' & Hk').
    rewrite Hqp in Hqp'. injection Hqp' as <-.
    unfold propFields, field, fieldsOf.
    rewrite list_lookup_insert_ne, Hl' by done. cbn [mbind option_bind].
    rewrite lookup_insert_eq. cbn [mbind option_bind].
    by rewrite list_lookup_insert_ne, Hk' by lia.
  - intros f Hq. specialize (Hne _ Hq eq_refl).
    unfold opInjected in Hop. rewrite Hq in Hop. split.
    + unfold field, fieldsOf. rewrite list_lookup_insert_ne, Hop by done.
      cbn [mbind option_bind]. by rewrite lookup_insert_eq.
    + intros m args c k s1 kp. apply callForKey_InjectedFn.
Qed.

(** ** Further properties of the [normalize] callbacks *)

(** [detail.normalize(data)] against a list entry holding [items] replaces
    the items whose [id] is that of [data]; it does not write the detail
    entry, nor any other entry, and the cells of the heap, among them the old
    array, are left as they were. *)
Theorem crud_detail_normalize (E : string) (h0 h1 hx : heap) (g : value)
    (c : cache) (data i : value) (n : nat) (a0 : loc) (items : list value) :
  createQueryGroupCRUD E h0 = Some (g, h1) →
  idOf (h1 ++ hx) data = Some i →
  c (listFields E) = VRef a0 →
  (h1 ++ hx) !! a0 = Some (Arr items) →
  Forall (λ item, is_Some (idOf (h1 ++ hx) item)) items →
  ∃ h' c' a,
    callNormalize (S (S n)) (h1 ++ hx, c) g "detail" data = Some (h', c') ∧
    c' (listFields E) = VRef a ∧
    h' !! a = Some (Arr (replaced (h1 ++ hx) i data items)) ∧
    (∀ k, k ≠ listFields E → c' k = c k) ∧
    preserved (h1 ++ hx) h'.
Proof.
  intros [-> ->]%createQueryGroupCRUD_inv Hid Hold Ha0 Hitems.
  pose proof (crud_normalizable E h0 _ n (preserved_app _ hx)) as Hnz.
  destruct (detail_normalize_list _ _ _ _ _ Hnz c data i Hid a0 items Hitems Hold Ha0)
    as (h' & a & Hrun & Ha & Hp).
  exists h', (setEntry (listFields E) (VRef a) c), a.
  split; [done|]. split; [by rewrite setEntry_eq|]. split; [done|].
  split; [|done]. intros k Hk. by rewrite setEntry_ne.
Qed.

(** [update.normalize] and [remove.normalize] write the list entry and the
    detail entry of the identifier and no other entry, and they write to no
    existing cell of the heap: the array that was cached, its items and
    [data] are as before. *)
Theorem crud_update_remove_frame (E : string) (h0 h1 hx : heap) (g : value)
    (c : cache) (data i : value) (n : nat) (a0 : loc) (items : list value) :
  createQueryGroupCRUD E h0 = Some (g, h1) →
  idOf (h1 ++ hx) data = Some i →
  c (listFields E) = VRef a0 →
  (h1 ++ hx) !! a0 = Some (Arr items) →
  Forall (λ item, is_Some (idOf (h1 ++ hx) item)) items →
  (∃ h' c',
    callNormalize (S (S n)) (h1 ++ hx, c) g "update" data = Some (h', c') ∧
    (∀ k, k ≠ listFields E → k ≠ detailFields E i → c' k = c k) ∧
    preserved (h1 ++ hx) h') ∧
  (∃ h' c',
    callNormalize (S (S n)) (h1 ++ hx, c) g "remove" data = Some (h', c') ∧
    (∀ k, k ≠ listFields E → k ≠ detailFields E i → c' k = c k) ∧
    preserved (h1 ++ hx) h').
Proof.
  intros [-> ->]%createQueryGroupCRUD_inv Hid Hold Ha0 Hitems.
  pose proof (crud_normalizable E h0 _ n (preserved_app _ hx)) as Hnz.
  pose proof (listFields_ne_detailFields E i) as Hne.
  split.
  - destruct (update_normalize_list _ _ _ _ _ Hnz c data i Hid a0 items
                Hitems Hold Ha0) as (h' & a & Hrun & _ & Hp).
    destruct (two_entries c _ _ (VRef a) data Hne) as (_ & _ & ?).
    by eexists _, _.
  - destruct (remove_normalize_list _ _ _ _ _ Hnz c data i Hid a0 items
                Hitems Hold Ha0) as (h' & a & Hrun & _ & Hp).
    destruct (two_entries c _ _ (VRef a) VUndefined Hne) as (_ & _ & ?).
    by eexists _, _.
Qed.

Lemma removed_app h i xs ys : removed h i (xs ++ ys) = removed h i xs ++ removed h i ys.
Proof. unfold removed. apply List.filter_app. Qed.

Lemma removed_others h i items :
  Forall (λ item, ∃ j, idOf h item = Some j ∧ j ≠ i) items →
  removed h i items = items.
Proof.
  unfold removed. induction 1 as [|item items (j & Hj & Hne) _ IH]; [done|].
  cbn [List.filter]. rewrite IH, Hj. cbn [default from_option id].
  unfold strictEq. by rewrite bool_decide_eq_false_2.
Qed.

Lemma replaced_others h i data items :
  Forall (λ item, ∃ j, idOf h item = Some j ∧ j ≠ i) items →
  replaced h i data items = items.
Proof.
  unfold replaced. induction 1 as [|item items (j & Hj & Hne) _ IH]; [done|].
  cbn [map]. rewrite IH, Hj. cbn [default from_option id].
  unfold strictEq. by rewrite bool_decide_eq_false_2.
Qed.

Lemma replaced_idemp h i data items :
  idOf h data = Some i →
  replaced h i data (replaced h i data items) = replaced h i data items.
Proof.
  intros Hd. unfold replaced. rewrite map_map. apply map_ext. intros item.
  destruct (strictEq (default VUndefined (idOf h item)) i) eqn:Heq; [|by rewrite Heq].
  rewrite Hd. cbn [default from_option id]. unfold strictEq.
  by rewrite bool_decide_eq_true_2.
Qed.

Lemma others_have_ids h i items :
  Forall (λ item, ∃ j, idOf h item = Some j ∧ j ≠ i) items →
  Forall (λ item, is_Some (idOf h item)) items.
Proof. intros H. eapply Forall_impl; [done|]. intros item (j & Hj & _). eauto. Qed.

Lemma others_preserved h h' i items :
  preserved h h' →
  Forall (λ item, ∃ j, idOf h item = Some j ∧ j ≠ i) items →
  Forall (λ item, ∃ j, idOf h' item = Some j ∧ j ≠ i) items.
Proof.
  intros Hp H. eapply Forall_impl; [done|]. intros item (j & Hj & Hne). exists j.
  split; [by eapply idOf_preserved|done].
Qed.

(** [create.normalize(data)] followed by [remove.normalize(data)], against a
    list entry that holds no item with the identifier of [data]: the list
    entry holds the items it held before, in a new array, the detail entry of
    the identifier is unset, and no other entry has changed. *)
Theorem crud_create_then_remove (E : string) (h0 h1 hx : heap) (g : value)
    (c : cache) (data i : value) (n : nat) (a0 : loc) (items : list value) :
  createQueryGroupCRUD E h0 = Some (g, h1) →
  idOf (h1 ++ hx) data = Some i →
  c (listFields E) = VRef a0 →
  (h1 ++ hx) !! a0 = Some (Arr items) →
  Forall (λ item, ∃ j, idOf (h1 ++ hx) item = Some j ∧ j ≠ i) items →
  ∃ s1 h2 c2 a,
    callNormalize (S (S n)) (h1 ++ hx, c) g "create" data = Some s1 ∧
    callNormalize (S (S n)) s1 g "remove" data = Some (h2, c2) ∧
    c2 (listFields E) = VRef a ∧
    h2 !! a = Some (Arr items) ∧
    c2 (detailFields E i) = VUndefined ∧
    ∀ k, k ≠ listFields E → k ≠ detailFields E i → c2 k = c k.
Proof.
  intros [-> ->]%createQueryGroupCRUD_inv Hid Hold Ha0 Hitems.
  set (h := (h0 ++ crudCells E (length h0)) ++ hx) in *.
  pose proof (crud_normalizable E h0 h n (preserved_app _ hx)) as Hnz.
  pose proof (listFields_ne_detailFields E i) as Hne.
  destruct (create_normalize_list _ _ _ _ _ Hnz c data i Hid a0 items Hold Ha0)
    as (h' & a1 & Hrun1 & Ha1 & Hp).
  set (c1 := setEntry (detailFields E i) data (setEntry (listFields E) (VRef a1) c))
    in *.
  assert (preserved (h0 ++ crudCells E (length h0)) h') as Hp'.
  { eapply preserved_trans; [apply preserved_app|done]. }
  pose proof (crud_normalizable E h0 h' n Hp') as Hnz'.
  assert (Forall (λ item, is_Some (idOf h' item)) (items ++ [data])) as Hids.
  { apply Forall_app. split.
    - apply (ids_preserved h h' items Hp), (others_have_ids h i items Hitems).
    - apply Forall_singleton. exists i. apply (idOf_preserved h h' _ _ Hp Hid). }
  destruct (remove_normalize_list _ _ _ _ _ Hnz' c1 data i
              (idOf_preserved _ _ _ _ Hp Hid) a1 (items ++ [data]) Hids)
    as (h2 & a2 & Hrun2 & Ha2 & _); [|done|].
  { unfold c1. by rewrite setEntry_ne, setEntry_eq. }
  eexists (h', c1), h2, _, a2. split; [done|]. split; [done|].
  split; [by rewrite setEntry_ne, setEntry_eq|]. split.
  - rewrite Ha2. do 2 f_equal. rewrite removed_app.
    rewrite (removed_others h' i items) by (apply (others_preserved h h' i items Hp Hitems)).
    unfold removed. cbn [List.filter]. rewrite (idOf_preserved _ _ _ _ Hp Hid).
    cbn [default from_option id]. unfold strictEq.
    rewrite bool_decide_eq_true_2 by done. cbn [negb]. by rewrite app_nil_r.
  - split; [by rewrite setEntry_eq|].
    intros k H1 H2. unfold c1. by rewrite !setEntry_ne.
Qed.

(** The same round trip from an absent list entry does not give the absent
    entry back: the list entry ends as an empty array. *)
Theorem crud_create_then_remove_absent (E : string) (h0 h1 hx : heap) (g : value)
    (c : cache) (data i : value) (n : nat) :
  createQueryGroupCRUD E h0 = Some (g, h1) →
  idOf (h1 ++ hx) data = Some i →
  c (listFields E) = VUndefined →
  ∃ s1 h2 c2 a,
    callNormalize (S (S n)) (h1 ++ hx, c) g "create" data = Some s1 ∧
    callNormalize (S (S n)) s1 g "remove" data = Some (h2, c2) ∧
    c2 (listFields E) = VRef a ∧
    h2 !! a = Some (Arr []) ∧
    c2 (detailFields E i) = VUndefined.
Proof.
  intros [-> ->]%createQueryGroupCRUD_inv Hid Hold.
  set (h := (h0 ++ crudCells E (length h0)) ++ hx) in *.
  pose proof (crud_normalizable E h0 h n (preserved_app _ hx)) as Hnz.
  pose proof (listFields_ne_detailFields E i) as Hne.
  destruct (create_normalize_absent _ _ _ _ _ Hnz c data i Hid)
    as (h' & a1 & Hrun1 & Ha1 & Hp); [by rewrite Hold|].
  set (c1 := setEntry (detailFields E i) data (setEntry (listFields E) (VRef a1) c))
    in *.
  assert (preserved (h0 ++ crudCells E (length h0)) h') as Hp'.
  { eapply preserved_trans; [apply preserved_app|done]. }
  pose proof (crud_normalizable E h0 h' n Hp') as Hnz'.
  destruct (remove_normalize_list _ _ _ _ _ Hnz' c1 data i
              (idOf_preserved _ _ _ _ Hp Hid) a1 [data])
    as (h2 & a2 & Hrun2 & Ha2 & _); [| |done|].
  { apply Forall_singleton. exists i. apply (idOf_preserved h h' _ _ Hp Hid). }
  { unfold c1. by rewrite setEntry_ne, setEntry_eq. }
  eexists (h', c1), h2, _, a2. split; [done|]. split; [done|].
  split; [by rewrite setEntry_ne, setEntry_eq|]. split; [|by rewrite setEntry_eq].
  rewrite Ha2. do 2 f_equal. unfold removed. cbn [List.filter].
  rewrite (idOf_preserved _ _ _ _ Hp Hid). cbn [default from_option id].
  unfold strictEq. by rewrite bool_decide_eq_true_2.
Qed.

(** [update.normalize(data)] run twice leaves the cache as one run does: the
    list entry holds the same items after the second run as after the first,
    and the detail entry is [data]. *)
Theorem crud_update_normalize_twice (E : string) (h0 h1 hx : heap) (g : value)
    (c : cache) (data i : value) (n : nat) (a0 : loc) (items : list value) :
  createQueryGroupCRUD E h0 = Some (g, h1) →
  idOf (h1 ++ hx) data = Some i →
  c (listFields E) = VRef a0 →
  (h1 ++ hx) !! a0 = Some (Arr items) →
  Forall (λ item, is_Some (idOf (h1 ++ hx) item)) items →
  ∃ h' c' a' h'' c'' a'' items',
    callNormalize (S (S n)) (h1 ++ hx, c) g "update" data = Some (h', c') ∧
    callNormalize (S (S n)) (h', c') g "update" data = Some (h'', c'') ∧
    c' (listFields E) = VRef a' ∧ h' !! a' = Some (Arr items') ∧
    c'' (listFields E) = VRef a'' ∧ h'' !! a'' = Some (Arr items') ∧
    c'' (detailFields E i) = data ∧
    ∀ k, k ≠ listFields E → c'' k = c' k.
Proof.
  intros [-> ->]%createQueryGroupCRUD_inv Hid Hold Ha0 Hitems.
  set (h := (h0 ++ crudCells E (length h0)) ++ hx) in *.
  pose proof (crud_normalizable E h0 h n (preserved_app _ hx)) as Hnz.
  pose proof (listFields_ne_detailFields E i) as Hne.
  destruct (update_normalize_list _ _ _ _ _ Hnz c data i Hid a0 items
              Hitems Hold Ha0) as (h' & a1 & Hrun1 & Ha1 & Hp).
  set (c1 := setEntry (detailFields E i) data (setEntry (listFields E) (VRef a1) c))
    in *.
  assert (preserved (h0 ++ crudCells E (length h0)) h') as Hp'.
  { eapply preserved_trans; [apply preserved_app|done]. }
  pose proof (crud_normalizable E h0 h' n Hp') as Hnz'.
  pose proof (idOf_preserved h h' _ _ Hp Hid) as Hid'.
  assert (Forall (λ item, is_Some (idOf h item)) (replaced h i data items)) as Hids0.
  { unfold replaced. apply Forall_map. eapply Forall_impl; [done|].
    intros item [j Hj]. cbn. destruct (strictEq _ _); eauto. }
  pose proof (ids_preserved h h' _ Hp Hids0) as Hids.
  destruct (update_normalize_list _ _ _ _ _ Hnz' c1 data i Hid' a1
              (replaced h i data items) Hids) as (h2 & a2 & Hrun2 & Ha2 & _);
    [|done|].
  { unfold c1. by rewrite setEntry_ne, setEntry_eq. }
  eexists h', c1, a1, h2, _, a2, (replaced h i data items).
  split; [done|]. split; [done|].
  split; [unfold c1; by rewrite setEntry_ne, setEntry_eq|]. split; [done|].
  split; [by rewrite setEntry_ne, setEntry_eq|]. split; [|split].
  - rewrite Ha2. do 2 f_equal.
    rewrite (replaced_preserved h h' i data _ Hp Hids0).
    by apply replaced_idemp.
  - by rewrite setEntry_eq.
  - intros k Hk. unfold c1.
    destruct (decide (k = detailFields E i)) as [->|Hd].
    + by rewrite !setEntry_eq.
    + by rewrite !setEntry_ne by done.
Qed.

(** [update.normalize(data)] when no cached item has the identifier of
    [data]: the item is not added to the list, whose entry holds the same
    items as before, while the detail entry of the identifier is set to
    [data]. *)
Theorem crud_update_unknown_id (E : string) (h0 h1 hx : heap) (g : value)
    (c : cache) (data i : value) (n : nat) (a0 : loc) (items : list value) :
  createQueryGroupCRUD E h0 = Some (g, h1) →
  idOf (h1 ++ hx) data = Some i →
  c (listFields E) = VRef a0 →
  (h1 ++ hx) !! a0 = Some (Arr items) →
  Forall (λ item, ∃ j, idOf (h1 ++ hx) item = Some j ∧ j ≠ i) items →
  ∃ h' c' a,
    callNormalize (S (S n)) (h1 ++ hx, c) g "update" data = Some (h', c') ∧
    c' (listFields E) = VRef a ∧
    h' !! a = Some (Arr items) ∧
    c' (detailFields E i) = data.
Proof.
  intros [-> ->]%createQueryGroupCRUD_inv Hid Hold Ha0 Hitems.
  pose proof (crud_normalizable E h0 _ n (preserved_app _ hx)) as Hnz.
  pose proof (listFields_ne_detailFields E i) as Hne.
  destruct (update_normalize_list _ _ _ _ _ Hnz c data i Hid a0 items
              (others_have_ids _ _ _ Hitems) Hold Ha0) as (h' & a & Hrun & Ha & _).
  rewrite replaced_others in Ha by done.
  eexists h', _, a. split; [done|].
  split; [by rewrite setEntry_ne, setEntry_eq|]. split; [done|].
  by rewrite setEntry_eq.
Qed.

(** Called without a result ([undefined], [null] or no argument at all), the
    [normalize] callbacks of [create], [update] and [remove] raise: each of
    them reads [data.id]. *)
Theorem normalize_without_data_raises (fuel : nat) (lst det : loc)
    (args : list value) (s : store) :
  default VUndefined (args !! 0%nat) = VUndefined ∨
  default VUndefined (args !! 0%nat) = VNull →
  call fuel (CreateNormalize lst det) args s = None ∧
  call fuel (UpdateNormalize lst det) args s = None ∧
  call fuel (RemoveNormalize lst det) args s = None.
Proof.
  intros Harg. destruct fuel as [|fuel]; [done|]. cbn [call].
  assert (∀ s', liftH (getProp "id" (default VUndefined (args !! 0%nat))) s' = None)
    as Hid.
  { intros s'. unfold liftH, getProp. by destruct Harg as [-> | ->]. }
  repeat split;
    repeat (match goal with
            | |- bind ?m _ ?s = None =>
                destruct (m s) as [[? ?]|] eqn:?;
                [erewrite bind_Some by done|by apply bind_None]
            end);
    by rewrite ?Hid in *.
Qed.

(** ** The batch helpers and the mutation hooks *)

Lemma forEach_app {S A} (body : A → M S unit) (xs ys : list A) (s : S) :
  forEach body (xs ++ ys) s = (let* _ := forEach body xs in forEach body ys) s.
Proof.
  revert s. induction xs as [|x xs IH]; intros s; [done|].
  cbn [app forEach]. unfold bind at 1 2 3. destruct (body x s) as [[[] s1]|]; [|done].
  apply IH.
Qed.

(** One batch call on [ks1 ++ ks2] is two batch calls in a row, on [ks1] and
    then on [ks2]: the same engine calls in the same order, the same
    allocations, and the same failure if any. *)
Theorem batch_calls_split (ks1 ks2 : list value) (invalidateOptions : option loc)
    (s : engineLog) :
  invalidateQueriesForKeys (ks1 ++ ks2) invalidateOptions s
    = (let* _ := invalidateQueriesForKeys ks1 invalidateOptions in
       invalidateQueriesForKeys ks2 invalidateOptions) s ∧
  cancelQueriesForKeys (ks1 ++ ks2) s
    = (let* _ := cancelQueriesForKeys ks1 in cancelQueriesForKeys ks2) s.
Proof.
  unfold invalidateQueriesForKeys, cancelQueriesForKeys.
  rewrite !List.filter_app. split; apply forEach_app.
Qed.

Lemma onStore_getProp name l props (h : heap) (c : cache) (log : list event) :
  h !! l = Some (Obj props) →
  onStore (liftH (getProp name (VRef l))) (h, c, log)
  = Some (default VUndefined (props !! name), (h, c, log)).
Proof.
  intros Hl. unfold onStore, liftH. cbn [fst snd].
  by rewrite (getProp_Obj _ _ _ _ Hl).
Qed.

Lemma onLog_invalidate ks (h : heap) (c : cache) (log : list event) :
  onLog (invalidateQueriesForKeys ks None) (h, c, log)
  = Some (tt, (h ++ map (λ k, Arr [k]) (List.filter truthy ks), c,
               log ++ invalidateEvents ∅ (length h) (List.filter truthy ks))).
Proof.
  unfold onLog, invalidateQueriesForKeys. cbn [fst snd].
  by rewrite (forEach_invalidate None ∅).
Qed.

Lemma eventKey_invalidate (h : heap) q k fields :
  h !! q = Some (Arr [VRef k]) →
  h !! k = Some (Obj fields) →
  eventKey h (InvalidateQueries (∅ ∪ {[ "queryKey" := VRef q ]})) = Some fields.
Proof.
  intros Hq Hk. unfold eventKey. rewrite (left_id_L ∅ (∪)), lookup_singleton_eq.
  cbn [mbind option_bind hashKey]. by rewrite Hq, Hk.
Qed.

Lemma call_InvalidatesFn n E i (h : heap) (c : cache) :
  call (S n) (InvalidatesFn E) [i] (h, c)
  = Some (VRef (length h + 2),
          (h ++ [ Obj {[ "entity" := VStr E; "id" := i ]};
                  Obj {[ "entity" := VStr E; "method" := VStr "list" ]};
                  Arr [VRef (length h); VRef (length h + 1)] ], c)).
Proof.
  cbn [call default from_option lookup list_lookup id].
  unfold liftH, new, alloc, bind, ret. cbn [fst snd].
  rewrite !length_app. cbn [length]. rewrite <- !app_assoc. cbn [app].
  by rewrite <- !Nat.add_assoc.
Qed.

Lemma normalize_call fuel (h : heap) (c : cache) (log : list event) g op f data h' c' :
  normalizeOf h g op = Some (VFun f) →
  callNormalize fuel (h, c) g op data = Some (h', c') →
  ∃ v, onStore (optionalCall fuel (VFun f) [data]) (h, c, log)
       = Some (v, (h', c', log)).
Proof.
  intros Hn. unfold callNormalize. cbn [fst]. rewrite Hn. cbn [mbind option_bind].
  unfold onStore, optionalCall, callValue. cbn [fst snd].
  destruct (call fuel f [data] (h, c)) as [[v [h2 c2]]|]; [|done].
  cbn. intros [= <- <-]. by exists v.
Qed.

(** [useUpdateAccount]'s [onSuccess(data, variables)]: the engine is asked to
    invalidate, in this order, the key [{entity, id: variables.id}] and the
    list key; then the cached list has its items with the [id] of [data]
    replaced by [data], and the detail entry of that [id] is [data].  The
    invalidation goes by [variables.id], the cache update by [data.id]. *)
Theorem update_hook_effect (E : string) (h0 h1 hx : heap) (g : value)
    (c : cache) (log : list event) (data variables i j : value) (n : nat)
    (a0 : loc) (items : list value) :
  createQueryGroupCRUD E h0 = Some (g, h1) →
  idOf (h1 ++ hx) data = Some i →
  idOf (h1 ++ hx) variables = Some j →
  c (listFields E) = VRef a0 →
  (h1 ++ hx) !! a0 = Some (Arr items) →
  Forall (λ item, is_Some (idOf (h1 ++ hx) item)) items →
  ∃ h' c' e1 e2 a,
    updateOnSuccess (S (S n)) g data variables (h1 ++ hx, c, log)
      = Some (tt, (h', c', log ++ [e1; e2])) ∧
    eventKey h' e1 = Some {[ "entity" := VStr E; "id" := j ]} ∧
    eventKey h' e2 = Some (listFields E) ∧
    c' (listFields E) = VRef a ∧
    h' !! a = Some (Arr (replaced (h1 ++ hx) i data items)) ∧
    c' (detailFields E i) = data.
Proof.
  intros [-> ->]%createQueryGroupCRUD_inv Hid Hvar Hold Ha0 Hitems.
  set (h := (h0 ++ crudCells E (length h0)) ++ hx) in *.
  assert (preserved (h0 ++ crudCells E (length h0)) h) as Hp by apply preserved_app.
  set (h4 := h ++ [ Obj {[ "entity" := VStr E; "id" := j ]};
                    Obj {[ "entity" := VStr E; "method" := VStr "list" ]};
                    Arr [VRef (length h); VRef (length h + 1)] ]).
  set (h6 := h4 ++ [Arr [VRef (length h)]; Arr [VRef (length h + 1)]]).
  assert (preserved h h6) as Hp6
    by (unfold h6, h4; apply preserved_app_r, preserved_app).
  assert (preserved (h0 ++ crudCells E (length h0)) h6) as Hp06
    by (by eapply preserved_trans).
  pose proof (crud_normalizable E h0 h6 n Hp06) as Hnz.
  pose proof (listFields_ne_detailFields E i) as Hne.
  destruct (update_normalize_list _ _ _ _ _ Hnz c data i
              (idOf_preserved _ _ _ _ Hp6 Hid) a0 items
              (ids_preserved _ _ _ Hp6 Hitems) Hold (Hp6 _ _ Ha0))
    as (h' & a & Hrun & Ha & Hp').
  rewrite (replaced_preserved h h6 i data items Hp6 Hitems) in Ha.
  destruct Hnz as (lst & det & lp & lk & dp & f & _ & _ & Hun & _).
  destruct (normalize_call _ _ _
              (log ++ invalidateEvents ∅ (length h4)
                        [VRef (length h); VRef (length h + 1)])
              _ _ _ _ _ _ Hun Hrun) as (v & Hcall).
  assert (length h4 = (length h + 3)%nat) as Hlen4
    by (unfold h4; rewrite length_app; cbn; lia).
  eexists h', _, _, _, a. split; [|split; [|split; [|split; [|split; [done|]]]]].
  - unfold updateOnSuccess.
    rewrite (bind_Some _ _ _ (VRef (length h0 + 8)) (h, c, log)).
    2:{ rewrite (onStore_getProp _ _ _ _ _ _ (crud_cell E h0 h 10 _ Hp eq_refl)).
        gmap_lookup. reflexivity. }
    rewrite (bind_Some _ _ _ (VFun (InvalidatesFn E)) (h, c, log)).
    2:{ rewrite (onStore_getProp _ _ _ _ _ _ (crud_cell E h0 h 8 _ Hp eq_refl)).
        gmap_lookup. reflexivity. }
    rewrite (bind_Some _ _ _ j (h, c, log)).
    2:{ unfold onStore, liftH. cbn [fst snd]. by rewrite (getProp_idOf _ _ _ Hvar). }
    rewrite (bind_Some _ _ _ (VRef (length h + 2)) (h4, c, log)).
    2:{ unfold onStore, callValue. cbn [fst snd]. by rewrite call_InvalidatesFn. }
    rewrite (bind_Some _ _ _ [VRef (length h); VRef (length h + 1)] (h4, c, log)).
    2:{ unfold onStore, liftH, elemsOf, h4. cbn [fst snd].
        rewrite (lookup_app_plus h). reflexivity. }
    rewrite (bind_Some _ _ _ tt
               (h6, c, log ++ invalidateEvents ∅ (length h4)
                                [VRef (length h); VRef (length h + 1)]))
      by apply (onLog_invalidate [VRef (length h); VRef (length h + 1)] h4 c log).
    rewrite (bind_Some _ _ _ (VRef (length h0 + 8))
               (h6, c, log ++ invalidateEvents ∅ (length h4) [VRef (length h); VRef (length h + 1)])).
    2:{ rewrite (onStore_getProp _ _ _ _ _ _ (crud_cell E h0 h6 10 _ Hp06 eq_refl)).
        gmap_lookup. reflexivity. }
    rewrite (bind_Some _ _ _ (VFun (UpdateNormalize lst det))
               (h6, c, log ++ invalidateEvents ∅ (length h4) [VRef (length h); VRef (length h + 1)])).
    2:{ rewrite (onStore_getProp _ _ _ _ _ _ (crud_cell E h0 h6 8 _ Hp06 eq_refl)).
        revert Hun. unfold normalizeOf, field, fieldsOf.
        rewrite (crud_cell E h0 h6 10 _ Hp06 eq_refl). cbn [mbind option_bind].
        gmap_lookup. cbn [mbind option_bind].
        rewrite (crud_cell E h0 h6 8 _ Hp06 eq_refl). cbn [mbind option_bind].
        gmap_lookup. by intros [= <- <-]. }
    rewrite (bind_Some _ _ _ v
               (h', setEntry (detailFields E i) data
                      (setEntry (listFields E) (VRef a) c),
                log ++ invalidateEvents ∅ (length h4)
                         [VRef (length h); VRef (length h + 1)]))
      by apply Hcall.
    unfold invalidateEvents. cbn [imap]. reflexivity.
  - apply (eventKey_invalidate _ _ (length h)).
    + apply Hp'. unfold h6. rewrite Nat.add_0_r. by rewrite lookup_app_length.
    + apply Hp', preserved_app. unfold h4. by rewrite lookup_app_length.
  - apply (eventKey_invalidate _ _ (length h + 1)%nat).
    + apply Hp'. unfold h6. by rewrite lookup_app_plus.
    + apply Hp', preserved_app. unfold h4. by rewrite lookup_app_plus.
  - by rewrite setEntry_ne, setEntry_eq.
  - by rewrite setEntry_eq.
Qed.

(** [useCreateAccount]'s [onSuccess(data)]: the engine is asked once to
    invalidate the list key, then [data] is appended to the cached list (or
    the list entry is set to [[data]] when absent) and the detail entry of its
    [id] is set to [data]. *)
Theorem create_hook_effect (E : string) (h0 h1 hx : heap) (g : value)
    (c : cache) (log : list event) (data i : value) (n : nat) :
  createQueryGroupCRUD E h0 = Some (g, h1) →
  idOf (h1 ++ hx) data = Some i →
  (c (listFields E) = VUndefined →
   ∃ h' c' e a,
     createOnSuccess (S (S n)) g data (h1 ++ hx, c, log)
       = Some (tt, (h', c', log ++ [e])) ∧
     eventKey h' e = Some (listFields E) ∧
     c' (listFields E) = VRef a ∧ h' !! a = Some (Arr [data]) ∧
     c' (detailFields E i) = data) ∧
  (∀ a0 items,
   c (listFields E) = VRef a0 →
   (h1 ++ hx) !! a0 = Some (Arr items) →
   ∃ h' c' e a,
     createOnSuccess (S (S n)) g data (h1 ++ hx, c, log)
       = Some (tt, (h', c', log ++ [e])) ∧
     eventKey h' e = Some (listFields E) ∧
     c' (listFields E) = VRef a ∧ h' !! a = Some (Arr (items ++ [data])) ∧
     c' (detailFields E i) = data).
Proof.
  intros [-> ->]%createQueryGroupCRUD_inv Hid.
  set (h := (h0 ++ crudCells E (length h0)) ++ hx) in *.
  assert (preserved (h0 ++ crudCells E (length h0)) h) as Hp by apply preserved_app.
  set (h2 := h ++ [Arr [VRef (length h0 + 6)]]).
  assert (preserved h h2) as Hp2 by apply preserved_app.
  assert (preserved (h0 ++ crudCells E (length h0)) h2) as Hp02
    by (by eapply preserved_trans).
  pose proof (crud_normalizable E h0 h2 n Hp02) as Hnz.
  pose proof (listFields_ne_detailFields E i) as Hne.
  pose proof (idOf_preserved _ _ _ _ Hp2 Hid) as Hid2.
  assert (∀ h' c',
    callNormalize (S (S n)) (h2, c) (VRef (length h0 + 10)) "create" data
      = Some (h', c') →
    preserved h2 h' →
    createOnSuccess (S (S n)) (VRef (length h0 + 10)) data (h, c, log)
      = Some (tt, (h', c', log ++ [InvalidateQueries
                                     (∅ ∪ {[ "queryKey" := VRef (length h + 0) ]})])) ∧
    eventKey h' (InvalidateQueries (∅ ∪ {[ "queryKey" := VRef (length h + 0) ]}))
      = Some (listFields E)) as Hhook.
  { intros h' c' Hrun Hp'.
    destruct Hnz as (lst & det & lp & lk & dp & f & _ & Hcn & _).
    destruct (normalize_call _ _ _
                (log ++ [InvalidateQueries
                           (∅ ∪ {[ "queryKey" := VRef (length h + 0) ]})])
                _ _ _ _ _ _ Hcn Hrun) as (v & Hcall).
    split.
    - unfold createOnSuccess.
      rewrite (bind_Some _ _ _ (VRef (length h0 + 7)) (h, c, log)).
      2:{ rewrite (onStore_getProp _ _ _ _ _ _ (crud_cell E h0 h 10 _ Hp eq_refl)).
          gmap_lookup. reflexivity. }
      rewrite (bind_Some _ _ _ (VRef (length h0 + 6)) (h, c, log)).
      2:{ rewrite (onStore_getProp _ _ _ _ _ _ (crud_cell E h0 h 7 _ Hp eq_refl)).
          gmap_lookup. reflexivity. }
      rewrite (bind_Some _ _ _ tt
                 (h2, c, log ++ [InvalidateQueries
                                   (∅ ∪ {[ "queryKey" := VRef (length h + 0) ]})]))
        by apply (onLog_invalidate [VRef (length h0 + 6)] h c log).
      rewrite (bind_Some _ _ _ (VRef (length h0 + 7))
                 (h2, c, log ++ [InvalidateQueries
                                   (∅ ∪ {[ "queryKey" := VRef (length h + 0) ]})])).
      2:{ rewrite (onStore_getProp _ _ _ _ _ _ (crud_cell E h0 h2 10 _ Hp02 eq_refl)).
          gmap_lookup. reflexivity. }
      rewrite (bind_Some _ _ _ (VFun (CreateNormalize lst det))
                 (h2, c, log ++ [InvalidateQueries
                                   (∅ ∪ {[ "queryKey" := VRef (length h + 0) ]})])).
      2:{ rewrite (onStore_getProp _ _ _ _ _ _ (crud_cell E h0 h2 7 _ Hp02 eq_refl)).
          revert Hcn. unfold normalizeOf, field, fieldsOf.
          rewrite (crud_cell E h0 h2 10 _ Hp02 eq_refl). cbn [mbind option_bind].
          gmap_lookup. cbn [mbind option_bind].
          rewrite (crud_cell E h0 h2 7 _ Hp02 eq_refl). cbn [mbind option_bind].
          gmap_lookup. by intros [= <- <-]. }
      by rewrite (bind_Some _ _ _ v
                    (h', c', log ++ [InvalidateQueries
                                       (∅ ∪ {[ "queryKey" := VRef (length h + 0) ]})]))
        by apply Hcall.
    - apply (eventKey_invalidate _ _ (length h0 + 6)%nat).
      + apply Hp'. unfold h2. rewrite Nat.add_0_r. by rewrite lookup_app_length.
      + apply Hp', (crud_cell E h0 h2 6 _ Hp02 eq_refl). }
  split.
  - intros Hold.
    destruct (create_normalize_absent _ _ _ _ _ Hnz c data i Hid2)
      as (h' & a & Hrun & Ha & Hp'); [by rewrite Hold|].
    destruct (Hhook _ _ Hrun Hp') as [Hrun' Hkey].
    eexists h', _, _, a. split; [done|]. split; [done|].
    split; [by rewrite setEntry_ne, setEntry_eq|]. split; [done|].
    by rewrite setEntry_eq.
  - intros a0 items Hold Ha0.
    destruct (create_normalize_list _ _ _ _ _ Hnz c data i Hid2 a0 items Hold
                (Hp2 _ _ Ha0)) as (h' & a & Hrun & Ha & Hp').
    destruct (Hhook _ _ Hrun Hp') as [Hrun' Hkey].
    eexists h', _, _, a. split; [done|]. split; [done|].
    split; [by rewrite setEntry_ne, setEntry_eq|]. split; [done|].
    by rewrite setEntry_eq.
Qed.

(** [useDeleteAccount]'s [onSuccess(data, id)]: the engine is asked to
    invalidate, in this order, the key [{entity, id}] and the list key; then
    the items whose [id] is [id] are removed from the cached list and the
    detail entry of [id] is unset. *)
Theorem delete_hook_effect (E : string) (h0 h1 hx : heap) (g : value)
    (c : cache) (log : list event) (i : value) (n : nat)
    (a0 : loc) (items : list value) :
  createQueryGroupCRUD E h0 = Some (g, h1) →
  c (listFields E) = VRef a0 →
  (h1 ++ hx) !! a0 = Some (Arr items) →
  Forall (λ item, is_Some (idOf (h1 ++ hx) item)) items →
  ∃ h' c' e1 e2 a,
    deleteOnSuccess (S (S n)) g i (h1 ++ hx, c, log)
      = Some (tt, (h', c', log ++ [e1; e2])) ∧
    eventKey h' e1 = Some {[ "entity" := VStr E; "id" := i ]} ∧
    eventKey h' e2 = Some (listFields E) ∧
    c' (listFields E) = VRef a ∧
    h' !! a = Some (Arr (removed (h1 ++ hx) i items)) ∧
    c' (detailFields E i) = VUndefined.
Proof.
  intros [-> ->]%createQueryGroupCRUD_inv Hold Ha0 Hitems.
  set (h := (h0 ++ crudCells E (length h0)) ++ hx) in *.
  assert (preserved (h0 ++ crudCells E (length h0)) h) as Hp by apply preserved_app.
  set (h4 := h ++ [ Obj {[ "entity" := VStr E; "id" := i ]};
                    Obj {[ "entity" := VStr E; "method" := VStr "list" ]};
                    Arr [VRef (length h); VRef (length h + 1)] ]).
  set (h6 := h4 ++ [Arr [VRef (length h)]; Arr [VRef (length h + 1)]]).
  set (h7 := h6 ++ [Obj {[ "id" := i ]}]).
  set (log' := log ++ invalidateEvents ∅ (length h4)
                        [VRef (length h); VRef (length h + 1)]).
  assert (preserved h h6) as Hp6
    by (unfold h6, h4; apply preserved_app_r, preserved_app).
  assert (preserved h h7) as Hp7 by (unfold h7; by apply preserved_app_r).
  assert (preserved (h0 ++ crudCells E (length h0)) h6) as Hp06
    by (by eapply preserved_trans).
  assert (preserved (h0 ++ crudCells E (length h0)) h7) as Hp07
    by apply (preserved_trans _ h _ Hp Hp7).
  pose proof (crud_normalizable E h0 h7 n Hp07) as Hnz.
  pose proof (listFields_ne_detailFields E i) as Hne.
  assert (idOf h7 (VRef (length h6)) = Some i) as Hid.
  { unfold idOf, getProp, h7. rewrite lookup_app_length.
    cbn [lookup list_lookup]. by rewrite lookup_singleton_eq. }
  destruct (remove_normalize_list _ _ _ _ _ Hnz c (VRef (length h6)) i Hid a0 items
              (ids_preserved _ _ _ Hp7 Hitems) Hold (Hp7 _ _ Ha0))
    as (h' & a & Hrun & Ha & Hp').
  rewrite (removed_preserved h h7 i items Hp7 Hitems) in Ha.
  destruct Hnz as (lst & det & lp & lk & dp & f & _ & _ & _ & Hrn & _).
  destruct (normalize_call _ _ _ log' _ _ _ _ _ _ Hrn Hrun) as (v & Hcall).
  eexists h', _, _, _, a. split; [|split; [|split; [|split; [|split; [done|]]]]].
  - unfold deleteOnSuccess.
    rewrite (bind_Some _ _ _ (VRef (length h0 + 9)) (h, c, log)).
    2:{ rewrite (onStore_getProp _ _ _ _ _ _ (crud_cell E h0 h 10 _ Hp eq_refl)).
        gmap_lookup. reflexivity. }
    rewrite (bind_Some _ _ _ (VFun (InvalidatesFn E)) (h, c, log)).
    2:{ rewrite (onStore_getProp _ _ _ _ _ _ (crud_cell E h0 h 9 _ Hp eq_refl)).
        gmap_lookup. reflexivity. }
    rewrite (bind_Some _ _ _ (VRef (length h + 2)) (h4, c, log)).
    2:{ unfold onStore, callValue. cbn [fst snd]. by rewrite call_InvalidatesFn. }
    rewrite (bind_Some _ _ _ [VRef (length h); VRef (length h + 1)] (h4, c, log)).
    2:{ unfold onStore, liftH, elemsOf, h4. cbn [fst snd].
        rewrite (lookup_app_plus h). reflexivity. }
    rewrite (bind_Some _ _ _ tt (h6, c, log'))
      by apply (onLog_invalidate [VRef (length h); VRef (length h + 1)] h4 c log).
    rewrite (bind_Some _ _ _ (VRef (length h0 + 9)) (h6, c, log')).
    2:{ rewrite (onStore_getProp _ _ _ _ _ _ (crud_cell E h0 h6 10 _ Hp06 eq_refl)).
        gmap_lookup. reflexivity. }
    rewrite (bind_Some _ _ _ (VFun (RemoveNormalize lst det)) (h6, c, log')).
    2:{ rewrite (onStore_getProp _ _ _ _ _ _ (crud_cell E h0 h6 9 _ Hp06 eq_refl)).
        revert Hrn. unfold normalizeOf, field, fieldsOf.
        rewrite (crud_cell E h0 h7 10 _ Hp07 eq_refl). cbn [mbind option_bind].
        gmap_lookup. cbn [mbind option_bind].
        rewrite (crud_cell E h0 h7 9 _ Hp07 eq_refl). cbn [mbind option_bind].
        gmap_lookup. by intros [= <- <-]. }
    rewrite (bind_Some _ _ _ (VRef (length h6)) (h7, c, log')) by done.
    rewrite (bind_Some _ _ _ v
               (h', setEntry (detailFields E i) VUndefined
                      (setEntry (listFields E) (VRef a) c), log'))
      by apply Hcall.
    unfold log', invalidateEvents. cbn [imap]. reflexivity.
  - apply (eventKey_invalidate _ _ (length h)).
    + apply Hp', preserved_app. unfold h6. rewrite Nat.add_0_r.
      by rewrite lookup_app_length.
    + apply Hp', preserved_app, preserved_app. unfold h4.
      by rewrite lookup_app_length.
  - apply (eventKey_invalidate _ _ (length h + 1)%nat).
    + apply Hp', preserved_app. unfold h6. by rewrite lookup_app_plus.
    + apply Hp', preserved_app, preserved_app. unfold h4. by rewrite lookup_app_plus.
  - by rewrite setEntry_ne, setEntry_eq.
  - by rewrite setEntry_eq.
Qed.

(** ** [normalizeParams] *)

(** [normalizeParams] returns a new object that holds the fields of [params]
    other than those set to [undefined] or to the empty string, with their
    values: [null], [0] and [false] are kept.  [params] is left as it was,
    and normalizing the result again gives an object with the same fields. *)
Theorem normalizeParams_idempotent (h : heap) (l : loc) (props : gmap string value) :
  h !! l = Some (Obj props) →
  ∃ r h1 r' h2 fields,
    normalizeParams (VRef l) h = Some (VRef r, h1) ∧
    normalizeParams (VRef r) h1 = Some (VRef r', h2) ∧
    (length h ≤ r)%nat ∧
    h1 !! r = Some (Obj fields) ∧
    h2 !! r' = Some (Obj fields) ∧
    h2 !! l = Some (Obj props) ∧
    ∀ name v, fields !! name = Some v ↔
              props !! name = Some v ∧ v ≠ VUndefined ∧ v ≠ VStr "".
Proof.
  intros Hl.
  set (fields := filter (λ entry, keptParam entry = true) props).
  assert (∀ name v, fields !! name = Some v ↔
                    props !! name = Some v ∧ v ≠ VUndefined ∧ v ≠ VStr "") as Hfields.
  { intros name v. unfold fields. rewrite map_lookup_filter_Some.
    unfold keptParam, strictEq. cbn [snd].
    rewrite andb_true_iff, !negb_true_iff, !bool_decide_eq_false. tauto. }
  assert (filter (λ entry, keptParam entry = true) fields = fields) as Hid.
  { apply map_eq. intros name. apply option_eq. intros v.
    rewrite map_lookup_filter_Some. split; [by intros [? _]|].
    intros Hv. split; [done|]. unfold fields in Hv.
    by apply map_lookup_filter_Some in Hv as [_ Hv]. }
  exists (length h), (h ++ [Obj fields]), (length (h ++ [Obj fields])),
    ((h ++ [Obj fields]) ++ [Obj fields]), fields.
  split; [|split; [|split; [lia|split; [|split; [|split; [|done]]]]]].
  - unfold normalizeParams, objectEntries.
    rewrite (bind_Some _ _ _ props h) by (unfold spread; by rewrite Hl). done.
  - unfold normalizeParams, objectEntries.
    rewrite (bind_Some _ _ _ fields (h ++ [Obj fields])).
    + by rewrite Hid.
    + unfold spread. by rewrite lookup_app_length.
  - by rewrite lookup_app_length.
  - by rewrite lookup_app_length.
  - by do 2 apply lookup_app_l_Some.
Qed.

(** ** The entity-mapping helpers *)

Lemma filter_truthy_idemp (ks : list value) :
  List.filter truthy (List.filter truthy ks) = List.filter truthy ks.
Proof.
  induction ks as [|k ks IH]; [done|]. cbn [List.filter].
  destruct (truthy k) eqn:Hk; [|done]. cbn [List.filter]. by rewrite Hk, IH.
Qed.

(** The two variants of [invalidateAffectedEntities] do the same on every
    input: dropping the unknown names before the batch call changes nothing,
    as the batch call skips the falsy keys itself. *)
Theorem invalidateAffectedEntities_variants (m : loc) (entities : list string)
    (s : engineLog) :
  invalidateAffectedEntities m entities s
  = invalidateAffectedEntitiesTyped m entities s.
Proof.
  unfold invalidateAffectedEntities, invalidateAffectedEntitiesTyped,
    getQueryKeysFromAffectedEntities, liftL, bind, ret.
  destruct (arrayMap (getElem m) entities s.1) as [[keys h']|]; [|done].
  unfold invalidateQueriesForKeys. by rewrite filter_truthy_idemp.
Qed.

Lemma arrayMap_getElem m mp entities h :
  h !! m = Some (Obj mp) →
  Forall (λ e, is_Some (mp !! e) ∨ e ∉ inheritedNames) entities →
  arrayMap (getElem m) entities h
  = Some (map (λ e, default VUndefined (mp !! e)) entities, h).
Proof.
  intros Hm. induction 1 as [|e entities He _ IH]; [done|].
  cbn [arrayMap map].
  rewrite (bind_Some _ _ _ (default VUndefined (mp !! e)) h).
  - by rewrite (bind_Some _ _ _ _ _ IH).
  - unfold getElem. rewrite Hm. destruct (mp !! e) as [v|] eqn:Hv; [done|].
    destruct He as [[? ?]|He]; [done|]. by rewrite bool_decide_eq_false_2.
Qed.

(** [invalidateAffectedEntities] asks the engine to invalidate once per name
    that the map knows with a truthy key, in the order of the names, a name
    given twice being invalidated twice; the names the map does not know are
    skipped, and when it knows none of them nothing happens at all. *)
Theorem invalidateAffectedEntities_calls (m : loc) (mp : gmap string value)
    (entities : list string) (h : heap) (log : list event) :
  h !! m = Some (Obj mp) →
  Forall (λ e, is_Some (mp !! e) ∨ e ∉ inheritedNames) entities →
  let keys := List.filter truthy (map (λ e, default VUndefined (mp !! e)) entities) in
  invalidateAffectedEntities m entities (h, log)
    = Some (tt, (h ++ map (λ k, Arr [k]) keys,
                 log ++ invalidateEvents ∅ (length h) keys)) ∧
  (Forall (λ e, mp !! e = None) entities →
   invalidateAffectedEntities m entities (h, log) = Some (tt, (h, log))).
Proof.
  intros Hm Hes keys.
  assert (invalidateAffectedEntities m entities (h, log)
          = Some (tt, (h ++ map (λ k, Arr [k]) keys,
                       log ++ invalidateEvents ∅ (length h) keys))) as Hrun.
  { unfold invalidateAffectedEntities, getQueryKeysFromAffectedEntities.
    rewrite (bind_Some _ _ _ keys (h, log)).
    - unfold invalidateQueriesForKeys. rewrite (forEach_invalidate None ∅) by done.
      unfold keys. by rewrite !filter_truthy_idemp.
    - unfold liftL. cbn [fst snd].
      by rewrite (bind_Some _ _ _ _ _ (arrayMap_getElem m mp entities h Hm Hes)). }
  split; [done|]. intros Hnone. rewrite Hrun.
  assert (keys = []) as ->.
  { unfold keys. clear -Hnone. induction Hnone as [|e es He _ IH]; [done|].
    cbn [map List.filter]. by rewrite He. }
  cbn. by rewrite !app_nil_r.
Qed.

Lemma setAdd_spec xs x :
  NoDup xs →
  NoDup (setAdd xs x) ∧ ∀ y, y ∈ setAdd xs x ↔ y ∈ xs ∨ y = x.
Proof.
  intros Hxs. unfold setAdd. case_bool_decide as Hx.
  - split; [done|]. intros y. split; [by left|]. by intros [?| ->].
  - split.
    + apply NoDup_app. split; [done|]. split; [|apply NoDup_singleton].
      intros y Hy ->%list_elem_of_singleton. done.
    + intros y. by rewrite elem_of_app, list_elem_of_singleton.
Qed.

Lemma foldl_setAdd_spec xs acc :
  NoDup acc →
  NoDup (foldl setAdd acc xs) ∧ ∀ y, y ∈ foldl setAdd acc xs ↔ y ∈ acc ∨ y ∈ xs.
Proof.
  revert acc. induction xs as [|x xs IH]; intros acc Hacc.
  - split; [done|]. intros y. rewrite elem_of_nil. tauto.
  - cbn [foldl]. destruct (setAdd_spec acc x Hacc) as [Hnd Hin].
    destruct (IH _ Hnd) as [Hnd' Hin']. split; [done|].
    intros y. rewrite Hin', Hin, elem_of_cons. tauto.
Qed.

Lemma collect_spec (deps : gmap string (list string)) (es : list string) :
  ∀ acc,
  NoDup acc →
  Forall (λ e, is_Some (deps !! e) ∨ e ∉ inheritedNames) es →
  ∃ all,
    foldl (λ acc entity, acc ≫= λ allEntities,
             addDependencies deps allEntities entity) (Some acc) es = Some all ∧
    NoDup all ∧
    ∀ y, y ∈ all ↔ y ∈ acc ∨ ∃ e ds, e ∈ es ∧ deps !! e = Some ds ∧ y ∈ ds.
Proof.
  induction es as [|e es IH]; intros acc Hacc Hes.
  - exists acc. split; [done|]. split; [done|]. intros y. split; [by left|].
    intros [?|(e & ds & He & _)]; [done|]. by apply elem_of_nil in He.
  - apply Forall_cons in Hes as [He Hes]. cbn [foldl mbind option_bind].
    unfold addDependencies at 2.
    destruct (deps !! e) as [ds|] eqn:Hds.
    + destruct (foldl_setAdd_spec ds acc Hacc) as [Hnd Hin].
      destruct (IH _ Hnd Hes) as (all & Hrun & Hall & Hmem).
      exists all. split; [done|]. split; [done|]. intros y.
      rewrite Hmem, Hin. split.
      * intros [[?|Hy]|(e' & ds' & He' & Hds' & Hy)]; [by left|right..].
        -- exists e, ds. split; [left|done].
        -- exists e', ds'. split; [by right|done].
      * intros [?|(e' & ds' & [->|He']%elem_of_cons & Hds' & Hy)]; [by left; left|..].
        -- rewrite Hds in Hds'. injection Hds' as <-. left. by right.
        -- right. by exists e', ds'.
    + destruct He as [[? ?]|He]; [done|]. rewrite bool_decide_eq_false_2 by done.
      destruct (IH _ Hacc Hes) as (all & Hrun & Hall & Hmem).
      exists all. split; [done|]. split; [done|]. intros y. rewrite Hmem.
      split.
      * intros [?|(e' & ds' & He' & Hds' & Hy)]; [by left|right].
        exists e', ds'. split; [by right|done].
      * intros [?|(e' & ds' & [->|He']%elem_of_cons & Hds' & Hy)]; [by left|..].
        -- by rewrite Hds in Hds'.
        -- right. by exists e', ds'.
Qed.

(** [invalidateWithDependencies] hands each name to
    [invalidateAffectedEntities] once, however often it is listed or depended
    on: the names given, then the dependencies of each of them.  The
    dependencies of a dependency are not followed. *)
Theorem invalidateWithDependencies_once (m : loc) (entities : list string)
    (s : engineLog) :
  Forall (λ e, is_Some (ENTITY_DEPENDENCIES !! e) ∨ e ∉ inheritedNames) entities →
  ∃ all,
    collectEntities ENTITY_DEPENDENCIES entities = Some all ∧
    invalidateWithDependencies m entities s = invalidateAffectedEntities m all s ∧
    NoDup all ∧
    ∀ y, y ∈ all ↔
         y ∈ entities ∨
         ∃ e ds, e ∈ entities ∧ ENTITY_DEPENDENCIES !! e = Some ds ∧ y ∈ ds.
Proof.
  intros Hes.
  destruct (foldl_setAdd_spec entities [] (NoDup_nil_2)) as [Hnd Hin].
  destruct (collect_spec ENTITY_DEPENDENCIES entities _ Hnd Hes)
    as (all & Hrun & Hall & Hmem).
  exists all. split; [done|]. split; [|split; [done|]].
  - unfold invalidateWithDependencies, collectEntities. by rewrite Hrun.
  - intros y. rewrite Hmem, Hin, elem_of_nil. tauto.
Qed.

(** ** Key injection with array-valued extra fields *)

(** A loop that keeps an invariant over the elements already visited. *)
Lemma forEach_inv {S A} (body : A → M S unit) (I : list A → S → Prop) (xs : list A) :
  NoDup xs →
  (∀ x done s, x ∈ xs → x ∉ done → I done s →
     ∃ s', body x s = Some (tt, s') ∧ I (x :: done) s') →
  ∀ done s, (∀ x, x ∈ xs → x ∉ done) → I done s →
  ∃ s', forEach body xs s = Some (tt, s') ∧ I (reverse xs ++ done) s'.
Proof.
  induction xs as [|x xs IH]; intros Hnd Hstep done s Hfresh HI.
  { exists s. by split. }
  apply NoDup_cons in Hnd as [Hx Hnd].
  destruct (Hstep x done s) as (s1 & Hrun & HI1); [left|apply Hfresh; left|done|].
  destruct (IH Hnd) with (done := x :: done) (s := s1) as (s2 & Hloop & HI2).
  - intros y d s' Hy. apply Hstep. by right.
  - intros y Hy [->|Hd]%elem_of_cons; [done|]. by apply (Hfresh y); [right|].
  - done.
  - exists s2. cbn [forEach]. rewrite (bind_Some _ _ _ _ _ Hrun).
    split; [done|]. by rewrite reverse_cons, <- app_assoc.
Qed.

Lemma arrayMap_prims extra fuel elems h :
  Forall (λ y, prim y = true) elems →
  arrayMap (process (S fuel) extra) elems h = Some (elems, h).
Proof.
  induction 1 as [|y elems Hy _ IH]; [done|]. cbn [arrayMap].
  rewrite (bind_Some _ _ _ y h) by (by destruct y).
  by rewrite (bind_Some _ _ _ _ _ IH).
Qed.

(** [process] on a shallow value. *)
Lemma process_shallow extra fuel h0 h x :
  shallow h0 x →
  (∀ a elems, x = VRef a → h0 !! a = Some (Arr elems) → h !! a = Some (Arr elems)) →
  ∃ y h', process (S (S fuel)) extra x h = Some (y, h') ∧
          copied h0 h' (length h) x y ∧
          (h' = h ∨ ∃ c, h' = h ++ [c]).
Proof.
  intros [Hp|(a & elems & -> & Ha & Hel)] Hsame.
  - exists x, h. split; [by destruct x|]. split; [by left|by left].
  - exists (VRef (length h)), (h ++ [Arr elems]). split; [|split].
    + cbn [process]. rewrite (Hsame a elems eq_refl Ha).
      rewrite (bind_Some _ _ _ elems h) by (by apply arrayMap_prims). done.
    + right. exists a, elems, (length h). repeat split; try done.
      by rewrite lookup_app_length.
    + right. by eexists.
Qed.

(** [process] on an object whose fields are shallow, such as a merged key:
    the primitives stay, each array is replaced by a copy. *)
Lemma process_merged extra fuel h0 h k merged :
  h !! k = Some (Obj merged) →
  (∀ name x, merged !! name = Some x → shallow h0 x) →
  (∀ x, merged !! "queryKey" = Some x → prim x = true) →
  (∀ a elems, h0 !! a = Some (Arr elems) → h !! a = Some (Arr elems)) →
  ∃ h' merged',
    process (S (S (S fuel))) extra (VRef k) h = Some (VRef k, h') ∧
    h' !! k = Some (Obj merged') ∧
    (∀ name, merged' !! name = None ↔ merged !! name = None) ∧
    (∀ name x y, merged !! name = Some x → merged' !! name = Some y →
                 copied h0 h' (length h) x y) ∧
    (∀ m c, h !! m = Some c → m ≠ k → h' !! m = Some c) ∧
    (length h ≤ length h')%nat.
Proof.
  intros Hk Hshallow Hkey Harrays.
  pose proof (lookup_lt_length_Some _ _ _ Hk) as Hlt.
  assert (injectQueryKey extra k h = Some (tt, h)) as Hinj.
  { destruct (merged !! "queryKey") as [x|] eqn:Hq.
    - by apply (injectQueryKey_prim _ _ merged x), Hkey.
    - by apply (injectQueryKey_none _ _ merged). }
  set (I := λ (done : list string) (hi : heap),
         ∃ mi, hi !! k = Some (Obj mi) ∧
               (∀ name, name ∉ done → mi !! name = merged !! name) ∧
               (∀ name, mi !! name = None ↔ merged !! name = None) ∧
               (∀ name x y, name ∈ done → merged !! name = Some x →
                            mi !! name = Some y → copied h0 hi (length h) x y) ∧
               (∀ m c, h !! m = Some c → m ≠ k → hi !! m = Some c) ∧
               (length h ≤ length hi)%nat).
  destruct (forEach_inv
              (λ prop,
                 let* own := hasOwn k prop in
                 if own : bool then
                   let* v := getProp prop (VRef k) in
                   let* v' := process (S (S fuel)) extra v in
                   setProp k prop v'
                 else ret tt) I (map_to_list merged).*1) with (done := @nil string) (s := h)
    as (hf & Hloop & (mf & Hkf & _ & Hdom & Hcopied & Hframe & Hlen)).
  - apply NoDup_fst_map_to_list.
  - intros name done hi [x Hx]%elem_of_ownKeys Hnew
           (mi & Hki & Hrest & Hdomi & Hdone & Hframei & Hleni).
    assert (mi !! name = Some x) as Hxi by (by rewrite Hrest).
    destruct (process_shallow extra fuel h0 hi x (Hshallow _ _ Hx))
      as (y & h2 & Hrun & Hcopy & Hh2).
    { intros a elems -> Ha. apply Hframei; [by apply Harrays|].
      intros ->. apply Harrays in Ha. by rewrite Hk in Ha. }
    pose proof (lookup_lt_length_Some _ _ _ Hki) as Hlti.
    assert (h2 !! k = Some (Obj mi) ∧ (length hi ≤ length h2)%nat ∧
            ∀ m c, hi !! m = Some c → h2 !! m = Some c) as (Hk2 & Hlen2 & Hp2).
    { destruct Hh2 as [->|[c ->]]; [done|].
      split; [by apply lookup_app_l_Some|]. split; [rewrite length_app; lia|].
      intros m c' Hm. by apply lookup_app_l_Some. }
    exists (<[k := Obj (<[name := y]> mi)]> h2). split.
    + rewrite (bind_Some _ _ _ _ _ (hasOwn_Obj _ _ _ _ Hki)).
      rewrite bool_decide_eq_true_2 by eauto.
      rewrite (bind_Some _ _ _ _ _ (getProp_Obj _ _ _ _ Hki)).
      rewrite Hxi. cbn [default from_option id].
      rewrite (bind_Some _ _ _ _ _ Hrun). unfold setProp. by rewrite Hk2.
    + exists (<[name := y]> mi). split; [|split; [|split; [|split; [|split]]]].
      * apply list_lookup_insert_eq. lia.
      * intros name' Hnot. rewrite lookup_insert_ne; [|intros ->; apply Hnot; left].
        apply Hrest. intros Hin. apply Hnot. by right.
      * intros name'. destruct (decide (name' = name)) as [->|Hne].
        -- rewrite lookup_insert_eq, Hx. split; done.
        -- rewrite lookup_insert_ne by done. apply Hdomi.
      * intros name' x' y' Hin Hx' Hy'.
        assert (∀ a' elems, (length h ≤ a')%nat → h2 !! a' = Some (Arr elems) →
                  <[k := Obj (<[name := y]> mi)]> h2 !! a' = Some (Arr elems)) as Hkeep.
        { intros a' elems Ha' Hel. rewrite list_lookup_insert_ne by lia. done. }
        destruct (decide (name' = name)) as [->|Hne].
        -- rewrite lookup_insert_eq in Hy'. injection Hy' as <-.
           rewrite Hx in Hx'. injection Hx' as <-.
           destruct Hcopy as [?|(a & elems & a' & -> & Ha & -> & Ha' & Hel)]; [by left|].
           right. exists a, elems, a'. repeat split; try done; [lia|].
           apply Hkeep; [lia|done].
        -- rewrite lookup_insert_ne in Hy' by done.
           apply elem_of_cons in Hin as [->|Hin]; [done|].
           destruct (Hdone name' x' y' Hin Hx' Hy')
             as [?|(a & elems & a' & -> & Ha & -> & Ha' & Hel)]; [by left|].
           right. exists a, elems, a'. repeat split; try done.
           apply Hkeep; [done|]. by apply Hp2.
      * intros m c Hm Hne. rewrite list_lookup_insert_ne by done.
        by apply Hp2, Hframei.
      * rewrite length_insert. lia.
  - intros name _. apply not_elem_of_nil.
  - exists merged. repeat split; try done. intros name x y Hin.
    by apply elem_of_nil in Hin.
  - exists hf, mf. split; [|split; [done|split; [done|split; [|done]]]].
    + rewrite (process_Obj _ _ _ _ _ Hk).
      rewrite (bind_Some _ _ _ _ _ Hinj).
      rewrite (bind_Some _ _ _ _ _ (ownKeys_Obj _ _ _ Hk)).
      by rewrite (bind_Some _ _ _ _ _ Hloop).
    + intros name x y Hx Hy. apply (Hcopied name); [|done..].
      rewrite app_nil_r. apply elem_of_reverse, list_elem_of_fmap.
      exists (name, x). split; [done|]. by apply elem_of_map_to_list.
Qed.

(** With an [extra] that holds arrays of primitives next to primitives (as
    [{ features: [...], auth: true }]) and whose own [queryKey] field, if it
    has one, is a primitive, the injector returns on an operation whose static
    key has primitive fields and whose other properties are primitives,
    functions or objects of primitives: the new key holds the fields of the
    original key and of [extra]; a primitive field has its value, an array
    field holds a copy of the array, allocated by the run, with the same
    elements.  [extra] and its arrays are left as they were. *)
Theorem inject_array_extra (extra : loc) (ep : gmap string value)
    (h : heap) (l q : loc) (p qp : gmap string value) (n : nat) :
  h !! l = Some (Obj p) →
  p !! "queryKey" = Some (VRef q) →
  h !! q = Some (Obj qp) →
  primFields qp →
  (∀ name x, p !! name = Some x → name ≠ "queryKey" → inert h x) →
  h !! extra = Some (Obj ep) →
  (∀ name x, ep !! name = Some x → shallow h x) →
  (∀ x, ep !! "queryKey" = Some x → prim x = true) →
  ∃ h' k kp,
    inyectKeysToQueries (S (S (S (S n)))) (VRef l) extra h = Some (VRef l, h') ∧
    field h' (VRef l) "queryKey" = Some (VRef k) ∧
    (length h ≤ k)%nat ∧
    h' !! k = Some (Obj kp) ∧
    (∀ name, kp !! name = None ↔ (ep ∪ qp) !! name = None) ∧
    (∀ name x y, (ep ∪ qp) !! name = Some x → kp !! name = Some y →
                 copied h h' (length h) x y) ∧
    h' !! extra = Some (Obj ep) ∧
    (∀ a elems, h !! a = Some (Arr elems) → h' !! a = Some (Arr elems)).
Proof.
  intros Hl Hq Hqp Hqprim Hrest Hextra Hshallow Hekey.
  pose proof (lookup_lt_length_Some _ _ _ Hl) as Hlt.
  set (k := length h).
  set (merged := ep ∪ qp).
  set (p1 := <["queryKey" := VRef k]> p).
  set (h1 := <[l := Obj p1]> (h ++ [Obj merged])).
  pose proof (injectQueryKey_static extra l p q qp ep h Hl Hq Hqp Hextra) as Hinj.
  fold k merged p1 h1 in Hinj.
  assert (h1 !! l = Some (Obj p1)) as Hl1.
  { apply list_lookup_insert_eq. rewrite length_app. lia. }
  assert (h1 !! k = Some (Obj merged)) as Hk1.
  { unfold h1, k. rewrite list_lookup_insert_ne by lia. by rewrite lookup_app_length. }
  assert (∀ m c, h !! m = Some c → m ≠ l → h1 !! m = Some c) as Hframe1.
  { intros m c Hm Hne. unfold h1. rewrite list_lookup_insert_ne by done.
    by apply lookup_app_l_Some. }
  assert (length h1 = S (length h)) as Hlen1.
  { unfold h1. rewrite length_insert, length_app. cbn. lia. }
  assert (∀ name x, merged !! name = Some x → shallow h x) as Hmshallow.
  { intros name x [Hx|[_ Hx]]%lookup_union_Some_raw; [by apply (Hshallow name)|].
    left. by apply (Hqprim name). }
  assert (∀ x, merged !! "queryKey" = Some x → prim x = true) as Hmkey.
  { intros x [Hx|[_ Hx]]%lookup_union_Some_raw; [by apply Hekey|].
    by apply (Hqprim "queryKey"). }
  assert (∀ a elems, h !! a = Some (Arr elems) → h1 !! a = Some (Arr elems))
    as Harr1.
  { intros a elems Ha. apply Hframe1; [done|]. intros ->. by rewrite Hl in Ha. }
  set (I := λ (done : list string) (hi : heap),
         hi !! l = Some (Obj p1) ∧
         (∀ m c, h1 !! m = Some c → m ≠ k → hi !! m = Some c) ∧
         (length h1 ≤ length hi)%nat ∧
         ((("queryKey" ∉ done) ∧ hi = h1) ∨
          ∃ kp, "queryKey" ∈ done ∧ hi !! k = Some (Obj kp) ∧
                (∀ name, kp !! name = None ↔ merged !! name = None) ∧
                (∀ name x y, merged !! name = Some x → kp !! name = Some y →
                             copied h hi (length h) x y))).
  destruct (forEach_inv
              (λ prop,
                 let* own := hasOwn l prop in
                 if own : bool then
                   let* v := getProp prop (VRef l) in
                   let* v' := process (S (S (S n))) extra v in
                   setProp l prop v'
                 else ret tt) I (map_to_list p1).*1) with (done := @nil string) (s := h1)
    as (hf & Hloop & (Hlf & Hframe & Hlen & Hpost)).
  - apply NoDup_fst_map_to_list.
  - intros name done hi [x Hx]%elem_of_ownKeys Hnew (Hli & Hframei & Hleni & Hposti).
    assert (∀ h2,
              process (S (S (S n))) extra x hi = Some (x, h2) →
              h2 !! l = Some (Obj p1) →
              (let* own := hasOwn l name in
               if own : bool then
                 let* v := getProp name (VRef l) in
                 let* v' := process (S (S (S n))) extra v in
                 setProp l name v'
               else ret tt) hi = Some (tt, h2)) as Hbody.
    { intros h2 Hrun Hl2.
      rewrite (bind_Some _ _ _ _ _ (hasOwn_Obj _ _ _ _ Hli)).
      rewrite bool_decide_eq_true_2 by eauto.
      rewrite (bind_Some _ _ _ _ _ (getProp_Obj _ _ _ _ Hli)).
      rewrite Hx. cbn [default from_option id].
      rewrite (bind_Some _ _ _ _ _ Hrun). by apply setProp_same with p1. }
    destruct (decide (name = "queryKey")) as [->|Hne].
    + unfold p1 in Hx. rewrite lookup_insert_eq in Hx. injection Hx as <-.
      destruct Hposti as [[_ ->]|(kp & Hin & _)]; [|by destruct Hnew].
      destruct (process_merged extra n h h1 k merged Hk1 Hmshallow Hmkey Harr1)
        as (h2 & kp & Hrun & Hk2 & Hdom & Hcopied & Hframe2 & Hlen2).
      assert (h2 !! l = Some (Obj p1)) as Hl2 by (apply Hframe2; [done|unfold k; lia]).
      exists h2. split; [by apply Hbody|].
      split; [done|]. split; [done|]. split; [done|]. right. exists kp.
      split; [by left|]. split; [done|]. split; [done|]. intros name x y Hx' Hy'.
      destruct (Hcopied name x y Hx' Hy')
        as [?|(a & elems & a' & -> & Ha & -> & Ha' & Hel)]; [by left|].
      right. exists a, elems, a'. repeat split; try done. lia.
    + unfold p1 in Hx. rewrite lookup_insert_ne in Hx by done.
      assert (inert hi x) as Hin.
      { pose proof (Hrest _ _ Hx Hne) as Hin.
        destruct x as [| | | | |m|]; try done.
        destruct Hin as (pm & Hm & Hpm). exists pm. split; [|done].
        pose proof (lookup_lt_length_Some _ _ _ Hm).
        apply Hframei; [|unfold k; lia]. apply Hframe1; [done|].
        intros ->. rewrite Hl in Hm. injection Hm as ->.
        by specialize (Hpm _ _ Hq). }
      exists hi. split; [apply Hbody; [by apply process_inert|done]|].
      split; [done|]. split; [done|]. split; [done|].
      destruct Hposti as [[Hnot ->]|(kp & Hin' & Hdone)]; [left|right].
      * split; [|done]. by intros [?|?]%elem_of_cons.
      * exists kp. split; [by right|done].
  - intros name _. apply not_elem_of_nil.
  - split; [done|]. split; [done|]. split; [done|]. left.
    split; [apply not_elem_of_nil|done].
  - destruct Hpost as [[Hnot _]|(kp & _ & Hkf & Hdom & Hcopied)].
    { exfalso. apply Hnot. rewrite app_nil_r. apply elem_of_reverse, list_elem_of_fmap.
      exists ("queryKey", VRef k). split; [done|].
      apply elem_of_map_to_list. unfold p1. by rewrite lookup_insert_eq. }
    assert (extra ≠ l) as Hel.
    { intros ->. rewrite Hl in Hextra. injection Hextra as ->.
      destruct (Hshallow _ _ Hq) as [?|(a & elems & [= <-] & Ha & _)]; [done|].
      by rewrite Hqp in Ha. }
    pose proof (lookup_lt_length_Some _ _ _ Hextra) as Hlte.
    exists hf, k, kp. split; [|split; [|split; [done|split; [done|split; [done|
      split; [done|split]]]]]].
    + unfold inyectKeysToQueries. rewrite (process_Obj _ _ _ _ _ Hl).
      rewrite (bind_Some _ _ _ _ _ Hinj).
      rewrite (bind_Some _ _ _ _ _ (ownKeys_Obj _ _ _ Hl1)).
      by rewrite (bind_Some _ _ _ _ _ Hloop).
    + unfold field, fieldsOf. rewrite Hlf. cbn [mbind option_bind].
      unfold p1. by rewrite lookup_insert_eq.
    + apply Hframe; [by apply Hframe1|unfold k; lia].
    + intros a elems Ha. pose proof (lookup_lt_length_Some _ _ _ Ha).
      apply Hframe; [by apply Harr1|unfold k; lia].
Qed.

(** ** Concrete runs of the further properties *)

Lemma listFields_prims E : primFields (listFields E).
Proof. unfold listFields. prims. Qed.

Lemma chainHeap_treeAt :
  treeAt 2 chainHeap (VRef 10) (groupNodes 10 (crudGroup 0)).
Proof.
  apply groupAt_treeAt, (crud_groupAt "accounts" [] chainHeap).
  apply preserved_app_r, (preserved_app _ [_]).
Qed.

Lemma inject_writes_nodes_only_nested :
  treeAt 3 nestedHeap (VRef 12) ({[ 12%nat ]} ∪ groupNodes 10 (crudGroup 0)) ∧
  nestedHeap !! 11%nat = Some (Obj authExtra) ∧
  primFields authExtra ∧
  ∃ h',
    inyectKeysToQueries 5 (VRef 12) 11 nestedHeap = Some (VRef 12, h') ∧
    h' !! 2%nat = Some (Obj (listFields "accounts")) ∧
    h' !! 11%nat = Some (Obj authExtra).
Proof.
  split; [exact nestedHeap_treeAt|]. split; [reflexivity|].
  split; [exact authExtra_prims|].
  destruct (inject_writes_nodes_only 11 authExtra nestedHeap 3 (VRef 12) _ 0
              nestedHeap_treeAt eq_refl authExtra_prims)
    as (h' & Hrun & _ & Hflat & _).
  exists h'. split; [exact Hrun|]. split.
  - exact (Hflat 2%nat _ eq_refl (listFields_prims "accounts")).
  - exact (Hflat 11%nat _ eq_refl authExtra_prims).
Defined.

Lemma inject_chain_accounts :
  treeAt 2 chainHeap (VRef 10) (groupNodes 10 (crudGroup 0)) ∧
  chainHeap !! 11%nat = Some (Obj authExtra) ∧ primFields authExtra ∧
  chainHeap !! 12%nat = Some (Obj tenantExtra) ∧ primFields tenantExtra ∧
  ∃ h1 h2,
    inyectKeysToQueries 4 (VRef 10) 11 chainHeap = Some (VRef 10, h1) ∧
    inyectKeysToQueries 4 (VRef 10) 12 h1 = Some (VRef 10, h2) ∧
    propFields h2 (VRef 3) "queryKey"
      = Some (tenantExtra ∪ (authExtra ∪ listFields "accounts")).
Proof.
  assert (primFields tenantExtra) as Hten by (unfold tenantExtra; prims).
  split; [exact chainHeap_treeAt|]. split; [reflexivity|].
  split; [exact authExtra_prims|]. split; [reflexivity|]. split; [exact Hten|].
  destruct (inject_chain 11 12 authExtra tenantExtra chainHeap 2 (VRef 10) _ 0
              chainHeap_treeAt eq_refl authExtra_prims eq_refl Hten)
    as (h1 & h2 & Hrun1 & Hrun2 & Hops).
  exists h1, h2. split; [exact Hrun1|]. split; [exact Hrun2|].
  destruct (Hops 3%nat _
              (reach_prop chainHeap 10 _ "list" (VRef 3) 3 eq_refl eq_refl
                 (reach_here chainHeap 3)) eq_refl) as (Hstatic & _).
  exact (Hstatic 2%nat _ eq_refl eq_refl).
Defined.

Lemma callbacksHeap_keyless : keyless 2 callbacksHeap (VRef 2).
Proof.
  eexists. split; [reflexivity|]. split.
  - intros x Hx. vm_compute in Hx. by injection Hx as <-.
  - intros name x Hx.
    repeat (apply lookup_insert_Some in Hx as [[_ <-]|[_ Hx]]);
      [| | |apply lookup_singleton_Some in Hx as [_ <-]]; try exact I.
    + eexists. split; [reflexivity|]. split.
      * intros x Hx. discriminate Hx.
      * intros k x Hx. apply lookup_singleton_Some in Hx as [_ <-]. exact I.
    + eexists. split; [reflexivity|]. split.
      * intros x Hx. discriminate Hx.
      * intros k x Hx. apply lookup_singleton_Some in Hx as [_ <-]. exact I.
Qed.

Lemma inject_key_itself_unchanged_callbacks :
  keyless 2 callbacksHeap (VRef 2) ∧
  callbacksHeap !! 11%nat = None ∧
  inyectKeysToQueries 3 (VRef 2) 11 callbacksHeap = Some (VRef 2, callbacksHeap).
Proof.
  split; [exact callbacksHeap_keyless|]. split; [reflexivity|].
  exact (inject_key_itself_unchanged 11 callbacksHeap 2 (VRef 2) 0
           callbacksHeap_keyless).
Defined.

Lemma inject_cycle_never_returns_self :
  selfReferent cyclicHeap 0 "self" ∧
  "self" ≠ "queryKey" ∧
  cyclicHeap !! 1%nat = Some (Obj authExtra) ∧
  primFields authExtra ∧
  inyectKeysToQueries 100 (VRef 0) 1 cyclicHeap = None.
Proof.
  assert (selfReferent cyclicHeap 0 "self") as Hself.
  { eexists. split; [reflexivity|]. split; [reflexivity|].
    intros k x Hx Hk.
    apply lookup_insert_Some in Hx as [[<- _]|[_ Hx]]; [done|].
    apply lookup_singleton_Some in Hx as [_ <-]. exact I. }
  assert ("self" ≠ "queryKey") as Hne by discriminate.
  split; [exact Hself|]. split; [exact Hne|]. split; [reflexivity|].
  split; [exact authExtra_prims|].
  exact (inject_cycle_never_returns 1 authExtra 0 "self" 100 cyclicHeap Hself Hne
           eq_refl authExtra_prims).
Defined.

Lemma inject_array_queryKey_example :
  arrayKeyHeap !! 1%nat
    = Some (Obj {[ "queryKey" := VRef 0; "type" := VStr "query" ]}) ∧
  arrayKeyHeap !! 0%nat = Some (Arr [VStr "accounts"; VStr "list"]) ∧
  arrayKeyHeap !! 2%nat = Some (Obj authExtra) ∧
  ∃ h',
    inyectKeysToQueries 3 (VRef 1) 2 arrayKeyHeap = Some (VRef 1, h') ∧
    propFields h' (VRef 1) "queryKey"
      = Some (authExtra ∪ indexProps [VStr "accounts"; VStr "list"]) ∧
    indexProps [VStr "accounts"; VStr "list"]
      = {[ "0" := VStr "accounts"; "1" := VStr "list" ]}.
Proof.
  split; [reflexivity|]. split; [reflexivity|]. split; [reflexivity|].
  destruct (inject_array_queryKey 2 authExtra arrayKeyHeap 1 0 _
              [VStr "accounts"; VStr "list"] 0 eq_refl eq_refl eq_refl)
    as (h' & Hrun & Hkey & _).
  - repeat constructor.
  - intros name x Hx Hname.
    apply lookup_insert_Some in Hx as [[<- _]|[_ Hx]]; [done|].
    apply lookup_singleton_Some in Hx as [_ <-]. exact I.
  - reflexivity.
  - exact authExtra_prims.
  - exists h'. split; [exact Hrun|]. split; [exact Hkey|]. reflexivity.
Defined.

Lemma inject_array_returns_copy_example :
  groupsArrayHeap !! 12%nat = Some (Arr [VRef 10]) ∧
  Forall2 (treeAt 2 groupsArrayHeap) [VRef 10] [groupNodes 10 (crudGroup 0)] ∧
  apart [groupNodes 10 (crudGroup 0)] ∧
  groupsArrayHeap !! 11%nat = Some (Obj authExtra) ∧
  primFields authExtra ∧
  ∃ a' h',
    inyectKeysToQueries 5 (VRef 12) 11 groupsArrayHeap = Some (VRef a', h') ∧
    (13 ≤ a')%nat ∧
    h' !! a' = Some (Arr [VRef 10]) ∧
    propFields h' (VRef 3) "queryKey" = Some (authExtra ∪ listFields "accounts").
Proof.
  assert (Forall2 (treeAt 2 groupsArrayHeap) [VRef 10] [groupNodes 10 (crudGroup 0)])
    as Htrees.
  { constructor; [|constructor].
    apply groupAt_treeAt, (crud_groupAt "accounts" [] groupsArrayHeap).
    apply preserved_app_r, (preserved_app _ [_]). }
  assert (apart [groupNodes 10 (crudGroup 0)]) as Hapart by (by split).
  split; [reflexivity|]. split; [exact Htrees|]. split; [exact Hapart|].
  split; [reflexivity|]. split; [exact authExtra_prims|].
  destruct (inject_array_returns_copy 11 authExtra groupsArrayHeap 12 [VRef 10] _ 2 0
              eq_refl Htrees Hapart eq_refl authExtra_prims)
    as (a' & h' & Hrun & Hfresh & Ha' & _ & Hops).
  exists a', h'. split; [exact Hrun|]. split; [exact Hfresh|]. split; [exact Ha'|].
  destruct (Hops 0%nat (VRef 10) 3%nat _ eq_refl
              (reach_prop groupsArrayHeap 10 _ "list" (VRef 3) 3 eq_refl eq_refl
                 (reach_here groupsArrayHeap 3)) eq_refl) as (Hstatic & _).
  exact (Hstatic 2%nat _ eq_refl eq_refl).
Defined.

Lemma inject_leaves_other_group_example :
  primFields authExtra ∧
  ∃ a b h',
    buildTwoGroups "accounts" "accounts" authExtra 4 [] = Some ((a, b), h') ∧
    staticKey h' a "list" = Some (authExtra ∪ listFields "accounts") ∧
    staticKey h' b "list" = Some (listFields "accounts").
Proof.
  split; [exact authExtra_prims|].
  destruct (inject_leaves_other_group "accounts" "accounts" authExtra [] 0
              authExtra_prims) as (a & b & h' & Hrun & Ha & _ & _ & Hb & _).
  exists a, b, h'. split; [exact Hrun|]. split; [exact Ha|exact Hb].
Defined.

Lemma inject_reads_extra_late_example :
  treeAt 2 accountsHeap (VRef 10) (groupNodes 10 (crudGroup 0)) ∧
  accountsHeap !! 11%nat = Some (Obj authExtra) ∧
  primFields authExtra ∧
  ∃ h' h'',
    inyectKeysToQueries 4 (VRef 10) 11 accountsHeap = Some (VRef 10, h') ∧
    setProp 11 "auth" (VBool false) h' = Some (tt, h'') ∧
    propFields h'' (VRef 3) "queryKey" = Some (authExtra ∪ listFields "accounts") ∧
    callForKey 2 (VFun (InjectedFn (KeyFn "accounts" "detail") 11)) [VStr "42"]
      (h'', emptyCache)
    = Some (<["auth" := VBool false]> authExtra ∪ detailFields "accounts" (VStr "42")).
Proof.
  pose proof (groupAt_treeAt _ _ _ accountsHeap_groupAt) as Htree.
  split; [exact Htree|]. split; [reflexivity|]. split; [exact authExtra_prims|].
  destruct (inject_reads_extra_late 11 authExtra accountsHeap 2 (VRef 10) _ 0
              "auth" (VBool false) Htree eq_refl authExtra_prims)
    as (h' & h'' & Hrun & Hset & Hextra & Hops).
  exists h', h''. split; [exact Hrun|]. split; [exact Hset|].
  destruct (Hops 3%nat _
              (reach_prop accountsHeap 10 _ "list" (VRef 3) 3 eq_refl eq_refl
                 (reach_here accountsHeap 3)) eq_refl) as (Hstatic & _).
  destruct (Hops 4%nat _
              (reach_prop accountsHeap 10 _ "detail" (VRef 4) 4 eq_refl eq_refl
                 (reach_here accountsHeap 4)) eq_refl) as (_ & Hfun).
  split; [exact (Hstatic 2%nat _ eq_refl eq_refl)|].
  pose proof (proj2 (Hfun (KeyFn "accounts" "detail") eq_refl)) as Hcall.
  refine (Hcall 1%nat [VStr "42"] emptyCache (length h'')
            (h'' ++ [Obj (detailFields "accounts" (VStr "42"))], emptyCache)
            (detailFields "accounts" (VStr "42")) eq_refl _ _).
  - cbn [fst]. rewrite lookup_app_length. reflexivity.
  - cbn [fst]. apply lookup_app_l_Some, Hextra.
Defined.

Lemma inject_array_extra_features :
  featuresHeap !! 3%nat
    = Some (Obj {[ "queryKey" := VRef 2; "type" := VStr "query" ]}) ∧
  featuresHeap !! 1%nat = Some (Obj featuresExtra) ∧
  featuresHeap !! 0%nat = Some (Arr [VStr "beta-ui"]) ∧
  ∃ h' k kp a',
    inyectKeysToQueries 4 (VRef 3) 1 featuresHeap = Some (VRef 3, h') ∧
    field h' (VRef 3) "queryKey" = Some (VRef k) ∧
    h' !! k = Some (Obj kp) ∧
    kp !! "auth" = Some (VBool true) ∧
    kp !! "entity" = Some (VStr "analytics") ∧
    kp !! "features" = Some (VRef a') ∧
    (4 ≤ a')%nat ∧
    h' !! a' = Some (Arr [VStr "beta-ui"]).
Proof.
  split; [reflexivity|]. split; [reflexivity|]. split; [reflexivity|].
  destruct (inject_array_extra 1 featuresExtra featuresHeap 3 2 _ _ 0
              eq_refl eq_refl eq_refl)
    as (h' & k & kp & Hrun & Hkey & _ & Hk & Hdom & Hcopied & _).
  - prims.
  - intros name x Hx Hname.
    apply lookup_insert_Some in Hx as [[<- _]|[_ Hx]]; [done|].
    apply lookup_singleton_Some in Hx as [_ <-]. exact I.
  - reflexivity.
  - intros name x Hx. unfold featuresExtra in Hx.
    apply lookup_insert_Some in Hx as [[_ <-]|[_ Hx]].
    + right. exists 0%nat, [VStr "beta-ui"]. repeat constructor.
    + apply lookup_singleton_Some in Hx as [_ <-]. by left.
  - intros x Hx. unfold featuresExtra in Hx.
    by apply lookup_insert_Some in Hx as [[? _]|[_ [? _]%lookup_singleton_Some]].
  - assert (∀ name x, (featuresExtra ∪ {[ "entity" := VStr "analytics";
                                            "method" := VStr "list" ]}) !! name
                       = Some x → ∃ y, kp !! name = Some y ∧
                                       copied featuresHeap h' 4 x y) as Hget.
    { intros name x Hx. destruct (kp !! name) as [y|] eqn:Hy.
      - exists y. split; [done|]. by apply (Hcopied name).
      - apply Hdom in Hy. by rewrite Hy in Hx. }
    destruct (Hget "auth" (VBool true) eq_refl) as (y1 & Hy1 & [[_ ->]|Hc1]);
      [|by destruct Hc1 as (? & ? & ? & ? & _)].
    destruct (Hget "entity" (VStr "analytics") eq_refl) as (y2 & Hy2 & [[_ ->]|Hc2]);
      [|by destruct Hc2 as (? & ? & ? & ? & _)].
    destruct (Hget "features" (VRef 0) eq_refl)
      as (y3 & Hy3 & [[? _]|(a & elems & a' & [= <-] & Ha & -> & Hge & Ha')]);
      [done|].
    injection Ha as <-.
    exists h', k, kp, a'. repeat split; assumption.
Defined.

Lemma listCacheItems_ids :
  Forall (λ item, is_Some (idOf listCacheHeap item)) [VRef 12; VRef 13].
Proof. repeat constructor; eexists; reflexivity. Qed.

Lemma crud_detail_normalize_example :
  createQueryGroupCRUD "accounts" [] = Some (VRef 10, crudCells "accounts" 0) ∧
  idOf listCacheHeap (VRef 11) = Some (VStr "a") ∧
  listCache (listFields "accounts") = VRef 14 ∧
  listCacheHeap !! 14%nat = Some (Arr [VRef 12; VRef 13]) ∧
  ∃ h' c' a,
    callNormalize 2 (listCacheHeap, listCache) (VRef 10) "detail" (VRef 11)
      = Some (h', c') ∧
    c' (listFields "accounts") = VRef a ∧
    h' !! a = Some (Arr [VRef 11; VRef 13]) ∧
    c' (detailFields "accounts" (VStr "a"))
      = listCache (detailFields "accounts" (VStr "a")).
Proof.
  assert (listCache (listFields "accounts") = VRef 14) as Hold by apply setEntry_eq.
  split; [reflexivity|]. split; [reflexivity|]. split; [exact Hold|].
  split; [reflexivity|].
  destruct (crud_detail_normalize "accounts" [] (crudCells "accounts" 0)
              listCacheItems (VRef 10) listCache (VRef 11) (VStr "a") 0 14
              [VRef 12; VRef 13] eq_refl eq_refl Hold eq_refl listCacheItems_ids)
    as (h' & c' & a & Hrun & Hlist & Ha & Hrest & _).
  exists h', c', a. split; [exact Hrun|]. split; [exact Hlist|]. split; [exact Ha|].
  apply Hrest. intros Heq. symmetry in Heq.
  exact (listFields_ne_detailFields "accounts" (VStr "a") Heq).
Defined.

Lemma crud_update_remove_frame_example :
  createQueryGroupCRUD "accounts" [] = Some (VRef 10, crudCells "accounts" 0) ∧
  idOf listCacheHeap (VRef 11) = Some (VStr "a") ∧
  listCache (listFields "accounts") = VRef 14 ∧
  listCacheHeap !! 14%nat = Some (Arr [VRef 12; VRef 13]) ∧
  ∃ h' c',
    callNormalize 2 (listCacheHeap, listCache) (VRef 10) "remove" (VRef 11)
      = Some (h', c') ∧
    h' !! 14%nat = Some (Arr [VRef 12; VRef 13]) ∧
    c' (listFields "users") = listCache (listFields "users").
Proof.
  assert (listCache (listFields "accounts") = VRef 14) as Hold by apply setEntry_eq.
  split; [reflexivity|]. split; [reflexivity|]. split; [exact Hold|].
  split; [reflexivity|].
  destruct (proj2 (crud_update_remove_frame "accounts" [] (crudCells "accounts" 0)
                     listCacheItems (VRef 10) listCache (VRef 11) (VStr "a") 0 14
                     [VRef 12; VRef 13] eq_refl eq_refl Hold eq_refl
                     listCacheItems_ids))
    as (h' & c' & Hrun & Hrest & Hp).
  exists h', c'. split; [exact Hrun|]. split; [exact (Hp 14%nat _ eq_refl)|].
  apply Hrest.
  - intros Heq. apply (f_equal (λ m : gmap string value, m !! "entity")) in Heq.
    discriminate Heq.
  - intros Heq. apply (f_equal (λ m : gmap string value, m !! "method")) in Heq.
    discriminate Heq.
Defined.

Lemma otherCacheItems_others :
  Forall (λ item, ∃ j, idOf otherCacheHeap item = Some j ∧ j ≠ VStr "x") [VRef 12].
Proof. constructor; [|constructor]. exists (VStr "b"). split; [reflexivity|discriminate]. Qed.

Lemma crud_create_then_remove_example :
  createQueryGroupCRUD "accounts" [] = Some (VRef 10, crudCells "accounts" 0) ∧
  idOf otherCacheHeap (VRef 11) = Some (VStr "x") ∧
  otherCache (listFields "accounts") = VRef 13 ∧
  otherCacheHeap !! 13%nat = Some (Arr [VRef 12]) ∧
  ∃ s1 h2 c2 a,
    callNormalize 2 (otherCacheHeap, otherCache) (VRef 10) "create" (VRef 11)
      = Some s1 ∧
    callNormalize 2 s1 (VRef 10) "remove" (VRef 11) = Some (h2, c2) ∧
    c2 (listFields "accounts") = VRef a ∧
    h2 !! a = Some (Arr [VRef 12]) ∧
    c2 (detailFields "accounts" (VStr "x")) = VUndefined.
Proof.
  assert (otherCache (listFields "accounts") = VRef 13) as Hold by apply setEntry_eq.
  split; [reflexivity|]. split; [reflexivity|]. split; [exact Hold|].
  split; [reflexivity|].
  destruct (crud_create_then_remove "accounts" [] (crudCells "accounts" 0)
              otherCacheItems (VRef 10) otherCache (VRef 11) (VStr "x") 0 13
              [VRef 12] eq_refl eq_refl Hold eq_refl otherCacheItems_others)
    as (s1 & h2 & c2 & a & Hrun1 & Hrun2 & Hlist & Ha & Hdetail & _).
  exists s1, h2, c2, a. repeat split; assumption.
Defined.

Lemma crud_create_then_remove_absent_example :
  createQueryGroupCRUD "accounts" [] = Some (VRef 10, crudCells "accounts" 0) ∧
  idOf (crudCells "accounts" 0 ++ [newAccount]) (VRef 11) = Some (VStr "x") ∧
  emptyCache (listFields "accounts") = VUndefined ∧
  ∃ s1 h2 c2 a,
    callNormalize 2 (crudCells "accounts" 0 ++ [newAccount], emptyCache) (VRef 10)
      "create" (VRef 11) = Some s1 ∧
    callNormalize 2 s1 (VRef 10) "remove" (VRef 11) = Some (h2, c2) ∧
    c2 (listFields "accounts") = VRef a ∧
    h2 !! a = Some (Arr []).
Proof.
  split; [reflexivity|]. split; [reflexivity|]. split; [reflexivity|].
  destruct (crud_create_then_remove_absent "accounts" [] (crudCells "accounts" 0)
              [newAccount] (VRef 10) emptyCache (VRef 11) (VStr "x") 0
              eq_refl eq_refl eq_refl)
    as (s1 & h2 & c2 & a & Hrun1 & Hrun2 & Hlist & Ha & _).
  exists s1, h2, c2, a. repeat split; assumption.
Defined.

Lemma crud_update_normalize_twice_example :
  createQueryGroupCRUD "accounts" [] = Some (VRef 10, crudCells "accounts" 0) ∧
  idOf listCacheHeap (VRef 11) = Some (VStr "a") ∧
  listCache (listFields "accounts") = VRef 14 ∧
  listCacheHeap !! 14%nat = Some (Arr [VRef 12; VRef 13]) ∧
  ∃ h' c' a' h'' c'' a'' items',
    callNormalize 2 (listCacheHeap, listCache) (VRef 10) "update" (VRef 11)
      = Some (h', c') ∧
    callNormalize 2 (h', c') (VRef 10) "update" (VRef 11) = Some (h'', c'') ∧
    c' (listFields "accounts") = VRef a' ∧ h' !! a' = Some (Arr items') ∧
    c'' (listFields "accounts") = VRef a'' ∧ h'' !! a'' = Some (Arr items') ∧
    c'' (detailFields "accounts" (VStr "a")) = VRef 11.
Proof.
  assert (listCache (listFields "accounts") = VRef 14) as Hold by apply setEntry_eq.
  split; [reflexivity|]. split; [reflexivity|]. split; [exact Hold|].
  split; [reflexivity|].
  destruct (crud_update_normalize_twice "accounts" [] (crudCells "accounts" 0)
              listCacheItems (VRef 10) listCache (VRef 11) (VStr "a") 0 14
              [VRef 12; VRef 13] eq_refl eq_refl Hold eq_refl listCacheItems_ids)
    as (h' & c' & a' & h'' & c'' & a'' & items' & Hrun1 & Hrun2 & Hlist' & Ha'
        & Hlist & Ha & Hdetail & _).
  exists h', c', a', h'', c'', a'', items'. repeat split; assumption.
Defined.

Lemma crud_update_unknown_id_example :
  createQueryGroupCRUD "accounts" [] = Some (VRef 10, crudCells "accounts" 0) ∧
  idOf otherCacheHeap (VRef 11) = Some (VStr "x") ∧
  otherCache (listFields "accounts") = VRef 13 ∧
  otherCacheHeap !! 13%nat = Some (Arr [VRef 12]) ∧
  ∃ h' c' a,
    callNormalize 2 (otherCacheHeap, otherCache) (VRef 10) "update" (VRef 11)
      = Some (h', c') ∧
    c' (listFields "accounts") = VRef a ∧
    h' !! a = Some (Arr [VRef 12]) ∧
    c' (detailFields "accounts" (VStr "x")) = VRef 11.
Proof.
  assert (otherCache (listFields "accounts") = VRef 13) as Hold by apply setEntry_eq.
  split; [reflexivity|]. split; [reflexivity|]. split; [exact Hold|].
  split; [reflexivity|].
  exact (crud_update_unknown_id "accounts" [] (crudCells "accounts" 0)
           otherCacheItems (VRef 10) otherCache (VRef 11) (VStr "x") 0 13
           [VRef 12] eq_refl eq_refl Hold eq_refl otherCacheItems_others).
Defined.

Lemma normalize_without_data_raises_example :
  default VUndefined (([] : list value) !! 0%nat) = VUndefined ∧
  call 5 (CreateNormalize 3 4) [] (crudCells "accounts" 0, emptyCache) = None ∧
  call 5 (UpdateNormalize 3 4) [VNull] (crudCells "accounts" 0, emptyCache) = None.
Proof.
  split; [reflexivity|]. split.
  - exact (proj1 (normalize_without_data_raises 5 3 4 []
                    (crudCells "accounts" 0, emptyCache) (or_introl eq_refl))).
  - exact (proj1 (proj2 (normalize_without_data_raises 5 3 4 [VNull]
                           (crudCells "accounts" 0, emptyCache)
                           (or_intror eq_refl)))).
Defined.

Lemma update_hook_effect_example :
  createQueryGroupCRUD "accounts" [] = Some (VRef 10, crudCells "accounts" 0) ∧
  idOf listCacheHeap (VRef 11) = Some (VStr "a") ∧
  idOf listCacheHeap (VRef 13) = Some (VStr "b") ∧
  listCache (listFields "accounts") = VRef 14 ∧
  listCacheHeap !! 14%nat = Some (Arr [VRef 12; VRef 13]) ∧
  ∃ h' c' e1 e2 a,
    updateOnSuccess 2 (VRef 10) (VRef 11) (VRef 13) (listCacheHeap, listCache, [])
      = Some (tt, (h', c', [e1; e2])) ∧
    eventKey h' e1 = Some {[ "entity" := VStr "accounts"; "id" := VStr "b" ]} ∧
    eventKey h' e2 = Some (listFields "accounts") ∧
    c' (listFields "accounts") = VRef a ∧
    h' !! a = Some (Arr [VRef 11; VRef 13]) ∧
    c' (detailFields "accounts" (VStr "a")) = VRef 11.
Proof.
  assert (listCache (listFields "accounts") = VRef 14) as Hold by apply setEntry_eq.
  split; [reflexivity|]. split; [reflexivity|]. split; [reflexivity|].
  split; [exact Hold|]. split; [reflexivity|].
  exact (update_hook_effect "accounts" [] (crudCells "accounts" 0) listCacheItems
           (VRef 10) listCache [] (VRef 11) (VRef 13) (VStr "a") (VStr "b") 0 14
           [VRef 12; VRef 13] eq_refl eq_refl eq_refl Hold eq_refl
           listCacheItems_ids).
Defined.

Lemma create_hook_effect_example :
  createQueryGroupCRUD "accounts" [] = Some (VRef 10, crudCells "accounts" 0) ∧
  idOf (crudCells "accounts" 0 ++ [newAccount]) (VRef 11) = Some (VStr "x") ∧
  emptyCache (listFields "accounts") = VUndefined ∧
  ∃ h' c' e a,
    createOnSuccess 2 (VRef 10) (VRef 11)
      (crudCells "accounts" 0 ++ [newAccount], emptyCache, [])
      = Some (tt, (h', c', [e])) ∧
    eventKey h' e = Some (listFields "accounts") ∧
    c' (listFields "accounts") = VRef a ∧ h' !! a = Some (Arr [VRef 11]) ∧
    c' (detailFields "accounts" (VStr "x")) = VRef 11.
Proof.
  split; [reflexivity|]. split; [reflexivity|]. split; [reflexivity|].
  exact (proj1 (create_hook_effect "accounts" [] (crudCells "accounts" 0)
                  [newAccount] (VRef 10) emptyCache [] (VRef 11) (VStr "x") 0
                  eq_refl eq_refl) eq_refl).
Defined.

Lemma delete_hook_effect_example :
  createQueryGroupCRUD "accounts" [] = Some (VRef 10, crudCells "accounts" 0) ∧
  listCache (listFields "accounts") = VRef 14 ∧
  listCacheHeap !! 14%nat = Some (Arr [VRef 12; VRef 13]) ∧
  ∃ h' c' e1 e2 a,
    deleteOnSuccess 2 (VRef 10) (VStr "a") (listCacheHeap, listCache, [])
      = Some (tt, (h', c', [e1; e2])) ∧
    eventKey h' e1 = Some {[ "entity" := VStr "accounts"; "id" := VStr "a" ]} ∧
    eventKey h' e2 = Some (listFields "accounts") ∧
    c' (listFields "accounts") = VRef a ∧
    h' !! a = Some (Arr [VRef 13]) ∧
    c' (detailFields "accounts" (VStr "a")) = VUndefined.
Proof.
  assert (listCache (listFields "accounts") = VRef 14) as Hold by apply setEntry_eq.
  split; [reflexivity|]. split; [exact Hold|]. split; [reflexivity|].
  exact (delete_hook_effect "accounts" [] (crudCells "accounts" 0) listCacheItems
           (VRef 10) listCache [] (VStr "a") 0 14 [VRef 12; VRef 13]
           eq_refl Hold eq_refl listCacheItems_ids).
Defined.

Lemma normalizeParams_idempotent_example :
  [Obj paramsFields] !! 0%nat = Some (Obj paramsFields) ∧
  ∃ r h1 r' h2 fields,
    normalizeParams (VRef 0) [Obj paramsFields] = Some (VRef r, h1) ∧
    normalizeParams (VRef r) h1 = Some (VRef r', h2) ∧
    h1 !! r = Some (Obj fields) ∧
    h2 !! r' = Some (Obj fields) ∧
    fields !! "page" = Some (VNum 1) ∧
    fields !! "archived" = Some VNull ∧
    fields !! "search" = None ∧
    fields !! "status" = None.
Proof.
  split; [reflexivity|].
  destruct (normalizeParams_idempotent [Obj paramsFields] 0 paramsFields eq_refl)
    as (r & h1 & r' & h2 & fields & Hrun1 & Hrun2 & _ & Hr & Hr' & _ & Hfields).
  exists r, h1, r', h2, fields.
  split; [exact Hrun1|]. split; [exact Hrun2|]. split; [exact Hr|].
  split; [exact Hr'|]. split; [|split; [|split]].
  - apply Hfields. split; [reflexivity|]. split; discriminate.
  - apply Hfields. split; [reflexivity|]. split; discriminate.
  - destruct (fields !! "search") as [v|] eqn:Hv; [|reflexivity].
    apply Hfields in Hv as (Hv & _ & Hne). injection Hv as <-. by destruct Hne.
  - destruct (fields !! "status") as [v|] eqn:Hv; [|reflexivity].
    apply Hfields in Hv as (Hv & Hne & _). injection Hv as <-. by destruct Hne.
Defined.

Lemma invalidateAffectedEntities_calls_example :
  entityMapHeap !! 2%nat = Some (Obj entityMapFields) ∧
  Forall (λ e, is_Some (entityMapFields !! e) ∨ e ∉ inheritedNames)
         ["transactions"; "unknown"; "accounts"] ∧
  invalidateAffectedEntities 2 ["transactions"; "unknown"; "accounts"]
    (entityMapHeap, [])
  = Some (tt, (entityMapHeap ++ [Arr [VRef 1]; Arr [VRef 0]],
               [ InvalidateQueries (∅ ∪ {[ "queryKey" := VRef 3 ]});
                 InvalidateQueries (∅ ∪ {[ "queryKey" := VRef 4 ]}) ])).
Proof.
  assert (Forall (λ e, is_Some (entityMapFields !! e) ∨ e ∉ inheritedNames)
                 ["transactions"; "unknown"; "accounts"]) as Hes.
  { apply Forall_cons. split; [left; by eexists|].
    apply Forall_cons. split.
    - right. unfold inheritedNames. rewrite !elem_of_cons, elem_of_nil.
      intros H. repeat (destruct H as [H|H]; [discriminate H|]). exact H.
    - apply Forall_cons. split; [left; by eexists|]. apply Forall_nil_2. }
  split; [reflexivity|]. split; [exact Hes|].
  exact (proj1 (invalidateAffectedEntities_calls 2 entityMapFields
                  ["transactions"; "unknown"; "accounts"] entityMapHeap []
                  eq_refl Hes)).
Defined.

Lemma invalidateWithDependencies_once_example :
  Forall (λ e, is_Some (ENTITY_DEPENDENCIES !! e) ∨ e ∉ inheritedNames)
         ["categories"; "transactions"; "categories"] ∧
  collectEntities ENTITY_DEPENDENCIES ["categories"; "transactions"; "categories"]
    = Some ["categories"; "transactions"; "movements"] ∧
  ∃ all,
    collectEntities ENTITY_DEPENDENCIES ["categories"; "transactions"; "categories"]
      = Some all ∧
    invalidateWithDependencies 2 ["categories"; "transactions"; "categories"]
      (entityMapHeap, [])
    = invalidateAffectedEntities 2 all (entityMapHeap, []) ∧
    NoDup all.
Proof.
  assert (Forall (λ e, is_Some (ENTITY_DEPENDENCIES !! e) ∨ e ∉ inheritedNames)
                 ["categories"; "transactions"; "categories"]) as Hes.
  { apply Forall_cons. split; [left; by eexists|].
    apply Forall_cons. split; [left; by eexists|].
    apply Forall_cons. split; [left; by eexists|]. apply Forall_nil_2. }
  split; [exact Hes|]. split; [reflexivity|].
  destruct (invalidateWithDependencies_once 2
              ["categories"; "transactions"; "categories"] (entityMapHeap, []) Hes)
    as (all & Hall & Hrun & Hnd & _).
  exists all. split; [exact Hall|]. split; [exact Hrun|exact Hnd].
Defined.

Lemma inject_extra_queryKey_never_returns_example :
  extraKeyHeap !! 1%nat
    = Some (Obj {[ "queryKey" := VRef 0; "type" := VStr "query" ]}) ∧
  extraKeyHeap !! 3%nat
    = Some (Obj {[ "queryKey" := VRef 2; "auth" := VBool true ]}) ∧
  extraKeyHeap !! 2%nat = Some (Arr [VStr "v2"]) ∧
  inyectKeysToQueries 200 (VRef 1) 3 extraKeyHeap = None.
Proof.
  split; [reflexivity|]. split; [reflexivity|]. split; [reflexivity|].
  apply (inject_extra_queryKey_never_returns 3 2
           {[ "queryKey" := VRef 2; "auth" := VBool true ]} (Arr [VStr "v2"]) 200
           extraKeyHeap 1 0 {[ "queryKey" := VRef 0; "type" := VStr "query" ]}
           (Obj {[ "entity" := VStr "accounts" ]})).
  - reflexivity.
  - reflexivity.
  - reflexivity.
  - intros name x Hx. apply lookup_singleton_Some in Hx as [_ <-]. reflexivity.
  - intros name x Hx Hname.
    apply lookup_insert_Some in Hx as [[<- _]|[_ Hx]]; [done|].
    apply lookup_singleton_Some in Hx as [_ <-]. exact I.
  - discriminate.
  - reflexivity.
  - reflexivity.
  - intros name x Hx Hname.
    apply lookup_insert_Some in Hx as [[<- _]|[_ Hx]]; [done|].
    apply lookup_singleton_Some in Hx as [_ <-]. reflexivity.
  - reflexivity.
  - apply Forall_cons. split; [reflexivity|]. apply Forall_nil_2.
Defined.
